(** * Verification of sccompPy's draw post-processing utilities

    Shallow embedding of [utilities.py]: the index-extraction regular
    expression, the draw reshaper [draws_to_tibble_x_y], the summary reshaper
    [summary_to_tibble], the contrast evaluator [mutate_from_expr_list] and
    the orchestrator [get_abundance_contrast_draws].

    Python strings are lists of ASCII characters, Python integers are [Z],
    exceptions are an explicit error type, and [print] writes to an output
    log carried by the state. *)

From Stdlib Require Import String Ascii List ZArith QArith Lia Bool Arith PeanoNat.
From Stdlib Require Import Sorted Permutation.
Import ListNotations.

Local Open Scope Z_scope.

(** ** Python values, exceptions *)

Definition str := list ascii.

(** A string literal of the source. *)
Definition lit (s : string) : str := list_ascii_of_string s.

Inductive exn : Type :=
| KeyError (keys : list str)
| ValueError (msg : str) (items : list str)
| NameError (name : str)
| AttributeError (attr : str)
| TypeError (msg : str)
| ReError (pattern : str)
| EvalError (formula : str)
| OverflowError (msg : str).

Inductive result (A : Type) : Type :=
| Ok (a : A)
| Raise (e : exn).

Arguments Ok {A} a.
Arguments Raise {A} e.

Definition bind {A B : Type} (m : result A) (f : A -> result B) : result B :=
  match m with
  | Ok a => f a
  | Raise e => Raise e
  end.

Declare Scope py_scope.
Delimit Scope py_scope with py.
Notation "x <- m ;; k" := (bind m (fun x => k))
  (at level 61, m at next level, right associativity) : py_scope.
Notation "' p <- m ;; k" := (bind m (fun p => k))
  (at level 61, p pattern, m at next level, right associativity) : py_scope.

(** [mapM f l]: a comprehension or element-wise conversion that stops at the
    first element on which [f] raises. *)
Fixpoint mapM {A B : Type} (f : A -> result B) (l : list A) : result (list B) :=
  match l with
  | [] => Ok []
  | a :: l' =>
      match f a with
      | Raise e => Raise e
      | Ok b =>
          match mapM f l' with
          | Raise e => Raise e
          | Ok bs => Ok (b :: bs)
          end
      end
  end.

Fixpoint filterM {A : Type} (f : A -> result bool) (l : list A) : result (list A) :=
  match l with
  | [] => Ok []
  | a :: l' =>
      match f a with
      | Raise e => Raise e
      | Ok b =>
          match filterM f l' with
          | Raise e => Raise e
          | Ok r => Ok (if b then a :: r else r)
          end
      end
  end.

(** ** Strings *)

Definition ascii_eqb (a b : ascii) : bool := Ascii.eqb a b.

Fixpoint str_eqb (s t : str) : bool :=
  match s, t with
  | [], [] => true
  | a :: s', b :: t' => ascii_eqb a b && str_eqb s' t'
  | _, _ => false
  end.

(** Python's [<=] on strings: lexicographic on code points. *)
Fixpoint str_leb (s t : str) : bool :=
  match s, t with
  | [], _ => true
  | _ :: _, [] => false
  | a :: s', b :: t' =>
      if (nat_of_ascii a <? nat_of_ascii b)%nat then true
      else if (nat_of_ascii b <? nat_of_ascii a)%nat then false
      else str_leb s' t'
  end.

Fixpoint is_prefix (p s : str) : bool :=
  match p, s with
  | [], _ => true
  | a :: p', b :: s' => ascii_eqb a b && is_prefix p' s'
  | _ :: _, [] => false
  end.

(** [sub in s]. *)
Fixpoint contains (sub s : str) : bool :=
  is_prefix sub s ||
  match s with
  | [] => false
  | _ :: s' => contains sub s'
  end.

Definition mem_str (s : str) (l : list str) : bool := existsb (str_eqb s) l.

(** ** Character classes of the source's regular expressions *)

Definition in_range (lo hi c : ascii) : bool :=
  ((nat_of_ascii lo <=? nat_of_ascii c) && (nat_of_ascii c <=? nat_of_ascii hi))%nat.

Definition is_char (x c : ascii) : bool := ascii_eqb x c.

(** [[0-9]] *)
Definition cls_digit (c : ascii) : bool := in_range "0" "9" c.
(** [[1-9]] *)
Definition cls_digit19 (c : ascii) : bool := in_range "1" "9" c.
(** [[a-zA-Z0-9_\.]] *)
Definition cls_name (c : ascii) : bool :=
  in_range "a" "z" c || in_range "A" "Z" c || in_range "0" "9" c
  || is_char "_" c || is_char "." c.
(** [[a-zA-Z0-9_]] *)
Definition cls_word (c : ascii) : bool :=
  in_range "a" "z" c || in_range "A" "Z" c || in_range "0" "9" c || is_char "_" c.
(** [[a-zA-Z_]] *)
Definition cls_ident_start (c : ascii) : bool :=
  in_range "a" "z" c || in_range "A" "Z" c || is_char "_" c.
(** [\s] on ASCII text: tab, newline, vertical tab, form feed, carriage
    return, the separators 28 to 31, and space. *)
Definition cls_space (c : ascii) : bool :=
  let n := nat_of_ascii c in
  ((9 <=? n) && (n <=? 13) || (28 <=? n) && (n <=? 32))%nat.
(** [[-+]] *)
Definition cls_sign (c : ascii) : bool := is_char "-" c || is_char "+" c.
(** [[+\-*]] *)
Definition cls_operator (c : ascii) : bool :=
  is_char "+" c || is_char "-" c || is_char "*" c.
(** [[\(\)\s]] *)
Definition cls_paren_space (c : ascii) : bool :=
  is_char "(" c || is_char ")" c || cls_space c.

Definition newline : ascii := ascii_of_nat 10.

(** ** A backtracking matcher for the regular expressions of the source

    The constructors cover what the patterns of [utilities.py] use: character
    classes, greedy [+], [*] and [?], concatenation, alternation, capture
    groups and the anchors.  Matching follows Python's [re]: alternatives
    are tried in priority order (greedy first), and the first complete match
    wins. *)

Inductive regex : Type :=
| Eps
| Bol                              (* ^ *)
| Eol                              (* $ *)
| Chr (p : ascii -> bool)          (* one character of a class *)
| Plus (p : ascii -> bool)         (* class+ *)
| Star (p : ascii -> bool)         (* class* *)
| Opt (r : regex)                  (* r? *)
| Cat (r1 r2 : regex)
| Alt (r1 r2 : regex)
| Grp (n : nat) (r : regex).       (* capture group number n *)

Definition captures := list (nat * str).

Fixpoint group (n : nat) (c : captures) : option str :=
  match c with
  | [] => None
  | (m, s) :: c' => if (m =? n)%nat then Some s else group n c'
  end.

Section Matcher.
Context {R : Type}.
(** Length of the whole subject, to recognise its start. *)
Variable whole : nat.

Fixpoint star (p : ascii -> bool) (s : str) (k : str -> option R) : option R :=
  match s with
  | c :: s' =>
      if p c then
        match star p s' k with
        | Some x => Some x
        | None => k s
        end
      else k s
  | [] => k []
  end.

Fixpoint rmatch (r : regex) (s : str) (caps : captures)
    (k : str -> captures -> option R) {struct r} : option R :=
  match r with
  | Eps => k s caps
  | Bol => if (length s =? whole)%nat then k s caps else None
  | Eol =>
      match s with
      | [] => k s caps
      | [c] => if ascii_eqb c newline then k s caps else None
      | _ => None
      end
  | Chr p =>
      match s with
      | c :: s' => if p c then k s' caps else None
      | [] => None
      end
  | Plus p =>
      match s with
      | c :: s' => if p c then star p s' (fun t => k t caps) else None
      | [] => None
      end
  | Star p => star p s (fun t => k t caps)
  | Opt r1 =>
      match rmatch r1 s caps k with
      | Some x => Some x
      | None => k s caps
      end
  | Cat r1 r2 => rmatch r1 s caps (fun t c1 => rmatch r2 t c1 k)
  | Alt r1 r2 =>
      match rmatch r1 s caps k with
      | Some x => Some x
      | None => rmatch r2 s caps k
      end
  | Grp n r1 =>
      rmatch r1 s caps
        (fun t c1 => k t ((n, firstn (length s - length t) s) :: c1))
  end.
End Matcher.

(** The final continuation: the match is complete. *)
Definition accept (t : str) (c : captures) : option (str * captures) := Some (t, c).

(** A match found at some position: the text left after it and the groups. *)
Definition match_at (whole : nat) (r : regex) (s : str) : option (str * captures) :=
  rmatch whole r s [] accept.

(** [re.match]: a match at the start of the subject. *)
Definition re_match (r : regex) (s : str) : option (str * captures) :=
  match_at (length s) r s.

Fixpoint search_from (whole : nat) (r : regex) (s : str) : option (str * captures) :=
  match match_at whole r s with
  | Some x => Some x
  | None =>
      match s with
      | [] => None
      | _ :: s' => search_from whole r s'
      end
  end.

(** [re.search]: the leftmost match. *)
Definition re_search (r : regex) (s : str) : option (str * captures) :=
  search_from (length s) r s.

(** Number of characters a match at the head of [s] consumes. *)
Definition match_len (whole : nat) (r : regex) (s : str) : option nat :=
  match match_at whole r s with
  | Some (t, _) => Some (length s - length t)%nat
  | None => None
  end.

(** [re.sub(r, "", s)] for a pattern whose matches are never empty: each
    leftmost match is deleted and the scan resumes after it.  [skip] counts
    the characters of the current match still to delete. *)
Fixpoint sub_scan (whole : nat) (r : regex) (skip : nat) (s : str) : str :=
  match s with
  | [] => []
  | c :: s' =>
      match skip with
      | S n => sub_scan whole r n s'
      | O =>
          match match_len whole r s with
          | Some (S n) => sub_scan whole r n s'
          | _ => c :: sub_scan whole r O s'
          end
      end
  end.

Definition re_sub_delete (r : regex) (s : str) : str :=
  sub_scan (length s) r O s.

(** [re.split(r, s)] for a pattern without groups whose matches are never
    empty.  [cur] is the piece being read, reversed. *)
Fixpoint split_scan (whole : nat) (r : regex) (skip : nat) (cur : str) (s : str)
    : list str :=
  match s with
  | [] => [rev cur]
  | c :: s' =>
      match skip with
      | S n => split_scan whole r n cur s'
      | O =>
          match match_len whole r s with
          | Some (S n) => rev cur :: split_scan whole r n [] s'
          | _ => split_scan whole r O (c :: cur) s'
          end
      end
  end.

Definition re_split (r : regex) (s : str) : list str :=
  split_scan (length s) r O [] s.

(** ** Python's [str] and [int] on integers *)

(** Decimal digits, least significant first. *)
Fixpoint le_digits (fuel : nat) (n : Z) : list Z :=
  match fuel with
  | O => []
  | S f => (n mod 10) :: (if n / 10 =? 0 then [] else le_digits f (n / 10))
  end.

Definition digit_char (d : Z) : ascii := ascii_of_nat (48 + Z.to_nat d).

Definition dec_digits (n : Z) : str :=
  rev (map digit_char (le_digits (S (Z.to_nat (Z.log2 n))) n)).

(** [str(n)]. *)
Definition py_str (n : Z) : str :=
  if n <? 0 then "-"%char :: dec_digits (- n) else dec_digits n.

Definition digit_val (c : ascii) : option Z :=
  if cls_digit c then Some (Z.of_nat (nat_of_ascii c) - 48) else None.

Fixpoint int_acc (acc : Z) (s : str) : option Z :=
  match s with
  | [] => Some acc
  | c :: s' =>
      match digit_val c with
      | Some d => int_acc (10 * acc + d) s'
      | None => None
      end
  end.

(** [int(s)] on the digit strings the patterns capture; anything else is a
    conversion error. *)
Definition py_int (s : str) : option Z :=
  match s with
  | [] => None
  | _ => int_acc 0 s
  end.

(** ** The patterns of [utilities.py] *)

(** Line 28: [([1-9]+)?\.?([a-zA-Z0-9_\.]+)\[([0-9]+),([0-9]+)], in three
    parts: the name and its two indices, the optional separator before them,
    and the optional chain prefix in front. *)
Definition name_and_indices : regex :=
  Cat (Grp 2 (Plus cls_name))
  (Cat (Chr (is_char "["))
  (Cat (Grp 3 (Plus cls_digit))
  (Cat (Chr (is_char ","))
       (Grp 4 (Plus cls_digit))))).

Definition separator_and_name : regex :=
  Cat (Opt (Chr (is_char "."))) name_and_indices.

Definition index_pattern : regex :=
  Cat (Opt (Grp 1 (Plus cls_digit19))) separator_and_name.

(** Line 67: [\[|\]|,|\s]. *)
Definition split_name_pattern : regex :=
  Alt (Chr (is_char "["))
  (Alt (Chr (is_char "]"))
  (Alt (Chr (is_char ","))
       (Chr cls_space))).

(** Line 101: [[0-9]+/[0-9]+\s?\*]. *)
Definition fraction_pattern : regex :=
  Cat (Plus cls_digit)
  (Cat (Chr (is_char "/"))
  (Cat (Plus cls_digit)
  (Cat (Opt (Chr cls_space))
       (Chr (is_char "*"))))).

(** Line 102: [[-+]?[0-9]+\.[0-9]+\s?\*]. *)
Definition decimal_pattern : regex :=
  Cat (Opt (Chr cls_sign))
  (Cat (Plus cls_digit)
  (Cat (Chr (is_char "."))
  (Cat (Plus cls_digit)
  (Cat (Opt (Chr cls_space))
       (Chr (is_char "*")))))).

(** Line 103: [[+\-*]]. *)
Definition operator_pattern : regex := Chr cls_operator.

(** Line 104: [[\(\)\s]]. *)
Definition paren_space_pattern : regex := Chr cls_paren_space.

(** Line 111: [^[a-zA-Z0-9_]+$]. *)
Definition bare_name_pattern : regex := Cat Bol (Cat (Plus cls_word) Eol).

(** Line 125: [^[a-zA-Z_][a-zA-Z0-9_]*$]. *)
Definition identifier_pattern : regex :=
  Cat Bol (Cat (Chr cls_ident_start) (Cat (Star cls_word) Eol)).

(** ** Index Extractor (lines 28 to 33)

    [str.extract(pattern)] gives, for one parameter name, the four groups of
    the leftmost match, or four missing values when the pattern matches
    nowhere.  Lines 32 and 33 convert the two index groups with
    [astype(int)], which raises on a missing value. *)

Record extracted : Type := mkExtracted {
  e_chain : option str;
  e_variable : option str;
  e_x : option str;
  e_y : option str
}.

Definition str_extract (name : str) : extracted :=
  match re_search index_pattern name with
  | Some (_, caps) =>
      mkExtracted (group 1 caps) (group 2 caps) (group 3 caps) (group 4 caps)
  | None => mkExtracted None None None None
  end.

Definition nan_to_int : exn :=
  ValueError (lit "cannot convert float NaN to integer") [].

(** The largest value of the 64-bit integers [astype(int)] converts to. *)
Definition int64_max : Z := 2 ^ 63 - 1.

Definition int_too_large : exn :=
  OverflowError (lit "Python int too large to convert to C long").

(** [astype(int)] on one extracted cell: a missing value and a numeral
    beyond the 64-bit integers raise. *)
Definition astype_int (cell : option str) : result Z :=
  match cell with
  | None => Raise nan_to_int
  | Some s =>
      match py_int s with
      | Some z => if z <=? int64_max then Ok z else Raise int_too_large
      | None => Raise (ValueError (lit "invalid literal for int() with base 10") [s])
      end
  end.

(** The Index Extractor on one name: the variable and the two integer
    indices, or the conversion error of an unparsed name. *)
Definition index_extract (name : str) : result (option str * Z * Z) :=
  let e := str_extract name in
  (x <- astype_int (e_x e) ;;
   y <- astype_int (e_y e) ;;
   Ok (e_variable e, x, y))%py.

(** The text [[r,c]] that follows the variable in a parameter name. *)
Definition index_suffix (r c : Z) : str :=
  lit "[" ++ py_str r ++ lit "," ++ py_str c ++ lit "]".

(** The parameter name [v[r,c]] of the inference engine. *)
Definition param_name (v : str) (r c : Z) : str := v ++ index_suffix r c.

(** ** Tables *)

(** A cell of a data frame.  Floating-point numbers are represented by
    rationals; no statement below depends on rounding. *)
Inductive cell : Type :=
| CInt (z : Z)
| CNum (q : Q)
| CStr (s : str)
| CNaN.

Definition Q_eqb (p q : Q) : bool :=
  (Qnum p =? Qnum q) && (Pos.eqb (Qden p) (Qden q)).

Definition cell_eqb (a b : cell) : bool :=
  match a, b with
  | CInt x, CInt y => x =? y
  | CNum p, CNum q => Q_eqb p q
  | CStr s, CStr t => str_eqb s t
  | _, _ => false
  end.

(** A data frame with the default positional index: ordered column labels
    and rows of cells. *)
Record frame : Type := mkFrame {
  columns : list str;
  rows : list (list cell)
}.

(** ** The fit object of the inference engine *)

(** The table [fit.draws_pd(...)] returns: the three identifier columns of
    each draw, and one column of values per selected parameter name, aligned
    with the identifiers. *)
Record draws_frame : Type := mkDraws {
  draw_ids : list (Z * Z * Z);            (* chain__, iter__, draw__ *)
  draw_columns : list (str * list Q)
}.

(** The table [fit.summary(probs)] returns, indexed by parameter name. *)
Record summary_frame : Type := mkSummary {
  index_name : option str;
  index : list str;
  summary_data : frame
}.

Record fit : Type := mkFit {
  stan_variables : list str;
  draws_pd : list str -> draws_frame;
  summary : list Z -> summary_frame
}.

(** ** Draw records *)

(** A record of the long table after index extraction. *)
Record draw_record : Type := mkRecord {
  chain__ : Z;
  iter__ : Z;
  draw__ : Z;
  variable : option str;     (* [None] is a missing value *)
  row_x : Z;
  row_y : Z;
  value : Q
}.

(** The result of the draw reshaper: the labels given to the two index
    columns and the records. *)
Record draw_table : Type := mkTable {
  x_label : str;
  y_label : str;
  records : list draw_record
}.

(** [melt]: one row per selected column and draw, column by column. *)
Definition melt (df : draws_frame) (value_vars : list str)
    : list (Z * Z * Z * str * Q) :=
  flat_map
    (fun col : str * list Q =>
       if mem_str (fst col) value_vars
       then map (fun iv : (Z * Z * Z) * Q => (fst iv, fst col, snd iv))
                (combine (draw_ids df) (snd col))
       else [])
    (draw_columns df).

(** ** Stable sorting and grouping *)

Section Sorting.
Context {A : Type}.
Variable leb : A -> A -> bool.

Fixpoint insert_sorted (a : A) (l : list A) : list A :=
  match l with
  | [] => [a]
  | b :: l' => if leb a b then a :: l else b :: insert_sorted a l'
  end.

(** A stable sort: an element is placed before the first element that is
    not smaller, so equal elements keep their order. *)
Fixpoint stable_sort (l : list A) : list A :=
  match l with
  | [] => []
  | a :: l' => insert_sorted a (stable_sort l')
  end.
End Sorting.

(** Order of [variable] values in [sort_values]: strings by code points,
    missing values last. *)
Definition variable_leb (a b : option str) : bool :=
  match a, b with
  | Some s, Some t => str_leb s t
  | Some _, None => true
  | None, Some _ => false
  | None, None => true
  end.

Definition variable_eqb (a b : option str) : bool :=
  match a, b with
  | Some s, Some t => str_eqb s t
  | None, None => true
  | _, _ => false
  end.

(** Lexicographic order on [(variable, x, y, chain__)] (line 36). *)
Definition sort_key_leb (a b : draw_record) : bool :=
  if negb (variable_eqb (variable a) (variable b))
  then variable_leb (variable a) (variable b)
  else if negb (row_x a =? row_x b) then row_x a <? row_x b
  else if negb (row_y a =? row_y b) then row_y a <? row_y b
  else chain__ a <=? chain__ b.

Definition group_key : Type := option str * Z * Z.

Definition key_of (r : draw_record) : group_key := (variable r, row_x r, row_y r).

Definition key_eqb (a b : group_key) : bool :=
  let '(va, xa, ya) := a in
  let '(vb, xb, yb) := b in
  variable_eqb va vb && (xa =? xb) && (ya =? yb).

Definition key_leb (a b : group_key) : bool :=
  let '(va, xa, ya) := a in
  let '(vb, xb, yb) := b in
  if negb (variable_eqb va vb) then variable_leb va vb
  else if negb (xa =? xb) then xa <? xb
  else ya <=? yb.

Definition in_group (k : group_key) (r : draw_record) : bool :=
  key_eqb (key_of r) k.

Fixpoint dedup_keys (l : list group_key) : list group_key :=
  match l with
  | [] => []
  | k :: l' => k :: filter (fun k' => negb (key_eqb k' k)) (dedup_keys l')
  end.

(** The group keys of [groupby(['variable', x, y])]: distinct, ascending;
    rows whose key has a missing value belong to no group. *)
Definition group_keys (l : list draw_record) : list group_key :=
  stable_sort key_leb
    (dedup_keys
       (filter (fun k : group_key =>
                  match k with (None, _, _) => false | _ => true end)
               (map key_of l))).

Definition set_draw (r : draw_record) (d : Z) : draw_record :=
  mkRecord (chain__ r) (iter__ r) d (variable r) (row_x r) (row_y r) (value r).

(** [df.assign(draw__=range(1, len(df) + 1))]. *)
Definition assign_draw (g : list draw_record) : list draw_record :=
  map (fun rd : draw_record * nat => set_draw (fst rd) (Z.of_nat (snd rd)))
      (combine g (seq 1 (length g))).

(** [groupby(...).apply(f).reset_index(drop=True)]: the groups in key order,
    each transformed by [f]. *)
Definition groupby_apply (f : list draw_record -> list draw_record)
    (l : list draw_record) : list draw_record :=
  flat_map (fun k => f (filter (in_group k) l)) (group_keys l).

(** ** Draw Reshaper: [draws_to_tibble_x_y] (lines 16 to 43)

    [x] and [y] are the labels given to the two index columns; every call of
    the module passes ["C"] and ["M"].  They are column names of the long
    table: the records below describe that table when the two labels name
    new columns.  The parameter [number_of_draws] of the source is not read
    by its body and is left out. *)

(** The columns of the long table that are not [x] and [y]: those of the
    melt of line 25 and the two line 29 adds for groups 1 and 2. *)
Definition long_table_labels : list str :=
  [lit "chain__"; lit "iter__"; lit "draw__"; lit "parameter"; lit "value";
   lit "chain"; lit "variable"].

(** Labels that name two new columns of the long table. *)
Definition fresh_labels (x y : str) : bool :=
  negb (str_eqb x y)
  && negb (mem_str x long_table_labels)
  && negb (mem_str y long_table_labels).

(** A row of the long table with its variable and its two indices. *)
Definition long_record (r : Z * Z * Z * str * Q) (variable : option str)
    (x y : Z) : draw_record :=
  let '(chain, iter, draw, _, v) := r in
  mkRecord chain iter draw variable x y v.

Section Engines.
(** [re.search(pattern, s) is not None] for a pattern supplied by the
    caller; it raises on an ill-formed pattern.  The patterns written in
    the source are the [regex] values above. *)
Variable re_search_user : str -> str -> result bool.

(** Lines 36 to 41 for labels that are not fresh.  Line 29 then writes an
    index into a column the long table already has ([x = 'value'] replaces
    the draws, [x = 'draw__'] is replaced by the renumbering of line 37,
    [x = 'variable'] leaves two columns of that name at line 41), or both
    indices into one column.  What the tabular engine makes of that table,
    a table or an exception, is not described here: it is this parameter,
    given the converted rows and the three arguments. *)
Variable reshape_overwritten :
  list draw_record -> str -> str -> str -> result draw_table.

(** Line 22: the draws the reshaper asks the engine for. *)
Definition requested_draws (f : fit) : draws_frame :=
  draws_pd f [lit "beta"; lit "chain__"; lit "iter__"; lit "draw__"].

(** Lines 19 to 33: the long table with its indices extracted.  The names
    matching the pattern are computed at line 19 and not used afterwards.
    Line 29 assigns the four groups to the columns [chain], [variable], [x]
    and [y] one after the other, so the column [x] holds group 3 unless [y]
    is the same label, which then holds group 4.  Line 32 converts the
    whole column [x], then line 33 the whole column [y].  On fresh labels
    the records are the rows of the long table; on other labels they are
    what lines 29 to 33 computed for each row, the table itself having lost
    the column that was overwritten. *)
Definition extracted_draws (f : fit) (par x y : str) : result (list draw_record) :=
  (par_names <- filterM (re_search_user par) (stan_variables f) ;;
   let draws_df := requested_draws f in
   let draws_long :=
     melt draws_df
          (filter (contains (lit "beta")) (map fst (draw_columns draws_df))) in
   let groups :=
     map (fun r : Z * Z * Z * str * Q => str_extract (snd (fst r))) draws_long in
   xs <- mapM (fun e => astype_int (if str_eqb x y then e_y e else e_x e)) groups ;;
   ys <- mapM (fun e => astype_int (e_y e)) groups ;;
   Ok (map (fun row : Z * Z * Z * str * Q * extracted * Z * Z =>
              let '(r, e, vx, vy) := row in
              long_record r (e_variable e) vx vy)
           (combine (combine (combine draws_long groups) xs) ys)))%py.

(** Lines 16 to 43.  On fresh labels, lines 36 to 41 are the sort, the
    renumbering within each group and the selection of the rows of [par];
    the table returned carries the two labels. *)
Definition draws_to_tibble_x_y (f : fit) (par x y : str) : result draw_table :=
  (draws_long <- extracted_draws f par x y ;;
   if fresh_labels x y
   then
     let draws_long := stable_sort sort_key_leb draws_long in
     let draws_long := groupby_apply assign_draw draws_long in
     let draws_long :=
       filter (fun r => variable_eqb (variable r) (Some par)) draws_long in
     Ok (mkTable x y draws_long)
   else reshape_overwritten draws_long par x y)%py.

(** ** Operations on data frames *)

Fixpoint index_of (name : str) (cols : list str) : option nat :=
  match cols with
  | [] => None
  | c :: cols' =>
      if str_eqb name c then Some O
      else match index_of name cols' with
           | Some n => Some (S n)
           | None => None
           end
  end.

Definition cell_at (name : str) (cols : list str) (row : list cell) : cell :=
  match index_of name cols with
  | Some n => nth n row CNaN
  | None => CNaN
  end.

(** [df[names]]: a [KeyError] naming every label that is not a column. *)
Definition select_columns (names : list str) (f : frame) : result frame :=
  match filter (fun n => negb (mem_str n (columns f))) names with
  | [] =>
      Ok (mkFrame names
            (map (fun row => map (fun n => cell_at n (columns f) row) names)
                 (rows f)))
  | missing => Raise (KeyError missing)
  end.

Fixpoint drop_positions {X : Type} (keep : list bool) (l : list X) : list X :=
  match keep, l with
  | b :: keep', a :: l' =>
      if b then a :: drop_positions keep' l' else drop_positions keep' l'
  | _, _ => []
  end.

(** [df.drop(columns=names, errors='ignore')]. *)
Definition drop_columns (names : list str) (f : frame) : frame :=
  let keep := map (fun c => negb (mem_str c names)) (columns f) in
  mkFrame (drop_positions keep (columns f))
          (map (drop_positions keep) (rows f)).

Fixpoint replace_nth {X : Type} (n : nat) (a : X) (l : list X) : list X :=
  match l, n with
  | [], _ => []
  | _ :: l', O => a :: l'
  | b :: l', S n' => b :: replace_nth n' a l'
  end.

(** [df[name] = vals]: an existing column is overwritten in place, a new
    one is appended. *)
Definition set_column (name : str) (vals : list cell) (f : frame) : frame :=
  match index_of name (columns f) with
  | Some n =>
      mkFrame (columns f)
        (map (fun rv : list cell * nat =>
                replace_nth n (nth (snd rv) vals CNaN) (fst rv))
             (combine (rows f) (seq 0 (length (rows f)))))
  | None =>
      mkFrame (columns f ++ [name])
        (map (fun rv : list cell * nat =>
                fst rv ++ [nth (snd rv) vals CNaN])
             (combine (rows f) (seq 0 (length (rows f)))))
  end.

(** [df[name] = c] for a scalar [c]. *)
Definition set_column_const (name : str) (c : cell) (f : frame) : frame :=
  set_column name (map (fun _ => c) (rows f)) f.

(** [df.rename(columns={old: new})]. *)
Definition rename_column (old new : str) (f : frame) : frame :=
  mkFrame (map (fun c => if str_eqb c old then new else c) (columns f)) (rows f).

(** ** Summary Reshaper: [summary_to_tibble] (lines 45 to 86) *)

Definition truthy (y : option str) : bool :=
  match y with
  | Some (_ :: _) => true
  | _ => false
  end.

(** Lines 66 to 72. *)
Definition split_variable_name (y : option str) (var_name : str) : list str :=
  let parts := re_split split_name_pattern var_name in
  let parts := filter (fun p => negb (str_eqb p [])) parts in
  if truthy y then firstn 3 parts else firstn 2 parts.

(** [summary.loc[summary.index.str.contains(par)]]. *)
Definition filter_index (par : str) (s : summary_frame)
    : result (list (str * list cell)) :=
  filterM (fun nr : str * list cell => re_search_user par (fst nr))
          (combine (index s) (rows (summary_data s))).

(** [reset_index()]: the index becomes the first column, labelled by the
    index name, or [index] for an unnamed index. *)
Definition reset_index_label (name : option str) (cols : list str) : str :=
  match name with
  | Some n => n
  | None => if mem_str (lit "index") cols then lit "level_0" else lit "index"
  end.

Definition reset_index (name : option str) (cols : list str)
    (named_rows : list (str * list cell)) : result frame :=
  let label := reset_index_label name cols in
  if mem_str label cols
  then Raise (ValueError (lit "cannot insert, already exists") [label])
  else Ok (mkFrame (label :: cols)
             (map (fun nr : str * list cell => CStr (fst nr) :: snd nr) named_rows)).

Definition pad_row (width : nat) (l : list str) : list cell :=
  map CStr l ++ repeat CNaN (width - length l).

(** [pd.DataFrame(lists, columns=cols)]: the lists are padded to the
    longest; their width must be the number of labels. *)
Definition frame_of_lists (lists : list (list str)) (cols : list str)
    : result frame :=
  match lists with
  | [] => Ok (mkFrame cols [])
  | _ =>
      let width := fold_right Nat.max O (map (@length str) lists) in
      if (width =? length cols)%nat
      then Ok (mkFrame cols (map (pad_row width) lists))
      else Raise (ValueError (lit "columns passed, passed data had other columns") cols)
  end.

(** [pd.concat([a, b], axis=1)] of two frames with the same positional
    index. *)
Definition concat_columns (a b : frame) : frame :=
  mkFrame (columns a ++ columns b)
          (map (fun ab : list cell * list cell => fst ab ++ snd ab)
               (combine (rows a) (rows b))).

Definition prob_cols (probs : list Z) : list str :=
  map (fun p => py_str p ++ lit "%") probs.

Definition column_values (name : str) (f : frame) : result (list cell) :=
  if mem_str name (columns f)
  then Ok (map (cell_at name (columns f)) (rows f))
  else Raise (KeyError [name]).

Definition cell_text (c : cell) : str :=
  match c with
  | CStr s => s
  | _ => []
  end.

Definition summary_to_tibble (f : fit) (par x : str) (y : option str)
    (probs : list Z) : result frame :=
  (let summary := summary f probs in
   filtered <- filter_index par summary ;;
   let columns_to_keep :=
     [lit "Mean"] ++ prob_cols probs ++ [lit "N_Eff"; lit "R_hat"] in
   kept <- select_columns columns_to_keep
             (mkFrame (columns (summary_data summary)) (map snd filtered)) ;;
   filtered_summary <-
     reset_index (index_name summary) (columns kept)
                 (combine (map fst filtered) (rows kept)) ;;
   let filtered_summary :=
     rename_column (lit "index") (lit "variable") filtered_summary in
   names <- column_values (lit "variable") filtered_summary ;;
   let split_cols := map (fun c => split_variable_name y (cell_text c)) names in
   split_df <-
     frame_of_lists split_cols
       ([lit "variable"; x] ++
        (if truthy y then match y with Some l => [l] | None => [] end else [])) ;;
   let filtered_summary :=
     concat_columns split_df (drop_columns [lit "variable"] filtered_summary) in
   let filtered_summary :=
     if negb (mem_str (lit "N_Eff") (columns filtered_summary))
     then set_column_const (lit "N_Eff") CNaN filtered_summary
     else filtered_summary in
   let filtered_summary :=
     if negb (mem_str (lit "R_hat") (columns filtered_summary))
     then set_column_const (lit "R_hat") CNaN filtered_summary
     else filtered_summary in
   Ok filtered_summary)%py.

(** ** Objects and output

    Data frames passed between functions are objects: the state maps each
    reference to the frame it currently holds, so that an assignment
    through one reference is seen through every other reference to the
    same object.  [print] appends to [stdout]. *)

Definition loc := nat.

Inductive message : Type :=
| WarnBackquotes (items : list str)
| WarnFormula (formula : str) (e : exn).

Record pystate : Type := mkState {
  heap : loc -> frame;
  next : loc;
  stdout : list message
}.

(** A computation returns a value or raises, and leaves a state in both
    cases. *)
Definition Run (A : Type) : Type := pystate -> result A * pystate.

Definition ret {A : Type} (a : A) : Run A := fun st => (Ok a, st).

Definition raise {A : Type} (e : exn) : Run A := fun st => (Raise e, st).

Definition bindM {A B : Type} (m : Run A) (k : A -> Run B) : Run B :=
  fun st =>
    match m st with
    | (Ok a, st') => k a st'
    | (Raise e, st') => (Raise e, st')
    end.

Definition lift {A : Type} (r : result A) : Run A := fun st => (r, st).

Definition heap_set (l : loc) (f : frame) (st : pystate) : pystate :=
  mkState (fun l' => if (l' =? l)%nat then f else heap st l') (next st) (stdout st).

Definition print (m : message) (st : pystate) : pystate :=
  mkState (heap st) (next st) (stdout st ++ [m]).

(** A new object holding [f]. *)
Definition alloc (f : frame) : Run loc :=
  fun st =>
    (Ok (next st),
     mkState (fun l' => if (l' =? next st)%nat then f else heap st l')
             (S (next st)) (stdout st)).

(** ** Contrast Evaluator: [mutate_from_expr_list] (lines 90 to 149) *)

(** [df.eval(formula)] of the tabular engine: the values of the expression,
    one per row, or an exception. *)
Variable df_eval : frame -> str -> result (list cell).

(** The second argument: a dict of new column name to formula, in
    insertion order, or a list of formulas. *)
Inductive formulas : Type :=
| FDict (items : list (str * str))
| FList (names : list str).

Fixpoint dict_of_names (names : list str) : list (str * str) :=
  match names with
  | [] => []
  | k :: names' =>
      (k, k) :: filter (fun kv : str * str => negb (str_eqb (fst kv) k))
                       (dict_of_names names')
  end.

(** Lines 93 and 94: anything but a non-empty dict becomes [{k: k}]. *)
Definition normalise (formula_expr : formulas) : list (str * str) :=
  match formula_expr with
  | FDict [] => []
  | FDict items => items
  | FList names => dict_of_names names
  end.

(** Lines 100 to 105. *)
Definition clean_contrast_elements (expr : str) : list str :=
  let expr := re_sub_delete fraction_pattern expr in
  let expr := re_sub_delete decimal_pattern expr in
  let elements := re_split operator_pattern expr in
  map (re_sub_delete paren_space_pattern) elements.

(** Lines 110 and 111. *)
Definition requires_backquotes (element : str) : bool :=
  match re_match bare_name_pattern element with
  | Some _ => false
  | None => true
  end.

(** [s.replace(old, new)]: every occurrence, left to right, without
    overlap.  [skip] counts the characters of the current occurrence still
    to pass. *)
Fixpoint replace_scan (old new : str) (skip : nat) (s : str) : str :=
  match s with
  | [] => []
  | c :: s' =>
      match skip with
      | S n => replace_scan old new n s'
      | O =>
          if is_prefix old s
          then new ++ replace_scan old new (length old - 1) s'
          else c :: replace_scan old new O s'
      end
  end.

Definition str_replace (old new s : str) : str :=
  match old with
  | [] => new ++ flat_map (fun c => c :: new) s
  | _ => replace_scan old new O s
  end.

(** Lines 123 to 128. *)
Definition escape_column_names (formula : str) (cols : list str) : str :=
  fold_left
    (fun formula col =>
       match re_match identifier_pattern col with
       | Some _ => formula
       | None => str_replace col (lit "`" ++ col ++ lit "`") formula
       end)
    cols formula.

(** Lines 131 to 140.  The assignment [df[column_name] = ...] writes into
    the object [df] refers to. *)
Definition mutate_with_formula (parameter_names : list str)
    (ignore_errors : bool) (df : loc) (column_name formula : str) : Run loc :=
  fun st =>
    let formula := escape_column_names formula parameter_names in
    match df_eval (heap st df) formula with
    | Ok vals =>
        (Ok df, heap_set df (set_column column_name vals (heap st df)) st)
    | Raise e =>
        if negb ignore_errors then (Raise e, st)
        else (Ok df, print (WarnFormula formula e) st)
    end.

(** Lines 142 and 143. *)
Fixpoint mutate_loop (parameter_names : list str) (ignore_errors : bool)
    (items : list (str * str)) (x : loc) : Run loc :=
  match items with
  | [] => ret x
  | (new_col, formula) :: items' =>
      bindM (mutate_with_formula parameter_names ignore_errors x new_col formula)
            (fun x' => mutate_loop parameter_names ignore_errors items' x')
  end.

Definition not_present : str :=
  lit "These contrasts are not present in the DataFrame: ".

Definition nonempty {X : Type} (l : list X) : bool :=
  match l with
  | [] => false
  | _ => true
  end.

(** Lines 97 and 107: the identifiers the formulas refer to. *)
Definition contrast_elements (formula_expr : list (str * str)) : list str :=
  flat_map (fun kv : str * str => clean_contrast_elements (snd kv)) formula_expr.

(** Line 118. *)
Definition missing_contrasts (parameter_names : list str)
    (formula_expr : list (str * str)) : list str :=
  filter (fun e => negb (mem_str e parameter_names))
         (contrast_elements formula_expr).

(** Lines 113 to 115. *)
Definition warn_backquotes (parameter_names : list str)
    (formula_expr : list (str * str)) : Run unit :=
  fun st =>
    let invalid_contrasts :=
      filter (fun e => requires_backquotes e && negb (mem_str e parameter_names))
             (contrast_elements formula_expr) in
    (Ok tt,
     if nonempty invalid_contrasts
     then print (WarnBackquotes invalid_contrasts) st
     else st).

Definition mutate_from_expr_list (x : loc) (formula_expr : formulas)
    (ignore_errors : bool) : Run loc :=
  fun st =>
    let formula_expr := normalise formula_expr in
    let parameter_names := columns (heap st x) in
    bindM (warn_backquotes parameter_names formula_expr)
      (fun _ =>
         let missing := missing_contrasts parameter_names formula_expr in
         if nonempty missing && negb ignore_errors
         then raise (ValueError not_present missing)
         else mutate_loop parameter_names ignore_errors formula_expr x)
      st.

(** ** Frame operations of the orchestrator *)

(** The draw table as a data frame, columns in the order of line 40. *)
Definition to_frame (t : draw_table) : frame :=
  mkFrame
    [lit "chain__"; lit "iter__"; lit "draw__"; lit "variable";
     x_label t; y_label t; lit "value"]
    (map (fun r =>
            [CInt (chain__ r); CInt (iter__ r); CInt (draw__ r);
             match variable r with Some v => CStr v | None => CNaN end;
             CInt (row_x r); CInt (row_y r); CNum (value r)])
         (records t)).

(** Order of the cells of one column: numbers by value, strings by code
    points, missing values last. *)
Definition cell_leb (a b : cell) : bool :=
  match a, b with
  | _, CNaN => true
  | CNaN, _ => false
  | CInt x, CInt y => x <=? y
  | CInt x, CNum q => Qle_bool (inject_Z x) q
  | CNum p, CInt y => Qle_bool p (inject_Z y)
  | CNum p, CNum q => Qle_bool p q
  | CStr s, CStr t => str_leb s t
  | CStr _, _ => false
  | _, CStr _ => true
  end.

(** Equality of labels and keys; two missing values are the same key. *)
Definition cell_same (a b : cell) : bool :=
  match a, b with
  | CNaN, CNaN => true
  | _, _ => cell_eqb a b
  end.

Fixpoint cells_same (a b : list cell) : bool :=
  match a, b with
  | [], [] => true
  | x :: a', y :: b' => cell_same x y && cells_same a' b'
  | _, _ => false
  end.

Fixpoint cells_leb (a b : list cell) : bool :=
  match a, b with
  | [], _ => true
  | _ :: _, [] => false
  | x :: a', y :: b' =>
      if cell_same x y then cells_leb a' b' else cell_leb x y
  end.

Fixpoint dedup {X : Type} (same : X -> X -> bool) (l : list X) : list X :=
  match l with
  | [] => []
  | a :: l' => a :: filter (fun b => negb (same b a)) (dedup same l')
  end.

Fixpoint has_duplicates {X : Type} (same : X -> X -> bool) (l : list X) : bool :=
  match l with
  | [] => false
  | a :: l' => existsb (same a) l' || has_duplicates same l'
  end.

Definition missing_labels (names : list str) (f : frame) : list str :=
  filter (fun n => negb (mem_str n (columns f))) names.

(** A pivoted frame: a multi-level index and one column per distinct value
    of the pivot column. *)
Record pivoted : Type := mkPivoted {
  p_index_names : list str;
  p_index : list (list cell);
  p_columns : list cell;
  p_data : list (list cell)
}.

(** The same after its columns were given string labels. *)
Record wide : Type := mkWide {
  w_index_names : list str;
  w_index : list (list cell);
  w_frame : frame
}.

Definition duplicate_entries : exn :=
  ValueError (lit "Index contains duplicate entries, cannot reshape") [].

(** [df.pivot(index=..., columns=..., values=...)]. *)
Definition pivot (idx : list str) (col val : str) (f : frame) : result pivoted :=
  match missing_labels (idx ++ [col; val]) f with
  | (_ :: _) as missing => Raise (KeyError missing)
  | [] =>
      let entry row :=
        (map (fun n => cell_at n (columns f) row) idx,
         cell_at col (columns f) row,
         cell_at val (columns f) row) in
      let entries := map entry (rows f) in
      let same_slot (a b : list cell * cell * cell) :=
        cells_same (fst (fst a)) (fst (fst b)) && cell_same (snd (fst a)) (snd (fst b)) in
      if has_duplicates same_slot entries then Raise duplicate_entries
      else
        let keys :=
          stable_sort cells_leb (dedup cells_same (map (fun e => fst (fst e)) entries)) in
        let cols :=
          stable_sort cell_leb (dedup cell_same (map (fun e => snd (fst e)) entries)) in
        let lookup k c :=
          match filter (fun e => same_slot e (k, c, CNaN)) entries with
          | e :: _ => snd e
          | [] => CNaN
          end in
        Ok (mkPivoted idx keys cols (map (fun k => map (lookup k) cols) keys))
  end.

(** [df.columns = labels]. *)
Definition set_labels (labels : list str) (p : pivoted) : result wide :=
  if (length labels =? length (p_columns p))%nat
  then Ok (mkWide (p_index_names p) (p_index p) (mkFrame labels (p_data p)))
  else Raise (ValueError (lit "Length mismatch") labels).

(** [df.reset_index()] of a frame with a multi-level index. *)
Definition reset_wide_index (w : wide) : result frame :=
  match filter (fun n => mem_str n (columns (w_frame w))) (w_index_names w) with
  | (_ :: _) as clash => Raise (ValueError (lit "cannot insert, already exists") clash)
  | [] =>
      Ok (mkFrame (w_index_names w ++ columns (w_frame w))
            (map (fun kr : list cell * list cell => fst kr ++ snd kr)
                 (combine (w_index w) (rows (w_frame w)))))
  end.

(** Sum of numeric cells; missing values are skipped. *)
Definition cell_add (a b : cell) : cell :=
  match a, b with
  | CInt x, CInt y => CInt (x + y)
  | CInt x, CNum q => CNum (inject_Z x + q)
  | CNum p, CInt y => CNum (p + inject_Z y)
  | CNum p, CNum q => CNum (p + q)
  | CNaN, c => c
  | c, _ => c
  end.

Definition cell_neg (a : cell) : cell :=
  match a with
  | CInt x => CInt (- x)
  | CNum q => CNum (- q)
  | c => c
  end.

Definition has_nan (k : list cell) : bool :=
  existsb (fun c => match c with CNaN => true | _ => false end) k.

(** [df.groupby(keys)[val].sum().reset_index()]. *)
Definition groupby_sum (keys : list str) (val : str) (f : frame) : result frame :=
  match missing_labels keys f with
  | (_ :: _) as missing => Raise (KeyError missing)
  | [] =>
      if negb (mem_str val (columns f)) then Raise (KeyError [val])
      else
        let key row := map (fun n => cell_at n (columns f) row) keys in
        let groups :=
          stable_sort cells_leb
            (dedup cells_same
               (filter (fun k => negb (has_nan k)) (map key (rows f)))) in
        Ok (mkFrame (keys ++ [val])
              (map (fun k =>
                      k ++ [fold_left cell_add
                              (map (cell_at val (columns f))
                                   (filter (fun row => cells_same (key row) k) (rows f)))
                              (CNum 0)])
                   groups))
  end.

(** [df[name] = -df[name]]. *)
Definition negate_column (name : str) (f : frame) : result frame :=
  (vals <- column_values name f ;;
   Ok (set_column name (map cell_neg vals) f))%py.

(** [df[name].max() + 1]. *)
Definition column_max_plus_one (name : str) (f : frame) : result cell :=
  (vals <- column_values name f ;;
   Ok (match vals with
       | [] => CNaN
       | v :: vs =>
           cell_add (fold_left (fun m c => if cell_leb c m then m else c) vs v)
                    (CInt 1)
       end))%py.

(** [pd.concat([a, b])]: the rows of both, over the union of the columns. *)
Definition concat_rows (a b : frame) : frame :=
  let cols := columns a ++ filter (fun c => negb (mem_str c (columns a))) (columns b) in
  mkFrame cols
    (map (fun row => map (fun c => cell_at c (columns a) row) cols) (rows a) ++
     map (fun row => map (fun c => cell_at c (columns b) row) cols) (rows b)).

(** [df.drop_duplicates()]. *)
Definition drop_duplicates (f : frame) : frame :=
  mkFrame (columns f) (dedup cells_same (rows f)).

(** ** Orchestrator: [get_abundance_contrast_draws] (lines 151 to 225) *)

(** The index-on-index left merge of lines 186 and 202,
    [draws.merge(right, left_index=True, right_index=True, how='left')],
    as the tabular engine performs it on a frame with the positional index
    and a pivoted frame. *)
Variable merge_on_index : frame -> wide -> result frame.

Record model_input : Type := mkModelInput {
  X : option (list str);                   (* X.columns *)
  X_random_effect : option (list str);
  X_random_effect_2 : option (list str);
  n_random_eff : option Z
}.

Record data : Type := mkData {
  cell_group : option str;
  data_model_input : option model_input;
  data_fit : option fit
}.

(** The names the function body reads without binding them.  The module
    binds neither. *)
Record globals : Type := mkGlobals {
  g_TRUE : option bool;
  g_y : option (option (list str))         (* y, None or a frame's columns *)
}.

Definition utilities_globals : globals := mkGlobals None None.

Definition lookup_name {V : Type} (name : string) (binding : option V) : result V :=
  match binding with
  | Some v => Ok v
  | None => Raise (NameError (lit name))
  end.

Definition get_attr {V : Type} (attr : string) (o : option V) : result V :=
  match o with
  | Some v => Ok v
  | None => Raise (AttributeError (lit attr))
  end.

Definition col_C : str := lit "C".
Definition col_M : str := lit "M".
Definition draw_index : list str := [lit "chain__"; lit "iter__"; lit "draw__"].

(** Lines 174 to 186, for the first random-effect group. *)
Definition random_effect_stage (f : fit) (labels : option (list str))
    (draws : frame) : result frame :=
  (let beta_random_effect_factor_of_interest :=
     match labels with Some l => l | None => [] end in
   t <- draws_to_tibble_x_y f (lit "random_effect") col_C col_M ;;
   let beta_random_effect := to_frame t in
   beta_random_effect_sum <-
     groupby_sum [col_C; lit "chain__"; lit "iter__"; lit "draw__"; lit "variable"]
                 (lit ".value") beta_random_effect ;;
   beta_random_effect_sum <- negate_column (lit ".value") beta_random_effect_sum ;;
   m <- column_max_plus_one col_M beta_random_effect ;;
   let beta_random_effect_sum := set_column_const col_M m beta_random_effect_sum in
   let beta_random_effect := concat_rows beta_random_effect beta_random_effect_sum in
   p <- pivot draw_index col_C (lit ".value") beta_random_effect ;;
   w <- set_labels beta_random_effect_factor_of_interest p ;;
   merge_on_index draws w)%py.

(** Lines 190 to 202, for the second random-effect group. *)
Definition random_effect_2_stage (f : fit) (labels : option (list str))
    (draws : frame) : result frame :=
  (let beta_random_effect_factor_of_interest_2 :=
     match labels with Some l => l | None => [] end in
   t <- draws_to_tibble_x_y f (lit "random_effect_2") col_C col_M ;;
   let beta_random_effect_2 := to_frame t in
   beta_random_effect_2_sum <-
     groupby_sum [col_C; lit "chain__"; lit "iter__"; lit "draw__"; lit ".variable"]
                 (lit "value") beta_random_effect_2 ;;
   beta_random_effect_2_sum <- negate_column (lit ".value") beta_random_effect_2_sum ;;
   m <- column_max_plus_one col_M beta_random_effect_2 ;;
   let beta_random_effect_2_sum := set_column_const col_M m beta_random_effect_2_sum in
   let beta_random_effect_2 := concat_rows beta_random_effect_2 beta_random_effect_2_sum in
   p <- pivot draw_index col_C (lit "value") beta_random_effect_2 ;;
   w <- set_labels beta_random_effect_factor_of_interest_2 p ;;
   merge_on_index draws w)%py.

(** Lines 161 to 168: the primary coefficient matrix. *)
Definition primary_matrix (f : option fit) (mi : option model_input)
    : result (fit * frame) :=
  (mi <- get_attr "get" mi ;;
   beta_factor_of_interest <- get_attr "columns" (X mi) ;;
   f <- get_attr "stan_variables" f ;;
   beta <- draws_to_tibble_x_y f (lit "beta") col_C col_M ;;
   p <- pivot (draw_index ++ [lit "variable"; col_M]) col_C (lit "value") (to_frame beta) ;;
   w <- set_labels beta_factor_of_interest p ;;
   beta <- reset_wide_index w ;;
   Ok (f, drop_columns [lit "variable"] beta))%py.

(** [if contrasts:]. *)
Definition truthy_formulas (contrasts : option formulas) : bool :=
  match contrasts with
  | None => false
  | Some (FDict items) => nonempty items
  | Some (FList names) => nonempty names
  end.

Definition no_series_name : exn :=
  ValueError (lit "Cannot merge a Series without a name") [].

(** Lines 211 to 214: the label of each row, looked up by its 1-based row index. *)
Definition attach_cell_names (cell_group : option str) (y_columns : list str)
    (draws : frame) : result frame :=
  match cell_group with
  | None => Raise no_series_name
  | Some name =>
      if negb (mem_str col_M (columns draws)) then Raise (KeyError [col_M])
      else
        let label row :=
          match cell_at col_M (columns draws) row with
          | CInt m =>
              if (1 <=? m) && (m <=? Z.of_nat (length y_columns))
              then CStr (nth (Z.to_nat (m - 1)) y_columns [])
              else CNaN
          | _ => CNaN
          end in
        let clash := mem_str name (columns draws) in
        let merged :=
          mkFrame
            (map (fun c => if clash && str_eqb c name then c ++ lit "_x" else c)
                 (columns draws)
             ++ [if clash then name ++ lit "_y" else name])
            (map (fun row => row ++ [label row]) (rows draws)) in
        select_columns
          (name :: filter (fun c => negb (str_eqb c name)) (columns merged))
          merged
  end.

Definition default_probs : list Z := [5; 25; 50; 75; 95].

(** [model_input.get('n_random_eff', 0)]. *)
Definition get_n_random_eff (mi : option model_input) : Z :=
  match mi with
  | Some mi => match n_random_eff mi with Some n => n | None => 0 end
  | None => 0
  end.

(** Lines 156 to 202: the primary matrix and the random-effect stages. *)
Definition assemble_draws (d : data) : result (fit * frame) :=
  (let model_input := data_model_input d in
   '(f, draws) <- primary_matrix (data_fit d) model_input ;;
   let n_random_eff := get_n_random_eff model_input in
   draws <-
     (if 0 <? n_random_eff
      then random_effect_stage f
             (match model_input with Some mi => X_random_effect mi | None => None end)
             draws
      else Ok draws) ;;
   draws <-
     (if 1 <? n_random_eff
      then random_effect_2_stage f
             (match model_input with Some mi => X_random_effect_2 mi | None => None end)
             draws
      else Ok draws) ;;
   Ok (f, draws))%py.

(** Lines 206 and 207.  The argument [TRUE] is evaluated before the call. *)
Definition apply_contrasts (g : globals) (contrasts : option formulas)
    (draws : frame) : Run frame :=
  match contrasts with
  | Some formula_expr =>
      if truthy_formulas contrasts
      then
        bindM (lift (lookup_name "TRUE" (g_TRUE g))) (fun ignore_errors =>
        bindM (alloc draws) (fun x =>
        bindM (mutate_from_expr_list x formula_expr ignore_errors) (fun x' =>
        fun st => (Ok (heap st x'), st))))
      else ret draws
  | None => ret draws
  end.

(** Lines 210 to 225.  The function ends after the renaming, without a
    [return]: its value is then [None]. *)
Definition attach_and_finish (g : globals) (d : data) (f : fit) (draws : frame)
    : result (option frame) :=
  (y <- lookup_name "y" (g_y g) ;;
   draws <- match y with
            | Some y_columns => attach_cell_names (cell_group d) y_columns draws
            | None => Ok draws
            end ;;
   if (length (columns draws) <=? 5)%nat
   then
     name <- match cell_group d with
             | Some n => Ok n
             | None => Raise (KeyError [lit "None"])
             end ;;
     pairs <- select_columns [name; col_M] draws ;;
     Ok (Some (drop_duplicates pairs))
   else
     convergence_df <- summary_to_tibble f (lit "beta") col_C (Some col_M) default_probs ;;
     let convergence_df :=
       if mem_str (lit "Rhat") (columns convergence_df)
       then rename_column (lit "Rhat") (lit "R_k_hat") convergence_df
       else if mem_str (lit "khat") (columns convergence_df)
       then rename_column (lit "khat") (lit "R_k_hat") convergence_df
       else convergence_df in
     Ok None)%py.

Definition get_abundance_contrast_draws (g : globals) (d : data)
    (contrasts : option formulas) : Run (option frame) :=
  bindM (lift (assemble_draws d)) (fun fd =>
  bindM (apply_contrasts g contrasts (snd fd)) (fun draws =>
  lift (attach_and_finish g d (fst fd) draws))).
End Engines.

(** ** Vocabulary of the statements *)

(** The text [t] does not start with a character of the class [p]. *)
Definition stops (p : ascii -> bool) (t : str) : Prop :=
  match t with
  | [] => True
  | c :: _ => p c = false
  end.

(** The number a list of decimal digits denotes, least significant first. *)
Definition le_value (ds : list Z) : Z := fold_right (fun d acc => d + 10 * acc) 0 ds.

(** A list in ascending order of a boolean comparison. *)
Definition ascending {A : Type} (leb : A -> A -> bool) (l : list A) : Prop :=
  StronglySorted (fun a b => leb a b = true) l.

(** A record without its draw number. *)
Definition erase_draw (r : draw_record) : draw_record := set_draw r 0.

Definition same_chain (ch : Z) (r : draw_record) : bool := chain__ r =? ch.

Definition chain_leb (a b : draw_record) : bool := chain__ a <=? chain__ b.

Definition nondecreasing (l : list Z) : Prop := StronglySorted Z.le l.

(** The chain and the iteration of a record. *)
Definition chain_iter (r : draw_record) : Z * Z := (chain__ r, iter__ r).

(** Ascending [(chain_id, iteration)] order. *)
Definition chain_iter_le (a b : Z * Z) : Prop :=
  fst a < fst b \/ (fst a = fst b /\ snd a <= snd b).

(** ** Concrete engines and inputs used in the examples *)

(** [re.search] for a pattern without metacharacters, such as the names
    [beta] and [random_effect] the orchestrator passes: a substring test. *)
Definition plain_search (pattern s : str) : result bool := Ok (contains pattern s).

(** An evaluation engine that knows bare column names only. *)
Definition column_eval (f : frame) (formula : str) : result (list cell) :=
  if mem_str formula (columns f)
  then Ok (map (cell_at formula (columns f)) (rows f))
  else Raise (EvalError formula).

(** A tabular engine that refuses every long table with overwritten
    columns. *)
Definition refuse_overwritten (rows : list draw_record) (par x y : str)
    : result draw_table :=
  Raise (ValueError (lit "cannot reindex on an axis with duplicate labels") []).

(** A merge primitive that refuses every pair of frames. *)
Definition no_merge (left : frame) (right : wide) : result frame :=
  Raise (ValueError (lit "cannot join with no overlapping index names") []).

Fixpoint before_bracket (s : str) : str :=
  match s with
  | [] => []
  | c :: s' => if is_char "[" c then [] else c :: before_bracket s'
  end.

(** The engine's [draws_pd(vars)]: the columns of the requested variables. *)
Definition engine_draws_pd (all : draws_frame) (vars : list str) : draws_frame :=
  mkDraws (draw_ids all)
    (filter (fun col : str * list Q => mem_str (before_bracket (fst col)) vars)
            (draw_columns all)).

(** Two chains of three draws; [beta] of shape 2 x 2 and one random effect
    with two levels. *)
Definition example_draws : draws_frame :=
  mkDraws
    [(1, 1, 1); (1, 2, 2); (1, 3, 3); (2, 1, 4); (2, 2, 5); (2, 3, 6)]
    [(lit "beta[1,1]", [1#1; 2#1; 3#1; 4#1; 5#1; 6#1]);
     (lit "beta[2,1]", [11#1; 12#1; 13#1; 14#1; 15#1; 16#1]);
     (lit "beta[1,2]", [21#1; 22#1; 23#1; 24#1; 25#1; 26#1]);
     (lit "beta[2,2]", [31#1; 32#1; 33#1; 34#1; 35#1; 36#1]);
     (lit "random_effect[1,1]", [41#1; 42#1; 43#1; 44#1; 45#1; 46#1]);
     (lit "random_effect[1,2]", [51#1; 52#1; 53#1; 54#1; 55#1; 56#1])]%Q.

(** A summary of three parameters, with or without the two diagnostic
    columns. *)
Definition example_summary (diagnostics : bool) (probs : list Z) : summary_frame :=
  let tail := if diagnostics then [CNum (100#1); CNum (1#1)] else [] in
  mkSummary None
    [lit "lp__"; lit "beta[1,1]"; lit "beta[2,1]"]
    (mkFrame
       ([lit "Mean"; lit "StdDev"] ++ prob_cols probs
        ++ (if diagnostics then [lit "N_Eff"; lit "R_hat"] else []))
       [ CNum (7#1) :: CNum (1#1) :: map (fun _ => CNum (7#1)) probs ++ tail;
         CNum (3#1) :: CNum (1#1) :: map (fun _ => CNum (3#1)) probs ++ tail;
         CNum (4#1) :: CNum (1#1) :: map (fun _ => CNum (4#1)) probs ++ tail ]).

Definition example_fit : fit :=
  mkFit [lit "beta"; lit "random_effect"] (engine_draws_pd example_draws)
        (example_summary true).

(** The same fit, summarised by an engine that omits the diagnostics. *)
Definition fit_without_diagnostics : fit :=
  mkFit [lit "beta"; lit "random_effect"] (engine_draws_pd example_draws)
        (example_summary false).

(** A model whose [beta] is a scalar: its draw column is named [beta]. *)
Definition scalar_fit : fit :=
  mkFit [lit "beta"]
        (engine_draws_pd (mkDraws [(1, 1, 1); (1, 2, 2)] [(lit "beta", [1#2; 3#2]%Q)]))
        (example_summary true).

(** One parameter, with the draws of chain 2 listed before those of chain 1. *)
Definition unordered_fit : fit :=
  mkFit [lit "beta"]
        (engine_draws_pd
           (mkDraws [(2, 1, 1); (1, 1, 2); (2, 2, 3); (1, 2, 4)]
                    [(lit "beta[1,1]", [5#1; 6#1; 7#1; 8#1]%Q)]))
        (example_summary true).

Definition unordered_result : draw_table :=
  mkTable (lit "C") (lit "M")
    [mkRecord 1 1 1 (Some (lit "beta")) 1 1 (6#1);
     mkRecord 1 2 2 (Some (lit "beta")) 1 1 (8#1);
     mkRecord 2 1 3 (Some (lit "beta")) 1 1 (5#1);
     mkRecord 2 2 4 (Some (lit "beta")) 1 1 (7#1)].

Definition empty_state : pystate := mkState (fun _ => mkFrame [] []) O [].

(** The model of the example, with [n] random-effect groups declared. *)
Definition example_data (n : Z) : data :=
  mkData (Some (lit "cell_group"))
         (Some (mkModelInput (Some [lit "(Intercept)"; lit "typeB"])
                             (Some [lit "group1"; lit "group2"; lit "group3"])
                             None (Some n)))
         (Some example_fit).

(** A table with the single column [a], held by the object 0. *)
Definition one_column_state : pystate :=
  mkState (fun _ => mkFrame [lit "a"] [[CNum (1#1)]; [CNum (2#1)]]) 1%nat [].

(** A module namespace in which [y] and [TRUE] would be bound. *)
Definition bound_globals : globals :=
  mkGlobals (Some true) (Some (Some [lit "cellA"; lit "cellB"])).

(** ** Further vocabulary and inputs *)

(** A record of the variable [par] (the test of line 41). *)
Definition of_variable (par : str) (r : draw_record) : bool :=
  variable_eqb (variable r) (Some par).

(** The characters line 67 splits a name at. *)
Definition is_name_separator (c : ascii) : bool :=
  is_char "[" c || is_char "]" c || is_char "," c || cls_space c.

(** The characters lines 103 and 104 take out of a formula: operators,
    parentheses and white space. *)
Definition is_formula_punctuation (c : ascii) : bool :=
  cls_operator c || cls_paren_space c.

(** A letter or an underscore, then letters, digits and underscores. *)
Definition is_identifier (s : str) : bool :=
  match s with
  | a :: w => cls_ident_start a && forallb cls_word w
  | [] => false
  end.

(** Line 58: the columns the Summary Reshaper keeps. *)
Definition kept_columns (probs : list Z) : list str :=
  [lit "Mean"] ++ prob_cols probs ++ [lit "N_Eff"; lit "R_hat"].

(** The summary of the example, with its index named as a summary read
    from a file with a header names it. *)
Definition named_summary (probs : list Z) : summary_frame :=
  mkSummary (Some (lit "name")) (index (example_summary true probs))
            (summary_data (example_summary true probs)).

Definition named_index_fit : fit :=
  mkFit [lit "beta"; lit "random_effect"] (engine_draws_pd example_draws)
        named_summary.

(** A model with an intercept only, whose [cell_group] entry names the
    design column, over the fit with the single parameter [beta[1,1]]. *)
Definition intercept_data : data :=
  mkData (Some (lit "(Intercept)"))
         (Some (mkModelInput (Some [lit "(Intercept)"]) None None None))
         (Some unordered_fit).

(** A module namespace in which [y] would be bound to [None]. *)
Definition globals_without_counts : globals := mkGlobals None (Some None).

(** One parameter and one chain, whose draws the fit lists with iteration 2
    before iteration 1. *)
Definition descending_fit : fit :=
  mkFit [lit "beta"]
        (engine_draws_pd
           (mkDraws [(1, 2, 1); (1, 1, 2)] [(lit "beta[1,1]", [5#1; 6#1]%Q)]))
        (example_summary true).

Definition descending_result : draw_table :=
  mkTable (lit "C") (lit "M")
    [mkRecord 1 2 1 (Some (lit "beta")) 1 1 (5#1);
     mkRecord 1 1 2 (Some (lit "beta")) 1 1 (6#1)].

(** A frame whose rows have one cell per column. *)
Definition rectangular (f : frame) : bool :=
  forallb (fun row => (length row =? length (columns f))%nat) (rows f).

(** * Properties *)

(** ** Strings and characters *)

Lemma ascii_eqb_eq (a b : ascii) : ascii_eqb a b = true <-> a = b.
Proof. unfold ascii_eqb. apply Ascii.eqb_eq. Qed.

Lemma str_eqb_eq (s t : str) : str_eqb s t = true <-> s = t.
Proof.
  revert t. induction s as [|a s IH]; intros [|b t]; simpl; split; intro H;
    try reflexivity; try discriminate.
  - apply andb_true_iff in H. destruct H as [Hab Hst].
    apply ascii_eqb_eq in Hab. apply IH in Hst. subst. reflexivity.
  - injection H as -> ->. apply andb_true_iff. split.
    + apply ascii_eqb_eq. reflexivity.
    + apply IH. reflexivity.
Qed.

Lemma str_eqb_refl (s : str) : str_eqb s s = true.
Proof. apply str_eqb_eq. reflexivity. Qed.

Lemma str_eqb_neq (s t : str) : str_eqb s t = false <-> s <> t.
Proof.
  split.
  - intros H E. apply str_eqb_eq in E. congruence.
  - intro H. destruct (str_eqb s t) eqn:E; [|reflexivity].
    apply str_eqb_eq in E. contradiction.
Qed.

Lemma mem_str_In (s : str) (l : list str) : mem_str s l = true <-> In s l.
Proof.
  unfold mem_str. rewrite existsb_exists. split.
  - intros [t [Hin Heq]]. apply str_eqb_eq in Heq. subst. exact Hin.
  - intro Hin. exists s. split; [exact Hin | apply str_eqb_refl].
Qed.

Lemma lit_app (a b : string) : lit (a ++ b)%string = lit a ++ lit b.
Proof.
  unfold lit. induction a as [|c a IH]; simpl; [reflexivity|].
  rewrite IH. reflexivity.
Qed.

(** ** The matcher on a run of class characters *)

(** A greedy run takes every character of the class when the rest of the
    pattern accepts what follows. *)
Lemma star_greedy {R : Type} (p : ascii -> bool) (u t : str)
    (k : str -> option R) (r : R) :
  forallb p u = true -> stops p t -> k t = Some r -> star p (u ++ t) k = Some r.
Proof.
  intros Hu Ht Hk. induction u as [|a u IH]; simpl.
  - destruct t as [|c t']; simpl in *; [exact Hk|]. rewrite Ht. exact Hk.
  - simpl in Hu. apply andb_true_iff in Hu. destruct Hu as [Ha Hu].
    rewrite Ha, (IH Hu). reflexivity.
Qed.

Lemma plus_greedy {R : Type} (whole : nat) (p : ascii -> bool) (a : ascii)
    (u t : str) (caps : captures) (k : str -> captures -> option R) (r : R) :
  forallb p (a :: u) = true -> stops p t -> k t caps = Some r ->
  rmatch whole (Plus p) (a :: u ++ t) caps k = Some r.
Proof.
  intros Hu Ht Hk. simpl in *. apply andb_true_iff in Hu. destruct Hu as [Ha Hu].
  rewrite Ha. apply star_greedy; assumption.
Qed.

Lemma firstn_consumed {X : Type} (u t : list X) :
  firstn (length (u ++ t) - length t) (u ++ t) = u.
Proof.
  rewrite length_app. replace (length u + length t - length t)%nat with (length u) by lia.
  rewrite firstn_app, Nat.sub_diag, firstn_all. simpl. apply app_nil_r.
Qed.

(** A capture group around a greedy run records the run. *)
Lemma group_plus_greedy {R : Type} (whole n : nat) (p : ascii -> bool)
    (u t : str) (caps : captures) (k : str -> captures -> option R) (r : R) :
  u <> [] -> forallb p u = true -> stops p t -> k t ((n, u) :: caps) = Some r ->
  rmatch whole (Grp n (Plus p)) (u ++ t) caps k = Some r.
Proof.
  intros Hne Hu Ht Hk. destruct u as [|a u]; [contradiction|].
  simpl in Hu. apply andb_true_iff in Hu. destruct Hu as [Ha Hu].
  simpl. rewrite Ha. apply star_greedy; [exact Hu | exact Ht |].
  pose proof (firstn_consumed (a :: u) t) as Hf. simpl in Hf. simpl.
  rewrite Hf. exact Hk.
Qed.

(** ** Decimal numerals *)

Lemma digit_char_digit (d : Z) : 0 <= d < 10 -> cls_digit (digit_char d) = true.
Proof.
  intro H. assert (Hc : In d [0;1;2;3;4;5;6;7;8;9]) by (simpl; lia).
  simpl in Hc. repeat (destruct Hc as [<-|Hc]; [reflexivity|]). contradiction.
Qed.

Lemma digit_val_char (d : Z) : 0 <= d < 10 -> digit_val (digit_char d) = Some d.
Proof.
  intro H. assert (Hc : In d [0;1;2;3;4;5;6;7;8;9]) by (simpl; lia).
  simpl in Hc. repeat (destruct Hc as [<-|Hc]; [reflexivity|]). contradiction.
Qed.

Lemma le_digits_range (fuel : nat) (n : Z) :
  0 <= n -> Forall (fun d => 0 <= d < 10) (le_digits fuel n).
Proof.
  revert n. induction fuel as [|f IH]; intros n Hn; simpl; [constructor|].
  constructor.
  - apply Z.mod_pos_bound. lia.
  - destruct (n / 10 =? 0); [constructor|]. apply IH. apply Z.div_pos; lia.
Qed.

Lemma le_digits_value (fuel : nat) (n : Z) :
  0 <= n < 2 ^ Z.of_nat fuel -> le_value (le_digits fuel n) = n.
Proof.
  revert n. induction fuel as [|f IH]; intros n Hn.
  - simpl in *. lia.
  - cbn [le_digits le_value fold_right]. fold (le_value (if n / 10 =? 0 then [] else le_digits f (n / 10))).
    destruct (Z.eqb_spec (n / 10) 0) as [E|E].
    + simpl. pose proof (Z.div_mod n 10). lia.
    + rewrite IH.
      * pose proof (Z.div_mod n 10). lia.
      * split; [apply Z.div_pos; lia|].
        rewrite Nat2Z.inj_succ, Z.pow_succ_r in Hn by lia.
        apply Z.div_lt_upper_bound; lia.
Qed.

Lemma le_digits_nonempty (fuel : nat) (n : Z) : le_digits (S fuel) n <> [].
Proof. simpl. discriminate. Qed.

Lemma int_acc_app (acc : Z) (s t : str) :
  int_acc acc (s ++ t) =
  match int_acc acc s with
  | Some a => int_acc a t
  | None => None
  end.
Proof.
  revert acc. induction s as [|c s IH]; intro acc; simpl; [reflexivity|].
  destruct (digit_val c); [apply IH | reflexivity].
Qed.

Lemma int_acc_rev_digits (ds : list Z) :
  Forall (fun d => 0 <= d < 10) ds ->
  int_acc 0 (rev (map digit_char ds)) = Some (le_value ds).
Proof.
  induction 1 as [|d ds Hd Hds IH]; [reflexivity|].
  cbn [map rev]. rewrite int_acc_app, IH. cbn [int_acc].
  rewrite digit_val_char by exact Hd.
  f_equal. unfold le_value. cbn [fold_right]. lia.
Qed.

Lemma log2_fuel (n : Z) : 0 <= n -> n < 2 ^ Z.of_nat (S (Z.to_nat (Z.log2 n))).
Proof.
  intro Hn. rewrite Nat2Z.inj_succ, Z2Nat.id by apply Z.log2_nonneg.
  destruct (Z.eq_dec n 0) as [->|Hz]; [reflexivity|].
  apply Z.log2_spec. lia.
Qed.

Lemma dec_digits_nonempty (n : Z) : dec_digits n <> [].
Proof.
  unfold dec_digits. intro H. apply (f_equal (@rev ascii)) in H.
  rewrite rev_involutive in H. simpl in H. discriminate.
Qed.

Lemma dec_digits_all_digits (n : Z) : 0 <= n -> forallb cls_digit (dec_digits n) = true.
Proof.
  intro Hn. unfold dec_digits. apply forallb_forall. intros c Hc.
  apply in_rev in Hc. apply in_map_iff in Hc. destruct Hc as [d [<- Hd]].
  apply digit_char_digit.
  pose proof (le_digits_range (S (Z.to_nat (Z.log2 n))) n Hn) as HF.
  rewrite Forall_forall in HF. apply HF. exact Hd.
Qed.

(** [int(str(n)) = n] for a non-negative [n]. *)
Lemma py_int_py_str (n : Z) : 0 <= n -> py_int (py_str n) = Some n.
Proof.
  intro Hn. unfold py_str. destruct (Z.ltb_spec n 0) as [Hlt|_]; [lia|].
  unfold py_int. pose proof (dec_digits_nonempty n) as Hne.
  destruct (dec_digits n) as [|c s] eqn:E; [contradiction|]. rewrite <- E.
  unfold dec_digits. rewrite int_acc_rev_digits by (apply le_digits_range; exact Hn).
  f_equal. apply le_digits_value. split; [exact Hn | apply log2_fuel; exact Hn].
Qed.

Lemma py_str_all_digits (n : Z) : 0 <= n -> forallb cls_digit (py_str n) = true.
Proof.
  intro Hn. unfold py_str. destruct (Z.ltb_spec n 0) as [Hlt|_]; [lia|].
  apply dec_digits_all_digits. exact Hn.
Qed.

Lemma py_str_nonempty (n : Z) : 0 <= n -> py_str n <> [].
Proof.
  intro Hn. unfold py_str. destruct (Z.ltb_spec n 0) as [Hlt|_]; [lia|].
  apply dec_digits_nonempty.
Qed.

(** ** Index Extractor *)

Lemma search_from_hit (whole : nat) (r : regex) (s : str) (x : str * captures) :
  match_at whole r s = Some x -> search_from whole r s = Some x.
Proof. intro H. destruct s; simpl; rewrite H; reflexivity. Qed.

Lemma rmatch_cat {R : Type} (whole : nat) (r1 r2 : regex) (s : str)
    (caps : captures) (k : str -> captures -> option R) :
  rmatch whole (Cat r1 r2) s caps k
  = rmatch whole r1 s caps (fun t c1 => rmatch whole r2 t c1 k).
Proof. reflexivity. Qed.

Lemma rmatch_opt {R : Type} (whole : nat) (r1 : regex) (s : str)
    (caps : captures) (k : str -> captures -> option R) :
  rmatch whole (Opt r1) s caps k
  = match rmatch whole r1 s caps k with
    | Some x => Some x
    | None => k s caps
    end.
Proof. reflexivity. Qed.

Lemma rmatch_chr {R : Type} (whole : nat) (p : ascii -> bool) (a : ascii)
    (s : str) (caps : captures) (k : str -> captures -> option R) :
  rmatch whole (Chr p) (a :: s) caps k = if p a then k s caps else None.
Proof. reflexivity. Qed.

Lemma rmatch_group_plus {R : Type} (whole n : nat) (p : ascii -> bool)
    (a : ascii) (s : str) (caps : captures) (k : str -> captures -> option R) :
  rmatch whole (Grp n (Plus p)) (a :: s) caps k
  = if p a
    then star p s
           (fun t => k t ((n, firstn (length (a :: s) - length t) (a :: s)) :: caps))
    else None.
Proof. reflexivity. Qed.

Lemma rmatch_group_plus_miss {R : Type} (whole n : nat) (p : ascii -> bool)
    (a : ascii) (s : str) (caps : captures) (k : str -> captures -> option R) :
  p a = false -> rmatch whole (Grp n (Plus p)) (a :: s) caps k = None.
Proof. intro H. rewrite rmatch_group_plus, H. reflexivity. Qed.

Lemma star_stop {R : Type} (p : ascii -> bool) (t : str) (k : str -> option R) :
  stops p t -> star p t k = k t.
Proof. destruct t as [|c t]; simpl; [reflexivity|]. intros ->. reflexivity. Qed.

Lemma digit19_not_dot (a : ascii) : cls_digit19 a = true -> is_char "." a = false.
Proof.
  intro H. destruct (is_char "." a) eqn:E; [|reflexivity].
  apply ascii_eqb_eq in E. subst a. discriminate.
Qed.

Section IndexPattern.
Variable whole : nat.
Variables r c : Z.
Hypothesis r_nonneg : 0 <= r.
Hypothesis c_nonneg : 0 <= c.

Lemma match_col_index (caps : captures) :
  rmatch whole (Grp 4 (Plus cls_digit)) (py_str c ++ lit "]") caps accept
  = Some (lit "]", (4%nat, py_str c) :: caps).
Proof.
  apply group_plus_greedy.
  - apply py_str_nonempty. exact c_nonneg.
  - apply py_str_all_digits. exact c_nonneg.
  - reflexivity.
  - reflexivity.
Qed.

Lemma match_indices (caps : captures) :
  rmatch whole
    (Cat (Grp 3 (Plus cls_digit)) (Cat (Chr (is_char ",")) (Grp 4 (Plus cls_digit))))
    (py_str r ++ lit "," ++ py_str c ++ lit "]") caps accept
  = Some (lit "]", (4%nat, py_str c) :: (3%nat, py_str r) :: caps).
Proof.
  rewrite rmatch_cat.
  apply (group_plus_greedy whole 3 cls_digit (py_str r)
           (lit "," ++ py_str c ++ lit "]") caps).
  - apply py_str_nonempty. exact r_nonneg.
  - apply py_str_all_digits. exact r_nonneg.
  - reflexivity.
  - change (lit "," ++ py_str c ++ lit "]") with (","%char :: py_str c ++ lit "]").
    rewrite rmatch_cat, rmatch_chr. change (is_char "," ",") with true. cbv iota.
    apply match_col_index.
Qed.

(** A non-empty run [u] of name characters in front of [[r,c]] is the
    variable. *)
Lemma match_name (u : str) (caps : captures) :
  u <> [] -> forallb cls_name u = true ->
  rmatch whole name_and_indices (u ++ index_suffix r c) caps accept
  = Some (lit "]", (4%nat, py_str c) :: (3%nat, py_str r) :: (2%nat, u) :: caps).
Proof.
  intros Hne Hu. unfold name_and_indices, index_suffix. rewrite rmatch_cat.
  apply (group_plus_greedy whole 2 cls_name u
           (lit "[" ++ py_str r ++ lit "," ++ py_str c ++ lit "]") caps).
  - exact Hne.
  - exact Hu.
  - reflexivity.
  - change (lit "[" ++ py_str r ++ lit "," ++ py_str c ++ lit "]")
      with ("["%char :: py_str r ++ lit "," ++ py_str c ++ lit "]").
    rewrite rmatch_cat, rmatch_chr. change (is_char "[" "[") with true. cbv iota.
    apply match_indices.
Qed.

(** There is no variable in [[r,c]] alone. *)
Lemma match_name_none (caps : captures) :
  rmatch whole name_and_indices (index_suffix r c) caps accept = None.
Proof.
  unfold name_and_indices, index_suffix.
  change (lit "[" ++ py_str r ++ lit "," ++ py_str c ++ lit "]")
    with ("["%char :: py_str r ++ lit "," ++ py_str c ++ lit "]").
  rewrite rmatch_cat. apply rmatch_group_plus_miss. reflexivity.
Qed.

Lemma match_separator_none (caps : captures) :
  rmatch whole separator_and_name (index_suffix r c) caps accept = None.
Proof.
  unfold separator_and_name. rewrite rmatch_cat, rmatch_opt.
  unfold index_suffix at 1.
  change (lit "[" ++ py_str r ++ lit "," ++ py_str c ++ lit "]")
    with ("["%char :: py_str r ++ lit "," ++ py_str c ++ lit "]").
  rewrite rmatch_chr. change (is_char "." "[") with false. cbv iota.
  apply match_name_none.
Qed.

(** After the optional separator: a leading dot is taken as the separator
    when a name is left after it. *)
Lemma match_separator (x : ascii) (w : str) (caps : captures) :
  forallb cls_name (x :: w) = true ->
  rmatch whole separator_and_name ((x :: w) ++ index_suffix r c) caps accept
  = Some (lit "]",
          (4%nat, py_str c) :: (3%nat, py_str r)
          :: (2%nat, if is_char "." x
                     then match w with [] => [x] | _ :: _ => w end
                     else x :: w)
          :: caps).
Proof.
  intro Hw. unfold separator_and_name. rewrite rmatch_cat, rmatch_opt.
  change ((x :: w) ++ index_suffix r c) with (x :: w ++ index_suffix r c).
  rewrite rmatch_chr. destruct (is_char "." x) eqn:E.
  - destruct w as [|y w].
    + change ([] ++ index_suffix r c) with (index_suffix r c).
      rewrite match_name_none.
      apply (match_name [x] caps); [discriminate | exact Hw].
    + simpl in Hw. apply andb_true_iff in Hw. destruct Hw as [_ Hw].
      rewrite (match_name (y :: w) caps); [reflexivity | discriminate | exact Hw].
  - apply (match_name (x :: w) caps); [discriminate | exact Hw].
Qed.

(** After a first digit from 1 to 9, whatever follows of the name yields a
    variable no longer than what follows: the chain prefix has taken the
    first character at least. *)
Lemma match_after_chain_digit (rest : str) (capsf : str -> captures) :
  rest <> [] -> forallb cls_name rest = true ->
  exists u caps,
    (length u <= length rest)%nat /\
    star cls_digit19 (rest ++ index_suffix r c)
      (fun t => rmatch whole separator_and_name t (capsf t) accept)
    = Some (lit "]",
            (4%nat, py_str c) :: (3%nat, py_str r) :: (2%nat, u) :: caps).
Proof.
  induction rest as [|y rest IH]; intros Hne Hall; [contradiction|].
  assert (Hsep : exists u caps,
             (length u <= length (y :: rest))%nat /\
             rmatch whole separator_and_name ((y :: rest) ++ index_suffix r c)
               (capsf ((y :: rest) ++ index_suffix r c)) accept
             = Some (lit "]",
                     (4%nat, py_str c) :: (3%nat, py_str r) :: (2%nat, u) :: caps)).
  { rewrite (match_separator y rest _ Hall). eexists. eexists.
    split; [|reflexivity].
    destruct (is_char "." y); [|apply Nat.le_refl].
    destruct rest; simpl; lia. }
  change ((y :: rest) ++ index_suffix r c) with (y :: rest ++ index_suffix r c) in *.
  cbn [star]. destruct (cls_digit19 y) eqn:Ey; [|exact Hsep].
  destruct rest as [|z rest].
  - change ([] ++ index_suffix r c) with (index_suffix r c) in *.
    rewrite star_stop by reflexivity. rewrite match_separator_none. exact Hsep.
  - simpl in Hall. apply andb_true_iff in Hall. destruct Hall as [_ Hall].
    destruct (IH ltac:(discriminate) Hall) as [u [caps [Hlen Hstar]]].
    rewrite Hstar. exists u, caps. split; [simpl in *; lia | reflexivity].
Qed.

(** The match of the whole pattern on [v[r,c]], for a non-empty name [v]:
    it starts at the first character, and the variable it captures is [v]
    exactly when [v] is a single character or starts with neither a digit
    from 1 to 9 nor a dot. *)
Lemma match_param_name (a : ascii) (v : str) :
  forallb cls_name (a :: v) = true ->
  exists u caps,
    match_at whole index_pattern (param_name (a :: v) r c)
    = Some (lit "]",
            (4%nat, py_str c) :: (3%nat, py_str r) :: (2%nat, u) :: caps) /\
    (u = a :: v <-> v = [] \/ (cls_digit19 a = false /\ is_char "." a = false)).
Proof.
  intro Hv. unfold match_at, index_pattern, param_name.
  rewrite rmatch_cat, rmatch_opt.
  change ((a :: v) ++ index_suffix r c) with (a :: v ++ index_suffix r c).
  rewrite rmatch_group_plus.
  change (a :: v ++ index_suffix r c) with ((a :: v) ++ index_suffix r c).
  destruct (cls_digit19 a) eqn:E19.
  - (* the first character can start a chain prefix *)
    destruct v as [|b v].
    + change ([] ++ index_suffix r c) with (index_suffix r c).
      rewrite star_stop by reflexivity. rewrite match_separator_none.
      rewrite (match_separator a [] [] Hv), (digit19_not_dot a E19).
      eexists. eexists. split; [reflexivity|]. tauto.
    + assert (Hrest : forallb cls_name (b :: v) = true).
      { simpl in Hv. apply andb_true_iff in Hv. tauto. }
      cbv beta.
      match goal with
      | |- context [star cls_digit19 _
                      (fun t => rmatch whole separator_and_name t (@?cf t) accept)] =>
          destruct (match_after_chain_digit (b :: v) cf ltac:(discriminate) Hrest)
            as [u [caps [Hlen Hstar]]]
      end.
      rewrite Hstar. exists u, caps. split; [reflexivity|]. split.
      * intros ->. simpl in Hlen. lia.
      * intros [H|[H _]]; discriminate.
  - (* no chain prefix *)
    rewrite (match_separator a v [] Hv). eexists. eexists. split; [reflexivity|].
    destruct (is_char "." a) eqn:Edot.
    + destruct v as [|b v].
      * tauto.
      * split.
        -- intro H. apply (f_equal (@length ascii)) in H. simpl in H. lia.
        -- intros [H|[_ H]]; discriminate.
    + tauto.
Qed.
End IndexPattern.

(** What the Index Extractor returns on [v[r,c]] for a non-empty name. *)
Lemma astype_int_py_str (n : Z) :
  0 <= n <= int64_max -> astype_int (Some (py_str n)) = Ok n.
Proof.
  intros [H0 Hmax]. unfold astype_int. rewrite (py_int_py_str n H0).
  rewrite (proj2 (Z.leb_le n int64_max) Hmax). reflexivity.
Qed.

Lemma index_extract_param_name (a : ascii) (v : str) (r c : Z) :
  forallb cls_name (a :: v) = true ->
  0 <= r <= int64_max -> 0 <= c <= int64_max ->
  exists u,
    index_extract (param_name (a :: v) r c) = Ok (Some u, r, c) /\
    (u = a :: v <-> v = [] \/ (cls_digit19 a = false /\ is_char "." a = false)).
Proof.
  intros Hv Hr Hc.
  destruct (match_param_name (length (param_name (a :: v) r c)) r c
              (proj1 Hr) (proj1 Hc) a v Hv)
    as [u [caps [Hm Hiff]]].
  exists u. split; [|exact Hiff].
  unfold index_extract, str_extract, re_search.
  rewrite (search_from_hit _ _ _ _ Hm).
  cbn [group e_x e_y e_variable Nat.eqb].
  rewrite (astype_int_py_str r Hr), (astype_int_py_str c Hc). reflexivity.
Qed.

(** *** What a match captures *)

Lemma star_inv {R : Type} (p : ascii -> bool) (s : str) (k : str -> option R)
    (res : R) :
  star p s k = Some res ->
  exists u t, s = u ++ t /\ forallb p u = true /\ k t = Some res.
Proof.
  induction s as [|a s IH]; simpl; intro H.
  - exists [], []. auto.
  - destruct (p a) eqn:Ea.
    + destruct (star p s k) as [x|] eqn:Es.
      * injection H as ->. destruct (IH eq_refl) as [u [t [-> [Hu Hk]]]].
        exists (a :: u), t. simpl. rewrite Ea, Hu. auto.
      * exists [], (a :: s). auto.
    + exists [], (a :: s). auto.
Qed.

(** A capture group around a run records a non-empty run of its class. *)
Lemma group_plus_inv {R : Type} (whole n : nat) (p : ascii -> bool) (s : str)
    (caps : captures) (k : str -> captures -> option R) (res : R) :
  rmatch whole (Grp n (Plus p)) s caps k = Some res ->
  exists u t,
    s = u ++ t /\ u <> [] /\ forallb p u = true /\ k t ((n, u) :: caps) = Some res.
Proof.
  destruct s as [|a s]; [discriminate|]. rewrite rmatch_group_plus.
  destruct (p a) eqn:Ea; [|discriminate]. intro H.
  apply star_inv in H. destruct H as [u [t [-> [Hu Hk]]]].
  exists (a :: u), t. repeat split.
  - discriminate.
  - simpl. rewrite Ea, Hu. reflexivity.
  - pose proof (firstn_consumed (a :: u) t) as Hf. simpl in Hf. simpl in Hk.
    rewrite Hf in Hk. exact Hk.
Qed.

Lemma chr_inv {R : Type} (whole : nat) (p : ascii -> bool) (s : str)
    (caps : captures) (k : str -> captures -> option R) (res : R) :
  rmatch whole (Chr p) s caps k = Some res ->
  exists t, k t caps = Some res.
Proof.
  destruct s as [|a s]; [discriminate|]. rewrite rmatch_chr.
  destruct (p a); [|discriminate]. intro H. exists s. exact H.
Qed.

(** In every match of the pattern, groups 2, 3 and 4 are set, and groups 3
    and 4 are non-empty runs of digits. *)
Lemma name_and_indices_inv (whole : nat) (s : str) (caps : captures)
    (res : str * captures) :
  rmatch whole name_and_indices s caps accept = Some res ->
  exists u2 u3 u4,
    snd res = (4%nat, u4) :: (3%nat, u3) :: (2%nat, u2) :: caps /\
    u3 <> [] /\ forallb cls_digit u3 = true /\
    u4 <> [] /\ forallb cls_digit u4 = true.
Proof.
  unfold name_and_indices. rewrite rmatch_cat. intro H.
  apply group_plus_inv in H. destruct H as [u2 [t2 [_ [_ [_ H]]]]].
  rewrite rmatch_cat in H. apply chr_inv in H. destruct H as [t H].
  rewrite rmatch_cat in H. apply group_plus_inv in H.
  destruct H as [u3 [t3 [_ [Hne3 [Hd3 H]]]]].
  rewrite rmatch_cat in H. apply chr_inv in H. destruct H as [t' H].
  apply group_plus_inv in H. destruct H as [u4 [t4 [_ [Hne4 [Hd4 H]]]]].
  unfold accept in H. injection H as <-. exists u2, u3, u4. auto.
Qed.

Lemma index_pattern_inv (whole : nat) (s : str) (res : str * captures) :
  match_at whole index_pattern s = Some res ->
  exists u2 u3 u4 caps,
    snd res = (4%nat, u4) :: (3%nat, u3) :: (2%nat, u2) :: caps /\
    u3 <> [] /\ forallb cls_digit u3 = true /\
    u4 <> [] /\ forallb cls_digit u4 = true.
Proof.
  unfold match_at, index_pattern. rewrite rmatch_cat, rmatch_opt. intro H.
  assert (Hsep : exists t caps,
             rmatch whole separator_and_name t caps accept = Some res).
  { destruct (rmatch whole (Grp 1 (Plus cls_digit19)) s []
                (fun t c1 => rmatch whole separator_and_name t c1 accept))
      as [x|] eqn:E.
    - injection H as ->. apply group_plus_inv in E.
      destruct E as [u [t [_ [_ [_ E]]]]]. eauto.
    - eauto. }
  destruct Hsep as [t [caps Hsep]]. unfold separator_and_name in Hsep.
  rewrite rmatch_cat, rmatch_opt in Hsep.
  assert (Hname : exists t', rmatch whole name_and_indices t' caps accept = Some res).
  { destruct (rmatch whole (Chr (is_char ".")) t caps
                (fun t0 c1 => rmatch whole name_and_indices t0 c1 accept))
      as [x|] eqn:E.
    - injection Hsep as ->. apply chr_inv in E. exact E.
    - eauto. }
  destruct Hname as [t' Hname]. apply name_and_indices_inv in Hname.
  destruct Hname as [u2 [u3 [u4 Hname]]]. exists u2, u3, u4, caps. exact Hname.
Qed.

Lemma search_from_inv (whole : nat) (r : regex) (s : str) (res : str * captures) :
  search_from whole r s = Some res -> exists t, match_at whole r t = Some res.
Proof.
  induction s as [|a s IH]; simpl.
  - destruct (match_at whole r []) eqn:E; [|discriminate].
    intro H. injection H as ->. eauto.
  - destruct (match_at whole r (a :: s)) eqn:E.
    + intro H. injection H as ->. eauto.
    + exact IH.
Qed.

Lemma int_acc_digits (u : str) (acc : Z) :
  forallb cls_digit u = true -> exists z, int_acc acc u = Some z.
Proof.
  revert acc. induction u as [|a u IH]; intros acc H; simpl.
  - eauto.
  - simpl in H. apply andb_true_iff in H. destruct H as [Ha Hu].
    unfold digit_val. rewrite Ha. apply IH. exact Hu.
Qed.

Lemma py_int_digits (u : str) :
  u <> [] -> forallb cls_digit u = true -> exists z, py_int u = Some z.
Proof.
  intros Hne Hu. unfold py_int. destruct u as [|a u]; [contradiction|].
  apply int_acc_digits. exact Hu.
Qed.

Lemma chr_inv_rest {R : Type} (whole : nat) (p : ascii -> bool) (s : str)
    (caps : captures) (k : str -> captures -> option R) (res : R) :
  rmatch whole (Chr p) s caps k = Some res ->
  exists a t, s = a :: t /\ k t caps = Some res.
Proof.
  destruct s as [|a s]; [discriminate|]. rewrite rmatch_chr.
  destruct (p a); [|discriminate]. intro H. exists a, s. auto.
Qed.

(** The two numerals a match captures are pieces of the text it reads. *)
Lemma name_and_indices_captures (whole : nat) (s : str) (caps : captures)
    (res : str * captures) :
  rmatch whole name_and_indices s caps accept = Some res ->
  exists u2 u3 u4,
    snd res = (4%nat, u4) :: (3%nat, u3) :: (2%nat, u2) :: caps /\
    (length u3 <= length s)%nat /\ (length u4 <= length s)%nat.
Proof.
  unfold name_and_indices. rewrite rmatch_cat. intro H.
  apply group_plus_inv in H. destruct H as [u2 [t2 [-> [_ [_ H]]]]].
  rewrite rmatch_cat in H. apply chr_inv_rest in H. destruct H as [a [t [-> H]]].
  rewrite rmatch_cat in H. apply group_plus_inv in H.
  destruct H as [u3 [t3 [-> [_ [_ H]]]]].
  rewrite rmatch_cat in H. apply chr_inv_rest in H. destruct H as [b [t' [-> H]]].
  apply group_plus_inv in H. destruct H as [u4 [t4 [-> [_ [_ H]]]]].
  unfold accept in H. injection H as <-. exists u2, u3, u4.
  split; [reflexivity|]. rewrite !length_app. cbn [length]. rewrite !length_app.
  cbn [length]. rewrite !length_app. lia.
Qed.

Lemma index_pattern_captures (whole : nat) (s : str) (res : str * captures) :
  match_at whole index_pattern s = Some res ->
  exists u2 u3 u4 caps,
    snd res = (4%nat, u4) :: (3%nat, u3) :: (2%nat, u2) :: caps /\
    (length u3 <= length s)%nat /\ (length u4 <= length s)%nat.
Proof.
  unfold match_at, index_pattern. rewrite rmatch_cat, rmatch_opt. intro H.
  assert (Hsep : exists t caps,
             (length t <= length s)%nat /\
             rmatch whole separator_and_name t caps accept = Some res).
  { destruct (rmatch whole (Grp 1 (Plus cls_digit19)) s []
                (fun t c1 => rmatch whole separator_and_name t c1 accept))
      as [x|] eqn:E.
    - injection H as ->. apply group_plus_inv in E.
      destruct E as [u [t [-> [_ [_ E]]]]]. exists t. eexists.
      split; [rewrite length_app; lia | exact E].
    - exists s, []. split; [lia | exact H]. }
  destruct Hsep as [t [caps [Ht Hsep]]]. unfold separator_and_name in Hsep.
  rewrite rmatch_cat, rmatch_opt in Hsep.
  assert (Hname : exists t',
             (length t' <= length t)%nat /\
             rmatch whole name_and_indices t' caps accept = Some res).
  { destruct (rmatch whole (Chr (is_char ".")) t caps
                (fun t0 c1 => rmatch whole name_and_indices t0 c1 accept))
      as [x|] eqn:E.
    - injection Hsep as ->. apply chr_inv_rest in E.
      destruct E as [a [t0 [-> E]]]. exists t0. split; [simpl; lia | exact E].
    - exists t. split; [lia | exact Hsep]. }
  destruct Hname as [t' [Ht' Hname]]. apply name_and_indices_captures in Hname.
  destruct Hname as [u2 [u3 [u4 [Hcaps [H3 H4]]]]].
  exists u2, u3, u4, caps. split; [exact Hcaps|]. lia.
Qed.

Lemma search_from_suffix (whole : nat) (r : regex) (s : str) (res : str * captures) :
  search_from whole r s = Some res ->
  exists t, (length t <= length s)%nat /\ match_at whole r t = Some res.
Proof.
  induction s as [|a s IH]; simpl.
  - destruct (match_at whole r []) eqn:E; [|discriminate].
    intro H. injection H as ->. exists []. auto.
  - destruct (match_at whole r (a :: s)) eqn:E.
    + intro H. injection H as ->. exists (a :: s). auto.
    + intro H. destruct (IH H) as [t [Ht Hm]]. exists t. split; [lia | exact Hm].
Qed.

(** A name the pattern matches somewhere has a variable and two numerals,
    each a piece of the name that [int] reads. *)
Lemma str_extract_parsed (name : str) :
  re_search index_pattern name <> None ->
  exists ch v u3 u4 x y,
    str_extract name = mkExtracted ch (Some v) (Some u3) (Some u4) /\
    py_int u3 = Some x /\ py_int u4 = Some y /\
    (length u3 <= length name)%nat /\ (length u4 <= length name)%nat.
Proof.
  intro H. unfold str_extract.
  destruct (re_search index_pattern name) as [[t caps]|] eqn:E; [|contradiction].
  unfold re_search in E. apply search_from_suffix in E. destruct E as [t' [Ht' E]].
  pose proof (index_pattern_captures _ _ _ E) as Hc.
  apply index_pattern_inv in E.
  destruct E as [u2 [u3 [u4 [caps' [Hcaps [Hne3 [Hd3 [Hne4 Hd4]]]]]]]].
  destruct Hc as [w2 [w3 [w4 [caps2 [Hcaps2 [H3 H4]]]]]].
  rewrite Hcaps in Hcaps2. injection Hcaps2 as <- <- <- _.
  simpl in Hcaps. subst caps. cbn [group Nat.eqb].
  destruct (py_int_digits u3 Hne3 Hd3) as [x Hx].
  destruct (py_int_digits u4 Hne4 Hd4) as [y Hy].
  exists (group 1 caps'), u2, u3, u4, x, y. repeat split; try assumption; lia.
Qed.

(** ** Stable sorting *)

Section SortFacts.
Context {A : Type}.
Variable leb : A -> A -> bool.
Hypothesis leb_total : forall a b, leb a b = false -> leb b a = true.
Hypothesis leb_trans :
  forall a b c, leb a b = true -> leb b c = true -> leb a c = true.

Lemma insert_sorted_perm (a : A) (l : list A) :
  Permutation.Permutation (insert_sorted leb a l) (a :: l).
Proof.
  induction l as [|b l IH]; simpl; [apply Permutation.Permutation_refl|].
  destruct (leb a b); [apply Permutation.Permutation_refl|].
  eapply Permutation.perm_trans; [apply Permutation.perm_skip, IH|].
  apply Permutation.perm_swap.
Qed.

Lemma stable_sort_perm (l : list A) :
  Permutation.Permutation (stable_sort leb l) l.
Proof.
  induction l as [|a l IH]; simpl; [apply Permutation.perm_nil|].
  eapply Permutation.perm_trans; [apply insert_sorted_perm|].
  apply Permutation.perm_skip, IH.
Qed.

Lemma stable_sort_In (x : A) (l : list A) : In x (stable_sort leb l) <-> In x l.
Proof.
  split; apply Permutation.Permutation_in;
    [|apply Permutation.Permutation_sym]; apply stable_sort_perm.
Qed.

Lemma insert_sorted_ascending (a : A) (l : list A) :
  ascending leb l -> ascending leb (insert_sorted leb a l).
Proof.
  unfold ascending. induction 1 as [|b l Hs IH Hb]; simpl.
  - constructor; constructor.
  - destruct (leb a b) eqn:E.
    + constructor; [constructor; assumption|].
      constructor; [exact E|].
      rewrite Forall_forall in Hb |- *. intros x Hx.
      apply (leb_trans a b x E). apply Hb. exact Hx.
    + constructor; [exact IH|].
      rewrite Forall_forall in Hb |- *. intros x Hx.
      apply (Permutation.Permutation_in _ (insert_sorted_perm a l)) in Hx.
      destruct Hx as [<-|Hx]; [apply leb_total; exact E | apply Hb; exact Hx].
Qed.

Lemma stable_sort_ascending (l : list A) : ascending leb (stable_sort leb l).
Proof.
  induction l as [|a l IH]; simpl; [constructor|].
  apply insert_sorted_ascending. exact IH.
Qed.

(** Selecting from a sorted list commutes with inserting. *)
Lemma filter_insert_sorted (P : A -> bool) (a : A) (l : list A) :
  ascending leb l ->
  filter P (insert_sorted leb a l)
  = if P a then insert_sorted leb a (filter P l) else filter P l.
Proof.
  unfold ascending. induction 1 as [|b l Hs IH Hb]; simpl.
  - destruct (P a); reflexivity.
  - destruct (leb a b) eqn:E; simpl.
    + destruct (P a) eqn:Pa, (P b) eqn:Pb; simpl; rewrite ?E; try reflexivity.
      (* a is kept, b is not: a goes in front of what is kept of l *)
      destruct (filter P l) as [|x xs] eqn:F; simpl; [reflexivity|].
      assert (Hx : In x l).
      { assert (Hin : In x (filter P l)) by (rewrite F; left; reflexivity).
        apply filter_In in Hin. tauto. }
      rewrite Forall_forall in Hb.
      rewrite (leb_trans a b x E (Hb x Hx)). reflexivity.
    + rewrite IH. destruct (P a) eqn:Pa, (P b) eqn:Pb; simpl; rewrite ?E; reflexivity.
Qed.

(** A stable sort commutes with selection: the selected elements come out
    in the order the sort alone would give them. *)
Lemma filter_stable_sort (P : A -> bool) (l : list A) :
  filter P (stable_sort leb l) = stable_sort leb (filter P l).
Proof.
  induction l as [|a l IH]; simpl; [reflexivity|].
  rewrite filter_insert_sorted by apply stable_sort_ascending.
  destruct (P a); simpl; rewrite IH; reflexivity.
Qed.
End SortFacts.

Lemma insert_sorted_ext {A : Type} (leb1 leb2 : A -> A -> bool) (a : A) (l : list A) :
  (forall b, In b l -> leb1 a b = leb2 a b) ->
  insert_sorted leb1 a l = insert_sorted leb2 a l.
Proof.
  induction l as [|b l IH]; intro H; simpl; [reflexivity|].
  rewrite (H b) by (left; reflexivity).
  destruct (leb2 a b); [reflexivity|]. f_equal. apply IH.
  intros x Hx. apply H. right. exact Hx.
Qed.

(** The result of a stable sort depends on the comparison of the elements of
    the list only. *)
Lemma stable_sort_ext {A : Type} (leb1 leb2 : A -> A -> bool) (l : list A) :
  (forall a b, In a l -> In b l -> leb1 a b = leb2 a b) ->
  stable_sort leb1 l = stable_sort leb2 l.
Proof.
  induction l as [|a l IH]; intro H; simpl; [reflexivity|].
  rewrite IH by (intros x y Hx Hy; apply H; right; assumption).
  apply insert_sorted_ext. intros b Hb. apply H; [left; reflexivity|].
  right. apply (Permutation.Permutation_in _ (stable_sort_perm leb2 l)). exact Hb.
Qed.

(** Elements that compare as equal keep their order. *)
Lemma stable_sort_equal_keys {A : Type} (leb : A -> A -> bool) (l : list A) :
  (forall a b, In a l -> In b l -> leb a b = true) ->
  stable_sort leb l = l.
Proof.
  induction l as [|a l IH]; intro H; simpl; [reflexivity|].
  rewrite IH by (intros x y Hx Hy; apply H; right; assumption).
  destruct l as [|b l]; simpl; [reflexivity|].
  rewrite H; [reflexivity | left; reflexivity | right; left; reflexivity].
Qed.

(** ** The sort order of line 36 *)

Lemma nat_of_ascii_inj (a b : ascii) : nat_of_ascii a = nat_of_ascii b -> a = b.
Proof.
  intro H. rewrite <- (ascii_nat_embedding a), <- (ascii_nat_embedding b), H.
  reflexivity.
Qed.

Lemma str_leb_total (s t : str) : str_leb s t = false -> str_leb t s = true.
Proof.
  revert t. induction s as [|a s IH]; intros [|b t]; simpl; try discriminate;
    try reflexivity.
  destruct (Nat.ltb_spec (nat_of_ascii a) (nat_of_ascii b)); [discriminate|].
  destruct (Nat.ltb_spec (nat_of_ascii b) (nat_of_ascii a)); [reflexivity|].
  apply IH.
Qed.

Lemma str_leb_trans (s t u : str) :
  str_leb s t = true -> str_leb t u = true -> str_leb s u = true.
Proof.
  revert t u. induction s as [|a s IH]; intros [|b t] [|c u]; simpl;
    try discriminate; try reflexivity.
  destruct (Nat.ltb_spec (nat_of_ascii a) (nat_of_ascii b)),
           (Nat.ltb_spec (nat_of_ascii b) (nat_of_ascii a)),
           (Nat.ltb_spec (nat_of_ascii b) (nat_of_ascii c)),
           (Nat.ltb_spec (nat_of_ascii c) (nat_of_ascii b)),
           (Nat.ltb_spec (nat_of_ascii a) (nat_of_ascii c)),
           (Nat.ltb_spec (nat_of_ascii c) (nat_of_ascii a));
    try discriminate; try reflexivity; try lia.
  apply IH.
Qed.

Lemma str_leb_antisym (s t : str) :
  str_leb s t = true -> str_leb t s = true -> s = t.
Proof.
  revert t. induction s as [|a s IH]; intros [|b t]; simpl; try discriminate;
    try reflexivity.
  destruct (Nat.ltb_spec (nat_of_ascii a) (nat_of_ascii b)),
           (Nat.ltb_spec (nat_of_ascii b) (nat_of_ascii a));
    try discriminate; try lia.
  intros H1 H2. f_equal; [apply nat_of_ascii_inj; lia | apply IH; assumption].
Qed.

Lemma variable_eqb_eq (a b : option str) : variable_eqb a b = true <-> a = b.
Proof.
  destruct a as [s|], b as [t|]; simpl; split; intro H;
    try reflexivity; try discriminate.
  - apply str_eqb_eq in H. subst. reflexivity.
  - injection H as ->. apply str_eqb_refl.
Qed.

Lemma variable_leb_total (a b : option str) :
  variable_leb a b = false -> variable_leb b a = true.
Proof.
  destruct a, b; simpl; try discriminate; try reflexivity. apply str_leb_total.
Qed.

Lemma variable_leb_trans (a b c : option str) :
  variable_leb a b = true -> variable_leb b c = true -> variable_leb a c = true.
Proof.
  destruct a, b, c; simpl; try discriminate; try reflexivity. apply str_leb_trans.
Qed.

Lemma variable_leb_antisym (a b : option str) :
  variable_leb a b = true -> variable_leb b a = true -> a = b.
Proof.
  destruct a, b; simpl; try discriminate; try reflexivity.
  intros H1 H2. f_equal. apply str_leb_antisym; assumption.
Qed.

(** A lexicographic comparison, written as the source's sort compares one
    key after the other, is total and transitive. *)
Section Lex.
Context {A K : Type}.
Variable p : A -> K.
Variables eqb ltb : K -> K -> bool.
Variable le2 : A -> A -> bool.
Hypothesis eqb_eq : forall x y, eqb x y = true <-> x = y.
Hypothesis ltb_total : forall x y, x <> y -> ltb x y = false -> ltb y x = true.
Hypothesis ltb_trans :
  forall x y z, ltb x y = true -> ltb y z = true -> ltb x z = true.
Hypothesis ltb_antisym : forall x y, ltb x y = true -> ltb y x = true -> x = y.
Hypothesis le2_total : forall a b, le2 a b = false -> le2 b a = true.
Hypothesis le2_trans :
  forall a b c, le2 a b = true -> le2 b c = true -> le2 a c = true.

Lemma eqb_cases (x y : K) :
  (x = y /\ eqb x y = true) \/ (x <> y /\ eqb x y = false).
Proof.
  destruct (eqb x y) eqn:E.
  - left. split; [apply eqb_eq; exact E | reflexivity].
  - right. split; [|reflexivity]. intro H. apply eqb_eq in H. congruence.
Qed.

Lemma lex_total (a b : A) :
  (if negb (eqb (p a) (p b)) then ltb (p a) (p b) else le2 a b) = false ->
  (if negb (eqb (p b) (p a)) then ltb (p b) (p a) else le2 b a) = true.
Proof.
  destruct (eqb_cases (p a) (p b)) as [[E ->]|[E ->]],
           (eqb_cases (p b) (p a)) as [[E' ->]|[E' ->]]; simpl;
    try congruence.
  - apply le2_total.
  - apply ltb_total. exact E.
Qed.

Lemma lex_trans (a b c : A) :
  (if negb (eqb (p a) (p b)) then ltb (p a) (p b) else le2 a b) = true ->
  (if negb (eqb (p b) (p c)) then ltb (p b) (p c) else le2 b c) = true ->
  (if negb (eqb (p a) (p c)) then ltb (p a) (p c) else le2 a c) = true.
Proof.
  destruct (eqb_cases (p a) (p b)) as [[E1 ->]|[E1 ->]],
           (eqb_cases (p b) (p c)) as [[E2 ->]|[E2 ->]],
           (eqb_cases (p a) (p c)) as [[E3 ->]|[E3 ->]]; simpl;
    try congruence.
  - apply le2_trans.
  - intros H1 H2. exfalso. apply E1. apply ltb_antisym; [exact H1|].
    rewrite E3. exact H2.
  - apply ltb_trans.
Qed.
End Lex.

Lemma Z_ltb_total (x y : Z) : x <> y -> (x <? y) = false -> (y <? x) = true.
Proof. intros H1 H2. apply Z.ltb_lt. apply Z.ltb_ge in H2. lia. Qed.

Lemma Z_ltb_trans (x y z : Z) : (x <? y) = true -> (y <? z) = true -> (x <? z) = true.
Proof. rewrite !Z.ltb_lt. lia. Qed.

Lemma Z_ltb_antisym (x y : Z) : (x <? y) = true -> (y <? x) = true -> x = y.
Proof. rewrite !Z.ltb_lt. lia. Qed.

Lemma Z_leb_total (x y : Z) : (x <=? y) = false -> (y <=? x) = true.
Proof. intro H. apply Z.leb_le. apply Z.leb_gt in H. lia. Qed.

Lemma Z_leb_trans (x y z : Z) : (x <=? y) = true -> (y <=? z) = true -> (x <=? z) = true.
Proof. rewrite !Z.leb_le. lia. Qed.

Lemma sort_key_leb_total (a b : draw_record) :
  sort_key_leb a b = false -> sort_key_leb b a = true.
Proof.
  pose (ly := fun a b : draw_record =>
          if negb (row_y a =? row_y b) then row_y a <? row_y b
          else chain__ a <=? chain__ b).
  pose (lx := fun a b : draw_record =>
          if negb (row_x a =? row_x b) then row_x a <? row_x b else ly a b).
  assert (Hy : forall a b, ly a b = false -> ly b a = true).
  { intros x y. apply (lex_total row_y Z.eqb Z.ltb (fun a b => chain__ a <=? chain__ b)
                         Z.eqb_eq Z_ltb_total).
    intros u v. apply Z_leb_total. }
  assert (Hx : forall a b, lx a b = false -> lx b a = true).
  { intros x y. apply (lex_total row_x Z.eqb Z.ltb ly Z.eqb_eq Z_ltb_total Hy). }
  apply (lex_total variable variable_eqb variable_leb lx variable_eqb_eq);
    [intros x y _; apply variable_leb_total | exact Hx].
Qed.

Lemma sort_key_leb_trans (a b c : draw_record) :
  sort_key_leb a b = true -> sort_key_leb b c = true -> sort_key_leb a c = true.
Proof.
  pose (ly := fun a b : draw_record =>
          if negb (row_y a =? row_y b) then row_y a <? row_y b
          else chain__ a <=? chain__ b).
  pose (lx := fun a b : draw_record =>
          if negb (row_x a =? row_x b) then row_x a <? row_x b else ly a b).
  assert (Hy : forall a b c, ly a b = true -> ly b c = true -> ly a c = true).
  { intros x y z. apply (lex_trans row_y Z.eqb Z.ltb (fun a b => chain__ a <=? chain__ b)
                           Z.eqb_eq Z_ltb_trans Z_ltb_antisym).
    intros u v w. apply Z_leb_trans. }
  assert (Hx : forall a b c, lx a b = true -> lx b c = true -> lx a c = true).
  { intros x y z.
    apply (lex_trans row_x Z.eqb Z.ltb ly Z.eqb_eq Z_ltb_trans Z_ltb_antisym Hy). }
  apply (lex_trans variable variable_eqb variable_leb lx variable_eqb_eq
           variable_leb_trans variable_leb_antisym Hx).
Qed.

Lemma key_eqb_eq (a b : group_key) : key_eqb a b = true <-> a = b.
Proof.
  destruct a as [[va xa] ya], b as [[vb xb] yb]. unfold key_eqb.
  rewrite !andb_true_iff, variable_eqb_eq, !Z.eqb_eq. split.
  - intros [[-> ->] ->]. reflexivity.
  - intro H. injection H as -> -> ->. auto.
Qed.

Lemma key_eqb_refl (a : group_key) : key_eqb a a = true.
Proof. apply key_eqb_eq. reflexivity. Qed.

Lemma in_group_iff (k : group_key) (r : draw_record) :
  in_group k r = true <-> key_of r = k.
Proof. unfold in_group. apply key_eqb_eq. Qed.

(** Within one group the sort of line 36 compares chains only. *)
Lemma sort_key_leb_in_group (a b : draw_record) :
  key_of a = key_of b -> sort_key_leb a b = (chain__ a <=? chain__ b).
Proof.
  unfold key_of, sort_key_leb. intro H. injection H as Hv Hx Hy.
  rewrite Hv, Hx, Hy.
  replace (variable_eqb (variable b) (variable b)) with true
    by (symmetry; apply variable_eqb_eq; reflexivity).
  rewrite !Z.eqb_refl. reflexivity.
Qed.

(** ** Grouping *)

Lemma dedup_keys_In (k : group_key) (l : list group_key) :
  In k (dedup_keys l) <-> In k l.
Proof.
  induction l as [|a l IH]; simpl; [tauto|]. rewrite filter_In, IH.
  destruct (key_eqb k a) eqn:E.
  - apply key_eqb_eq in E. subst. simpl. tauto.
  - simpl. split; [tauto|]. intros [H|H]; [left; exact H | right; tauto].
Qed.

Lemma dedup_keys_NoDup (l : list group_key) : NoDup (dedup_keys l).
Proof.
  induction l as [|a l IH]; simpl; constructor.
  - rewrite filter_In. intros [_ H]. rewrite key_eqb_refl in H. discriminate.
  - apply NoDup_filter. exact IH.
Qed.

Lemma group_keys_NoDup (l : list draw_record) : NoDup (group_keys l).
Proof.
  unfold group_keys.
  eapply Permutation_NoDup;
    [apply Permutation_sym, stable_sort_perm | apply dedup_keys_NoDup].
Qed.

Lemma group_keys_In (k : group_key) (l : list draw_record) :
  In k (group_keys l) <->
  (exists r, In r l /\ key_of r = k) /\ fst (fst k) <> None.
Proof.
  unfold group_keys. rewrite stable_sort_In, dedup_keys_In, filter_In, in_map_iff.
  destruct k as [[v x] y]. simpl. split.
  - intros [[r [Hk Hr]] Hv]. split; [exists r; tauto|].
    destruct v; [discriminate | discriminate].
  - intros [[r [Hr Hk]] Hv]. split; [exists r; tauto|].
    destruct v; [reflexivity | contradiction].
Qed.

Lemma filter_nothing {A : Type} (P : A -> bool) (l : list A) :
  (forall r, In r l -> P r = false) -> filter P l = [].
Proof.
  induction l as [|a l IH]; intro H; simpl; [reflexivity|].
  rewrite (H a) by (left; reflexivity). apply IH.
  intros r Hr. apply H. right. exact Hr.
Qed.

Lemma filter_everything {A : Type} (P : A -> bool) (l : list A) :
  (forall r, In r l -> P r = true) -> filter P l = l.
Proof.
  intro H. apply forallb_filter_id. apply forallb_forall. exact H.
Qed.

Lemma filter_comm {A : Type} (P Q : A -> bool) (l : list A) :
  filter P (filter Q l) = filter Q (filter P l).
Proof.
  induction l as [|a l IH]; simpl; [reflexivity|].
  destruct (P a) eqn:Pa, (Q a) eqn:Qa; simpl; rewrite ?Pa, ?Qa, IH; reflexivity.
Qed.

Section FlatMapGroups.
Variable F : group_key -> list draw_record.
Hypothesis F_keys : forall k r, In r (F k) -> key_of r = k.

Lemma filter_other_group (k k' : group_key) :
  k' <> k -> filter (in_group k) (F k') = [].
Proof.
  intro Hne. apply filter_nothing. intros r Hr.
  destruct (in_group k r) eqn:E; [|reflexivity].
  apply in_group_iff in E. apply F_keys in Hr. congruence.
Qed.

Lemma filter_own_group (k : group_key) : filter (in_group k) (F k) = F k.
Proof.
  apply filter_everything. intros r Hr. apply in_group_iff.
  apply F_keys. exact Hr.
Qed.

Lemma filter_groups_absent (k : group_key) (ks : list group_key) :
  ~ In k ks -> filter (in_group k) (flat_map F ks) = [].
Proof.
  induction ks as [|k' ks IH]; intro H; simpl; [reflexivity|].
  rewrite filter_app, filter_other_group, IH; [reflexivity | |].
  - intro Hin. apply H. right. exact Hin.
  - intro E. apply H. left. exact E.
Qed.

(** Among distinct keys, the rows of the key [k] are those of its group. *)
Lemma filter_groups_present (k : group_key) (ks : list group_key) :
  NoDup ks -> In k ks -> filter (in_group k) (flat_map F ks) = F k.
Proof.
  induction 1 as [|k' ks Hnot Hnd IH]; intro Hin; [contradiction|].
  simpl. rewrite filter_app. destruct Hin as [->|Hin].
  - rewrite filter_own_group, filter_groups_absent by exact Hnot.
    apply app_nil_r.
  - rewrite filter_other_group by (intros ->; contradiction).
    apply IH. exact Hin.
Qed.
End FlatMapGroups.

(** ** Renumbering the draws of a group *)

Lemma combine_seq_map {A B : Type} (f : A -> nat -> B) (g : A -> B) (l : list A) :
  (forall a n, f a n = g a) ->
  forall s, map (fun rd : A * nat => f (fst rd) (snd rd)) (combine l (seq s (length l)))
            = map g l.
Proof.
  intro H. induction l as [|a l IH]; intro s; simpl; [reflexivity|].
  rewrite H, IH. reflexivity.
Qed.

Lemma combine_seq_snd {A : Type} (l : list A) (s : nat) :
  map snd (combine l (seq s (length l))) = seq s (length l).
Proof.
  revert s. induction l as [|a l IH]; intro s; simpl; [reflexivity|].
  rewrite IH. reflexivity.
Qed.

Lemma assign_draw_length (g : list draw_record) : length (assign_draw g) = length g.
Proof.
  unfold assign_draw. rewrite length_map, length_combine, length_seq. lia.
Qed.

Lemma assign_draw_draws (g : list draw_record) :
  map draw__ (assign_draw g) = map Z.of_nat (seq 1 (length g)).
Proof.
  unfold assign_draw. rewrite map_map. simpl.
  rewrite <- (combine_seq_snd g 1) at 2. rewrite map_map. reflexivity.
Qed.

Lemma assign_draw_erase (g : list draw_record) :
  map erase_draw (assign_draw g) = map erase_draw g.
Proof.
  unfold assign_draw. rewrite map_map.
  apply (combine_seq_map (fun r n => erase_draw (set_draw r (Z.of_nat n))) erase_draw).
  reflexivity.
Qed.

Lemma assign_draw_chains (g : list draw_record) :
  map chain__ (assign_draw g) = map chain__ g.
Proof.
  unfold assign_draw. rewrite map_map.
  apply (combine_seq_map (fun r n => chain__ (set_draw r (Z.of_nat n))) chain__).
  reflexivity.
Qed.

Lemma assign_draw_chain_iter (g : list draw_record) :
  map chain_iter (assign_draw g) = map chain_iter g.
Proof.
  unfold assign_draw. rewrite map_map.
  apply (combine_seq_map (fun r n => chain_iter (set_draw r (Z.of_nat n))) chain_iter).
  reflexivity.
Qed.

Lemma assign_draw_keys (g : list draw_record) :
  map key_of (assign_draw g) = map key_of g.
Proof.
  unfold assign_draw. rewrite map_map.
  apply (combine_seq_map (fun r n => key_of (set_draw r (Z.of_nat n))) key_of).
  reflexivity.
Qed.

Lemma map_eq_In {A B : Type} (f : A -> B) (l l' : list A) (b : B) :
  map f l = map f l' -> (forall a, In a l' -> f a = b) ->
  forall a, In a l -> f a = b.
Proof.
  intros Hm H a Ha.
  assert (Hin : In (f a) (map f l')) by (rewrite <- Hm; apply in_map; exact Ha).
  apply in_map_iff in Hin. destruct Hin as [a' [<- Ha']]. apply H. exact Ha'.
Qed.

Lemma group_key_eq_dec (a b : group_key) : {a = b} + {a <> b}.
Proof.
  destruct (key_eqb a b) eqn:E.
  - left. apply key_eqb_eq. exact E.
  - right. intro H. apply key_eqb_eq in H. congruence.
Qed.

Lemma assign_draw_group_keys (k : group_key) (l : list draw_record) (r : draw_record) :
  In r (assign_draw (filter (in_group k) l)) -> key_of r = k.
Proof.
  apply (map_eq_In key_of _ _ k (assign_draw_keys _)).
  intros a Ha. apply filter_In in Ha. apply in_group_iff. tauto.
Qed.

(** The rows of one group after [groupby(...).apply(...)]: the rows of the
    group, renumbered. *)
Lemma groupby_apply_group (k : group_key) (l : list draw_record) :
  fst (fst k) <> None ->
  filter (in_group k) (groupby_apply assign_draw l)
  = assign_draw (filter (in_group k) l).
Proof.
  intro Hv. unfold groupby_apply.
  pose proof (fun k' r => assign_draw_group_keys k' l r) as HF.
  destruct (in_dec group_key_eq_dec k (group_keys l)) as [Hin|Hout].
  - apply (filter_groups_present _ HF k _ (group_keys_NoDup l) Hin).
  - rewrite (filter_groups_absent _ HF k _ Hout).
    rewrite (filter_nothing (in_group k) l); [reflexivity|].
    intros r Hr. destruct (in_group k r) eqn:E; [|reflexivity].
    exfalso. apply Hout. apply group_keys_In. split; [|exact Hv].
    exists r. split; [exact Hr | apply in_group_iff; exact E].
Qed.

Lemma groupby_apply_no_missing_key (l : list draw_record) (r : draw_record) :
  In r (groupby_apply assign_draw l) -> variable r <> None.
Proof.
  unfold groupby_apply. rewrite in_flat_map. intros [k [Hk Hr]].
  apply group_keys_In in Hk. destruct Hk as [_ Hv].
  apply assign_draw_group_keys in Hr. subst k. exact Hv.
Qed.

(** ** Draw Reshaper *)

Lemma filter_map_comm {A B : Type} (P : B -> bool) (Q : A -> bool) (f : A -> B)
    (l : list A) :
  (forall a, P (f a) = Q a) -> filter P (map f l) = map f (filter Q l).
Proof.
  intro H. induction l as [|a l IH]; simpl; [reflexivity|].
  rewrite H, IH. destruct (Q a); reflexivity.
Qed.

Lemma chain_leb_total (a b : draw_record) : chain_leb a b = false -> chain_leb b a = true.
Proof. apply Z_leb_total. Qed.

Lemma chain_leb_trans (a b c : draw_record) :
  chain_leb a b = true -> chain_leb b c = true -> chain_leb a c = true.
Proof. apply Z_leb_trans. Qed.

Lemma ascending_chains (l : list draw_record) :
  ascending chain_leb l -> nondecreasing (map chain__ l).
Proof.
  unfold ascending, nondecreasing. induction 1 as [|a l Hs IH Ha]; simpl; constructor.
  - exact IH.
  - rewrite Forall_map. rewrite Forall_forall in Ha |- *. intros b Hb.
    apply Z.leb_le. apply Ha. exact Hb.
Qed.

(** The rows of one group after the sort of line 36: the rows of the group
    in the long table, stably sorted by chain. *)
Lemma sorted_group (k : group_key) (long : list draw_record) :
  filter (in_group k) (stable_sort sort_key_leb long)
  = stable_sort chain_leb (filter (in_group k) long).
Proof.
  rewrite (filter_stable_sort sort_key_leb sort_key_leb_total sort_key_leb_trans).
  apply stable_sort_ext. intros a b Ha Hb.
  apply filter_In in Ha. apply filter_In in Hb.
  destruct Ha as [_ Ha], Hb as [_ Hb].
  apply in_group_iff in Ha. apply in_group_iff in Hb.
  apply sort_key_leb_in_group. congruence.
Qed.

(** Rows of one chain keep the order they had in the long table. *)
Lemma sorted_chain_stable (ch : Z) (l : list draw_record) :
  filter (same_chain ch) (stable_sort chain_leb l) = filter (same_chain ch) l.
Proof.
  rewrite (filter_stable_sort chain_leb chain_leb_total chain_leb_trans).
  apply stable_sort_equal_keys. intros a b Ha Hb.
  apply filter_In in Ha. apply filter_In in Hb.
  destruct Ha as [_ Ha], Hb as [_ Hb]. unfold same_chain in Ha, Hb.
  apply Z.eqb_eq in Ha. apply Z.eqb_eq in Hb. unfold chain_leb.
  apply Z.leb_le. lia.
Qed.

(** A list in ascending chain order whose chains each list their iterations
    in ascending order is in ascending [(chain_id, iteration)] order. *)
Lemma chain_then_iteration (l : list draw_record) :
  ascending chain_leb l ->
  (forall ch, nondecreasing (map iter__ (filter (same_chain ch) l))) ->
  StronglySorted chain_iter_le (map chain_iter l).
Proof.
  unfold ascending. induction 1 as [|a l Hs IH Ha]; intro Hit; simpl; constructor.
  - apply IH. intro ch. specialize (Hit ch). simpl in Hit.
    destruct (same_chain ch a); [|exact Hit].
    simpl in Hit. unfold nondecreasing in Hit.
    apply StronglySorted_inv in Hit. tauto.
  - rewrite Forall_map. rewrite Forall_forall in Ha |- *. intros b Hb.
    pose proof (Ha b Hb) as Hab. unfold chain_leb in Hab. apply Z.leb_le in Hab.
    unfold chain_iter_le, chain_iter. simpl.
    destruct (Z.eq_dec (chain__ a) (chain__ b)) as [E|E]; [|left; lia].
    right. split; [exact E|].
    specialize (Hit (chain__ a)). simpl in Hit. unfold same_chain at 1 in Hit.
    rewrite Z.eqb_refl in Hit. simpl in Hit. unfold nondecreasing in Hit.
    apply StronglySorted_inv in Hit. destruct Hit as [_ Hall].
    rewrite Forall_map, Forall_forall in Hall. apply Hall.
    apply filter_In. split; [exact Hb|]. unfold same_chain.
    apply Z.eqb_eq. symmetry. exact E.
Qed.

Lemma reshaper_records {re : str -> str -> result bool}
    {rl : list draw_record -> str -> str -> str -> result draw_table}
    (f : fit) (par x y : str) (t : draw_table) :
  fresh_labels x y = true ->
  draws_to_tibble_x_y re rl f par x y = Ok t ->
  exists long,
    extracted_draws re f par x y = Ok long /\
    t = mkTable x y
          (filter (fun r => variable_eqb (variable r) (Some par))
                  (groupby_apply assign_draw (stable_sort sort_key_leb long))).
Proof.
  intro Hfresh. unfold draws_to_tibble_x_y.
  destruct (extracted_draws re f par x y) as [long|e]; cbn [bind].
  - rewrite Hfresh. intro H. injection H as <-. exists long. split; reflexivity.
  - discriminate.
Qed.

(** A list in ascending [(chain_id, iteration)] order lists the iterations
    of each chain in ascending order. *)
Lemma iteration_within_chain (ch : Z) (l : list draw_record) :
  StronglySorted chain_iter_le (map chain_iter l) ->
  nondecreasing (map iter__ (filter (same_chain ch) l)).
Proof.
  unfold nondecreasing. induction l as [|a l IH]; simpl; intro H; [constructor|].
  apply StronglySorted_inv in H. destruct H as [Hs Ha].
  destruct (same_chain ch a) eqn:Ea; [|exact (IH Hs)].
  simpl. constructor; [exact (IH Hs)|].
  rewrite Forall_map. apply Forall_forall. intros b Hb.
  apply filter_In in Hb. destruct Hb as [Hb Hcb].
  rewrite Forall_map, Forall_forall in Ha. specialize (Ha b Hb).
  unfold same_chain in Ea, Hcb. apply Z.eqb_eq in Ea. apply Z.eqb_eq in Hcb.
  unfold chain_iter_le, chain_iter in Ha. simpl in Ha. lia.
Qed.

(** The rows of the group [(v, r, c)] in the reshaper's result. *)
Lemma reshaper_group (par : str) (v : option str) (r c : Z) (long : list draw_record) :
  filter (in_group (v, r, c))
    (filter (fun r => variable_eqb (variable r) (Some par))
            (groupby_apply assign_draw (stable_sort sort_key_leb long)))
  = if variable_eqb v (Some par)
    then assign_draw (stable_sort chain_leb (filter (in_group (v, r, c)) long))
    else [].
Proof.
  rewrite filter_comm. destruct (variable_eqb v (Some par)) eqn:E.
  - apply variable_eqb_eq in E. subst v.
    rewrite groupby_apply_group by discriminate.
    rewrite filter_everything; [rewrite sorted_group; reflexivity|].
    intros a Ha. apply assign_draw_group_keys in Ha. unfold key_of in Ha.
    injection Ha as -> _ _. apply variable_eqb_eq. reflexivity.
  - apply filter_nothing. intros a Ha. apply filter_In in Ha.
    destruct Ha as [_ Ha]. apply in_group_iff in Ha. unfold key_of in Ha.
    injection Ha as Hv _ _. rewrite Hv. exact E.
Qed.

(** C2, as the code has it.  For labels that name two new columns of the
    long table: within each [(variable, row, col)] group of the result of
    the Draw Reshaper the [draw__] column is exactly 1..N, N being the
    number of rows of the group; the rows of the group are in ascending
    [chain__] order; the rows of one chain are the rows that chain has in
    the long table, in the order they have there (the sort is stable and
    does not read the iteration); so the rows of the group are in ascending
    [(chain__, iter__)] order exactly when the long table lists the
    iterations of each chain of the group in ascending order. *)
Theorem draw_reshaper_renumbers_each_group
    (re : str -> str -> result bool)
    (rl : list draw_record -> str -> str -> str -> result draw_table)
    (f : fit) (par x y : str) (t : draw_table) :
  fresh_labels x y = true ->
  draws_to_tibble_x_y re rl f par x y = Ok t ->
  exists long,
    extracted_draws re f par x y = Ok long /\
    forall (v : option str) (r c : Z),
      let g := filter (in_group (v, r, c)) (records t) in
      map draw__ g = map Z.of_nat (seq 1 (length g)) /\
      nondecreasing (map chain__ g) /\
      (v = Some par ->
       length g = length (filter (in_group (v, r, c)) long) /\
       (forall ch,
          filter (same_chain ch) (map erase_draw g)
          = filter (same_chain ch)
              (map erase_draw (filter (in_group (v, r, c)) long))) /\
       (StronglySorted chain_iter_le (map chain_iter g) <->
        forall ch,
          nondecreasing
            (map iter__ (filter (same_chain ch) (filter (in_group (v, r, c)) long))))).
Proof.
  intros Hfresh H. apply reshaper_records in H; [|exact Hfresh].
  destruct H as [long [Hlong ->]].
  exists long. split; [exact Hlong|]. intros v r c. cbn [records].
  rewrite reshaper_group. destruct (variable_eqb v (Some par)) eqn:E.
  - cbv zeta. split; [|split].
    + rewrite assign_draw_draws, assign_draw_length. reflexivity.
    + rewrite assign_draw_chains. apply ascending_chains.
      apply stable_sort_ascending; [apply chain_leb_total | apply chain_leb_trans].
    + intros _. split; [|split].
      * rewrite assign_draw_length.
        apply Permutation_length, stable_sort_perm.
      * intro ch. rewrite assign_draw_erase.
        rewrite !(filter_map_comm (same_chain ch) (same_chain ch) erase_draw)
          by reflexivity.
        rewrite sorted_chain_stable. reflexivity.
      * rewrite assign_draw_chain_iter. split.
        -- intros Hs ch. rewrite <- sorted_chain_stable.
           apply iteration_within_chain. exact Hs.
        -- intro Hit. apply chain_then_iteration.
           ++ apply stable_sort_ascending;
                [apply chain_leb_total | apply chain_leb_trans].
           ++ intro ch. rewrite sorted_chain_stable. apply Hit.
  - cbv zeta. split; [reflexivity | split; [constructor|]].
    intros ->. rewrite (proj2 (variable_eqb_eq _ _) eq_refl) in E. discriminate.
Qed.

Lemma draw_reshaper_renumbers_each_group_witness :
  (fresh_labels col_C col_M = true /\
   draws_to_tibble_x_y plain_search refuse_overwritten unordered_fit (lit "beta")
     col_C col_M
   = Ok unordered_result) /\
  exists long,
    extracted_draws plain_search unordered_fit (lit "beta") col_C col_M = Ok long /\
    forall (v : option str) (r c : Z),
      let g := filter (in_group (v, r, c)) (records unordered_result) in
      map draw__ g = map Z.of_nat (seq 1 (length g)) /\
      nondecreasing (map chain__ g) /\
      (v = Some (lit "beta") ->
       length g = length (filter (in_group (v, r, c)) long) /\
       (forall ch,
          filter (same_chain ch) (map erase_draw g)
          = filter (same_chain ch)
              (map erase_draw (filter (in_group (v, r, c)) long))) /\
       (StronglySorted chain_iter_le (map chain_iter g) <->
        forall ch,
          nondecreasing
            (map iter__ (filter (same_chain ch) (filter (in_group (v, r, c)) long))))).
Proof.
  split; [split; vm_compute; reflexivity|].
  apply (draw_reshaper_renumbers_each_group plain_search refuse_overwritten
           unordered_fit (lit "beta") col_C col_M unordered_result).
  - reflexivity.
  - vm_compute. reflexivity.
Defined.

(** C2, as stated, fails: the sort of line 36 does not read the iteration.
    For a fit that lists iteration 2 of chain 1 before iteration 1, the Draw
    Reshaper numbers iteration 2 as draw 1 and iteration 1 as draw 2, and its
    rows are not in ascending [(chain__, iter__)] order. *)
Lemma renumbering_follows_the_order_of_the_fit :
  draws_to_tibble_x_y plain_search refuse_overwritten descending_fit (lit "beta")
    col_C col_M
  = Ok descending_result /\
  map (fun r => (chain__ r, iter__ r, draw__ r)) (records descending_result)
  = [(1, 2, 1); (1, 1, 2)] /\
  ~ StronglySorted chain_iter_le (map chain_iter (records descending_result)).
Proof.
  split; [vm_compute; reflexivity|]. split; [reflexivity|].
  intro H. apply StronglySorted_inv in H. destruct H as [_ H].
  apply Forall_inv in H. unfold chain_iter_le in H. simpl in H. lia.
Qed.

(** *** Unparsed names *)

Lemma mapM_raises {A B : Type} (f : A -> result B) (l : list A) (a : A) :
  In a l -> (exists e, f a = Raise e) -> exists e, mapM f l = Raise e.
Proof.
  intros Hin [e He]. induction l as [|b l IH]; [contradiction|]. simpl.
  destruct Hin as [->|Hin].
  - rewrite He. exists e. reflexivity.
  - destruct (f b) as [y|e']; [|exists e'; reflexivity].
    destruct (IH Hin) as [e'' ->]. exists e''. reflexivity.
Qed.

Lemma melt_In (df : draws_frame) (value_vars : list str) (name : str)
    (vals : list Q) (id : Z * Z * Z) (v : Q) :
  In (name, vals) (draw_columns df) ->
  mem_str name value_vars = true ->
  In (id, v) (combine (draw_ids df) vals) ->
  In (id, name, v) (melt df value_vars).
Proof.
  intros Hcol Hsel Hrow. unfold melt. apply in_flat_map.
  exists (name, vals). split; [exact Hcol|]. simpl. rewrite Hsel.
  apply in_map_iff. exists (id, v). split; [reflexivity | exact Hrow].
Qed.

Lemma str_extract_unparsed (name : str) :
  re_search index_pattern name = None ->
  str_extract name = mkExtracted None None None None.
Proof. intro H. unfold str_extract. rewrite H. reflexivity. Qed.

(** C3, as the code has it.  A selected draw column (one whose name
    contains [beta]) that holds at least one draw and whose name the
    index-extraction pattern does not match makes the Draw Reshaper raise:
    the conversion of its missing indices to integers fails, and no record
    is dropped. *)
Theorem draw_reshaper_raises_on_unparsed_name
    (re : str -> str -> result bool)
    (rl : list draw_record -> str -> str -> str -> result draw_table)
    (f : fit) (par x y name : str) (vals : list Q) :
  In (name, vals) (draw_columns (requested_draws f)) ->
  contains (lit "beta") name = true ->
  draw_ids (requested_draws f) <> [] ->
  vals <> [] ->
  re_search index_pattern name = None ->
  exists e, draws_to_tibble_x_y re rl f par x y = Raise e.
Proof.
  intros Hcol Hbeta Hids Hvals Hparse.
  unfold draws_to_tibble_x_y, extracted_draws.
  destruct (filterM (re par) (stan_variables f)) as [names|e];
    [|exists e; reflexivity].
  cbn [bind].
  destruct (draw_ids (requested_draws f)) as [|id ids] eqn:Eids; [contradiction|].
  destruct vals as [|v vals]; [contradiction|].
  set (long := melt (requested_draws f) _).
  set (groups := map _ long).
  assert (Hin : In (str_extract name) groups).
  { apply (in_map (fun r : Z * Z * Z * str * Q => str_extract (snd (fst r))) long
             (id, name, v)).
    apply (melt_In (requested_draws f) _ name (v :: vals)); [exact Hcol | |].
    - apply mem_str_In. apply filter_In. split; [|exact Hbeta].
      apply in_map_iff. exists (name, v :: vals). split; [reflexivity | exact Hcol].
    - rewrite Eids. left. reflexivity. }
  destruct (mapM_raises
              (fun e => astype_int (if str_eqb x y then e_y e else e_x e))
              groups (str_extract name) Hin) as [e He].
  { rewrite (str_extract_unparsed name Hparse). exists nan_to_int.
    destruct (str_eqb x y); reflexivity. }
  rewrite He. exists e. reflexivity.
Qed.

Lemma draw_reshaper_raises_on_unparsed_name_witness :
  (In (lit "beta", [1#2; 3#2]%Q) (draw_columns (requested_draws scalar_fit))
   /\ contains (lit "beta") (lit "beta") = true
   /\ re_search index_pattern (lit "beta") = None)
  /\ exists e,
       draws_to_tibble_x_y plain_search refuse_overwritten scalar_fit (lit "beta")
         col_C col_M = Raise e.
Proof.
  split.
  - split; [left; reflexivity | split; reflexivity].
  - apply (draw_reshaper_raises_on_unparsed_name plain_search refuse_overwritten
             scalar_fit (lit "beta") col_C col_M (lit "beta") [1#2; 3#2]%Q).
    + left. reflexivity.
    + reflexivity.
    + discriminate.
    + discriminate.
    + reflexivity.
Defined.

Lemma mapM_returns {A B : Type} (f : A -> result B) (l : list A) :
  (forall a, In a l -> exists b, f a = Ok b) -> exists bs, mapM f l = Ok bs.
Proof.
  induction l as [|a l IH]; intro H; simpl; [eauto|].
  destruct (H a (or_introl eq_refl)) as [b ->].
  destruct IH as [bs ->]; [intros x Hx; apply H; right; exact Hx|]. eauto.
Qed.

Lemma filterM_returns {A : Type} (f : A -> result bool) (l : list A) :
  (forall a, In a l -> exists b, f a = Ok b) -> exists r, filterM f l = Ok r.
Proof.
  induction l as [|a l IH]; intro H; simpl; [eauto|].
  destruct (H a (or_introl eq_refl)) as [b ->].
  destruct IH as [r ->]; [intros x Hx; apply H; right; exact Hx|]. eauto.
Qed.

Lemma melt_inv (df : draws_frame) (value_vars : list str) (name : str)
    (id : Z * Z * Z) (v : Q) :
  In (id, name, v) (melt df value_vars) ->
  exists vals,
    In (name, vals) (draw_columns df) /\
    mem_str name value_vars = true /\
    In (id, v) (combine (draw_ids df) vals).
Proof.
  unfold melt. rewrite in_flat_map. intros [[n vals] [Hcol Hrow]]. simpl in Hrow.
  destruct (mem_str n value_vars) eqn:E; [|contradiction].
  apply in_map_iff in Hrow. destruct Hrow as [[id' v'] [Heq Hin]].
  simpl in Heq. injection Heq as -> -> ->. exists vals. auto.
Qed.

Lemma index_extract_ok_inv (name : str) (v : option str) (r c : Z) :
  index_extract name = Ok (v, r, c) ->
  astype_int (e_x (str_extract name)) = Ok r /\
  astype_int (e_y (str_extract name)) = Ok c.
Proof.
  unfold index_extract.
  destruct (astype_int (e_x (str_extract name))) as [r'|e]; [|discriminate].
  cbn [bind].
  destruct (astype_int (e_y (str_extract name))) as [c'|e]; [|discriminate].
  cbn [bind]. intro H. injection H as _ -> ->. split; reflexivity.
Qed.

Lemma fresh_labels_distinct (x y : str) :
  fresh_labels x y = true -> str_eqb x y = false.
Proof.
  unfold fresh_labels. intro H. apply andb_true_iff in H. destruct H as [H _].
  apply andb_true_iff in H. destruct H as [H _]. apply negb_true_iff. exact H.
Qed.

(** Conversely, the conversions are the only step the Draw Reshaper fails
    at: for fresh labels, when the search of line 19 does not raise and
    lines 28 to 33 extract a variable and two integers from the name of
    every selected draw column that holds a draw, the reshaper returns a
    table. *)
Lemma draw_reshaper_returns_when_names_parse
    (re : str -> str -> result bool)
    (rl : list draw_record -> str -> str -> str -> result draw_table)
    (f : fit) (par x y : str) :
  fresh_labels x y = true ->
  (forall v, In v (stan_variables f) -> exists b, re par v = Ok b) ->
  (forall name vals,
      In (name, vals) (draw_columns (requested_draws f)) ->
      contains (lit "beta") name = true ->
      draw_ids (requested_draws f) <> [] ->
      vals <> [] ->
      exists v r c, index_extract name = Ok (v, r, c)) ->
  exists t, draws_to_tibble_x_y re rl f par x y = Ok t.
Proof.
  intros Hfresh Hre Hparse. unfold draws_to_tibble_x_y, extracted_draws.
  destruct (filterM_returns (re par) (stan_variables f) Hre) as [names ->].
  cbn [bind]. rewrite (fresh_labels_distinct x y Hfresh).
  set (long := melt (requested_draws f) _).
  set (groups := map _ long).
  assert (Hrows : forall e, In e groups ->
                    (exists r, astype_int (e_x e) = Ok r) /\
                    (exists c, astype_int (e_y e) = Ok c)).
  { intros e He. apply in_map_iff in He.
    destruct He as [[[id name] q] [<- Hrow]]. cbn [fst snd].
    apply melt_inv in Hrow. destruct Hrow as [vals [Hcol [Hsel Hin]]].
    apply mem_str_In in Hsel. apply filter_In in Hsel. destruct Hsel as [_ Hbeta].
    destruct (Hparse name vals Hcol Hbeta) as [v [r [c H]]].
    - intro E. rewrite E in Hin. contradiction.
    - intros ->. destruct (draw_ids (requested_draws f)); contradiction.
    - apply index_extract_ok_inv in H. destruct H as [Hx Hy]. eauto. }
  destruct (mapM_returns (fun e => astype_int (e_x e)) groups) as [xs ->].
  { intros e He. apply (Hrows e He). }
  cbn [bind].
  destruct (mapM_returns (fun e => astype_int (e_y e)) groups) as [ys ->].
  { intros e He. apply (Hrows e He). }
  cbn [bind]. rewrite Hfresh. eauto.
Qed.

(** C3, as stated, fails: the draw column of a scalar [beta] is selected,
    its name does not parse, and the Draw Reshaper raises instead of
    dropping it. *)
Lemma unparsed_name_is_fatal :
  contains (lit "beta") (lit "beta") = true /\
  re_search index_pattern (lit "beta") = None /\
  draws_to_tibble_x_y plain_search refuse_overwritten scalar_fit (lit "beta")
    col_C col_M = Raise nan_to_int.
Proof. split; [|split]; reflexivity. Qed.

(** *** The selected family *)

(** C4 at the failing input: the engine holds two [random_effect] draw
    columns of six draws each; the Draw Reshaper asked for [random_effect]
    requests and melts the [beta] columns, its long table is the one it
    builds for [beta], and its result has no row at all. *)
Theorem draw_reshaper_selects_beta_only
    (rl : list draw_record -> str -> str -> str -> result draw_table) :
  map fst (draw_columns (draws_pd example_fit [lit "random_effect"]))
  = [lit "random_effect[1,1]"; lit "random_effect[1,2]"] /\
  extracted_draws plain_search example_fit (lit "random_effect") col_C col_M
  = extracted_draws plain_search example_fit (lit "beta") col_C col_M /\
  draws_to_tibble_x_y plain_search rl example_fit (lit "random_effect") col_C col_M
  = Ok (mkTable col_C col_M []).
Proof. split; [|split]; vm_compute; reflexivity. Qed.

(** The long table does not depend on the pattern. *)
Lemma extracted_draws_ignores_pattern (f : fit) (par par' x y : str) :
  extracted_draws plain_search f par x y = extracted_draws plain_search f par' x y.
Proof.
  unfold extracted_draws.
  assert (H : forall p l, exists r, filterM (plain_search p) l = Ok r).
  { intros p l. induction l as [|a l [r IH]]; simpl; [exists []; reflexivity|].
    rewrite IH. eexists. reflexivity. }
  destruct (H par (stan_variables f)) as [r ->].
  destruct (H par' (stan_variables f)) as [r' ->]. reflexivity.
Qed.

(** *** Index Extractor *)

(** C5, as the code has it.  For every non-empty variable name v of
    letters, digits, underscores and dots, and all positive integers r and c
    below 2^63 (the 64-bit integers [astype(int)] converts to), the Index
    Extractor applied to [v[r,c]] recovers exactly (v, r, c) if and only if
    v is a single character or its first character is neither a digit from
    1 to 9 nor a dot; for the other names it still returns r and c, with a
    variable other than v. *)
Theorem index_extractor_recovers_exactly_when (a : ascii) (v : str) (r c : Z) :
  forallb cls_name (a :: v) = true ->
  0 < r < 2 ^ 63 -> 0 < c < 2 ^ 63 ->
  (index_extract (param_name (a :: v) r c) = Ok (Some (a :: v), r, c) <->
   v = [] \/ (cls_digit19 a = false /\ is_char "." a = false)) /\
  exists u, index_extract (param_name (a :: v) r c) = Ok (Some u, r, c).
Proof.
  intros Hv Hr Hc.
  destruct (index_extract_param_name a v r c Hv) as [u [Hu Hiff]];
    try (unfold int64_max; lia).
  split; [|exists u; exact Hu].
  rewrite Hu. rewrite <- Hiff. split.
  - intro H. injection H as ->. reflexivity.
  - intros ->. reflexivity.
Qed.

Lemma index_extractor_recovers_exactly_when_witness :
  (forallb cls_name (lit "b.c_1") = true /\ 0 < 12 < 2 ^ 63 /\ 0 < 345 < 2 ^ 63) /\
  (index_extract (param_name (lit "b.c_1") 12 345) = Ok (Some (lit "b.c_1"), 12, 345) <->
   lit ".c_1" = [] \/ (cls_digit19 "b" = false /\ is_char "." "b" = false)) /\
  exists u, index_extract (param_name (lit "b.c_1") 12 345) = Ok (Some u, 12, 345).
Proof.
  split.
  - split; [reflexivity | split; split; reflexivity].
  - apply (index_extractor_recovers_exactly_when "b" (lit ".c_1") 12 345);
      [reflexivity | split; reflexivity | split; reflexivity].
Defined.

(** C5, as stated, fails: a leading digit from 1 to 9 is read as the chain
    prefix, and the name recovered from [1beta[3,7]] is [beta]; and an index
    of 2^63 is beyond the integers [astype(int)] converts to, so that the
    Index Extractor raises on [beta[9223372036854775808,1]]. *)
Lemma index_extractor_strips_leading_digit :
  forallb cls_name (lit "1beta") = true /\
  index_extract (param_name (lit "1beta") 3 7) = Ok (Some (lit "beta"), 3, 7) /\
  index_extract (param_name (lit "1beta") 3 7) <> Ok (Some (lit "1beta"), 3, 7) /\
  param_name (lit "beta") (2 ^ 63) 1 = lit "beta[9223372036854775808,1]" /\
  index_extract (param_name (lit "beta") (2 ^ 63) 1) = Raise int_too_large.
Proof.
  split; [reflexivity|]. split; [reflexivity|].
  split; [vm_compute; discriminate|]. split; vm_compute; reflexivity.
Qed.

(** The largest index that converts. *)
Example index_extractor_at_the_largest_index :
  index_extract (lit "beta[9223372036854775807,1]")
  = Ok (Some (lit "beta"), 9223372036854775807, 1).
Proof. vm_compute. reflexivity. Qed.

(** A leading dot is taken by the optional separator of the chain prefix. *)
Example index_extractor_strips_leading_dot :
  index_extract (param_name (lit ".x") 3 7) = Ok (Some (lit "x"), 3, 7).
Proof. reflexivity. Qed.

Example index_extractor_on_beta :
  index_extract (lit "beta[3,7]") = Ok (Some (lit "beta"), 3, 7).
Proof. reflexivity. Qed.

Example index_extractor_with_chain_prefix :
  str_extract (lit "1.beta[3,7]")
  = mkExtracted (Some (lit "1")) (Some (lit "beta")) (Some (lit "3")) (Some (lit "7")).
Proof. reflexivity. Qed.

(** ** Contrast Evaluator *)

Lemma index_of_In (name : str) (cols : list str) (n : nat) :
  index_of name cols = Some n -> In name cols.
Proof.
  revert n. induction cols as [|c cols IH]; intros n; simpl; [discriminate|].
  destruct (str_eqb name c) eqn:E.
  - intros _. left. symmetry. apply str_eqb_eq. exact E.
  - destruct (index_of name cols); [|discriminate]. intros _. right.
    apply (IH n0). reflexivity.
Qed.

Lemma set_column_has (name : str) (vals : list cell) (f : frame) :
  In name (columns (set_column name vals f)).
Proof.
  unfold set_column. destruct (index_of name (columns f)) eqn:E; simpl.
  - apply (index_of_In _ _ _ E).
  - apply in_or_app. right. left. reflexivity.
Qed.

Lemma set_column_keeps (name c : str) (vals : list cell) (f : frame) :
  In c (columns f) -> In c (columns (set_column name vals f)).
Proof.
  intro H. unfold set_column. destruct (index_of name (columns f)); simpl.
  - exact H.
  - apply in_or_app. left. exact H.
Qed.

Section Evaluator.
Variable df_eval : frame -> str -> result (list cell).
Variable parameter_names : list str.
Variable ignore_errors : bool.

Lemma mutate_with_formula_frame (df : loc) (column_name formula : str)
    (st st' : pystate) (res : result loc) :
  mutate_with_formula df_eval parameter_names ignore_errors df column_name formula st
  = (res, st') ->
  (forall r, res = Ok r -> r = df) /\
  next st' = next st /\
  (forall l, l <> df -> heap st' l = heap st l) /\
  (forall c, In c (columns (heap st df)) -> In c (columns (heap st' df))).
Proof.
  unfold mutate_with_formula.
  destruct (df_eval (heap st df) (escape_column_names formula parameter_names))
    as [vals|e].
  - intro H. injection H as <- <-. repeat split.
    + intros r H. injection H as <-. reflexivity.
    + intros l Hl. simpl. apply Nat.eqb_neq in Hl. rewrite Hl. reflexivity.
    + intros c Hc. simpl. rewrite Nat.eqb_refl. apply set_column_keeps. exact Hc.
  - destruct ignore_errors; simpl; intro H; injection H as <- <-; repeat split;
      try discriminate; try (intros r H; injection H as <-; reflexivity); auto.
Qed.

Lemma mutate_with_formula_success (df : loc) (column_name formula : str)
    (st : pystate) (vals : list cell) :
  df_eval (heap st df) (escape_column_names formula parameter_names) = Ok vals ->
  exists st',
    mutate_with_formula df_eval parameter_names ignore_errors df column_name formula st
    = (Ok df, st') /\
    In column_name (columns (heap st' df)).
Proof.
  intro H. unfold mutate_with_formula. rewrite H. eexists. split; [reflexivity|].
  simpl. rewrite Nat.eqb_refl. apply set_column_has.
Qed.

(** The loop returns the reference it was given, creates no object, writes
    to no other object, and removes no column. *)
Lemma mutate_loop_frame (items : list (str * str)) (x : loc) (st st' : pystate)
    (res : result loc) :
  mutate_loop df_eval parameter_names ignore_errors items x st = (res, st') ->
  (forall r, res = Ok r -> r = x) /\
  next st' = next st /\
  (forall l, l <> x -> heap st' l = heap st l) /\
  (forall c, In c (columns (heap st x)) -> In c (columns (heap st' x))).
Proof.
  revert st. induction items as [|[new_col formula] items IH]; intros st H.
  - simpl in H. unfold ret in H. injection H as <- <-. repeat split; auto.
    intros r H. injection H as <-. reflexivity.
  - simpl in H. unfold bindM in H.
    destruct (mutate_with_formula df_eval parameter_names ignore_errors x
                new_col formula st) as [r1 st1] eqn:E1.
    destruct (mutate_with_formula_frame _ _ _ _ _ _ E1) as [Hr [Hn [Hh Hc]]].
    destruct r1 as [x1|e].
    + rewrite (Hr x1 eq_refl) in H. apply IH in H.
      destruct H as [Hr' [Hn' [Hh' Hc']]]. repeat split.
      * exact Hr'.
      * congruence.
      * intros l Hl. rewrite Hh', Hh by exact Hl. reflexivity.
      * intros c Hin. apply Hc', Hc. exact Hin.
    + injection H as <- <-. repeat split; try assumption; try discriminate.
Qed.

Lemma mutate_loop_app (pre rest : list (str * str)) (x : loc) (st : pystate) :
  mutate_loop df_eval parameter_names ignore_errors (pre ++ rest) x st
  = bindM (mutate_loop df_eval parameter_names ignore_errors pre x)
          (mutate_loop df_eval parameter_names ignore_errors rest) st.
Proof.
  revert x st. induction pre as [|[c f] pre IH]; intros x st; simpl.
  - reflexivity.
  - unfold bindM.
    destruct (mutate_with_formula df_eval parameter_names ignore_errors x c f st)
      as [[x1|e] st1]; [|reflexivity].
    rewrite IH. unfold bindM. reflexivity.
Qed.

(** A formula that evaluates successfully when its turn comes leaves its
    column in the object the loop was given. *)
Lemma mutate_loop_assigns (pre post : list (str * str)) (new_col formula : str)
    (x : loc) (st st1 : pystate) (vals : list cell) :
  mutate_loop df_eval parameter_names ignore_errors pre x st = (Ok x, st1) ->
  df_eval (heap st1 x) (escape_column_names formula parameter_names) = Ok vals ->
  exists res st',
    mutate_loop df_eval parameter_names ignore_errors
      (pre ++ (new_col, formula) :: post) x st = (res, st') /\
    In new_col (columns (heap st' x)) /\
    (forall r, res = Ok r -> r = x) /\
    next st' = next st.
Proof.
  intros Hpre Heval. rewrite mutate_loop_app. unfold bindM. rewrite Hpre.
  cbn [mutate_loop]. unfold bindM.
  destruct (mutate_with_formula_success x new_col formula st1 vals Heval)
    as [st2 [E2 Hin]]. rewrite E2.
  destruct (mutate_loop df_eval parameter_names ignore_errors post x st2)
    as [res st'] eqn:E3.
  exists res, st'. split; [reflexivity|].
  destruct (mutate_loop_frame _ _ _ _ _ E3) as [Hr [Hn [_ Hc]]].
  destruct (mutate_loop_frame _ _ _ _ _ Hpre) as [_ [Hn1 _]].
  destruct (mutate_with_formula_frame _ _ _ _ _ _ E2) as [_ [Hn2 _]].
  repeat split; [apply Hc; exact Hin | exact Hr | congruence].
Qed.
End Evaluator.

Lemma nonempty_false {X : Type} (l : list X) : nonempty l = false <-> l = [].
Proof. destruct l; simpl; split; congruence. Qed.

Lemma nonempty_true {X : Type} (l : list X) : nonempty l = true <-> l <> [].
Proof. destruct l; simpl; split; congruence. Qed.

Lemma warn_backquotes_state (pn : list str) (fe : list (str * str)) (st : pystate) :
  fst (warn_backquotes pn fe st) = Ok tt /\
  heap (snd (warn_backquotes pn fe st)) = heap st /\
  next (snd (warn_backquotes pn fe st)) = next st.
Proof.
  unfold warn_backquotes. simpl.
  destruct (nonempty _); repeat split; reflexivity.
Qed.

(** C7. The identifiers extracted from ["2/3*a - b"] are exactly [a] and
    [b]; and in strict mode, when at least one extracted identifier is
    absent from the table's columns, the Contrast Evaluator raises one
    validation error that carries every extracted identifier absent from the
    columns, before any formula is evaluated (the table is left as it
    was). *)
Theorem strict_mode_names_every_missing_identifier
    (df_eval : frame -> str -> result (list cell)) (x : loc)
    (formula_expr : formulas) (st : pystate) :
  missing_contrasts (columns (heap st x)) (normalise formula_expr) <> [] ->
  clean_contrast_elements (lit "2/3*a - b") = [lit "a"; lit "b"] /\
  exists st',
    mutate_from_expr_list df_eval x formula_expr false st
    = (Raise (ValueError not_present
                (missing_contrasts (columns (heap st x)) (normalise formula_expr))),
       st') /\
    heap st' = heap st /\
    forall e,
      In e (contrast_elements (normalise formula_expr)) ->
      ~ In e (columns (heap st x)) ->
      In e (missing_contrasts (columns (heap st x)) (normalise formula_expr)).
Proof.
  intro Hmissing. split; [vm_compute; reflexivity|].
  unfold mutate_from_expr_list, bindM.
  destruct (warn_backquotes (columns (heap st x)) (normalise formula_expr) st)
    as [r st1] eqn:Ew.
  pose proof (warn_backquotes_state (columns (heap st x)) (normalise formula_expr) st)
    as [Hr [Hh _]].
  rewrite Ew in Hr, Hh. simpl in Hr, Hh. subst r.
  apply nonempty_true in Hmissing. rewrite Hmissing. simpl.
  exists st1. split; [reflexivity|]. split; [exact Hh|].
  intros e He Hnot. unfold missing_contrasts. apply filter_In. split; [exact He|].
  apply negb_true_iff. destruct (mem_str e (columns (heap st x))) eqn:E;
    [|reflexivity].
  apply mem_str_In in E. contradiction.
Qed.

Lemma strict_mode_names_every_missing_identifier_witness :
  missing_contrasts (columns (heap one_column_state 0%nat))
    (normalise (FDict [(lit "contrast", lit "2/3*a - b")])) = [lit "b"] /\
  clean_contrast_elements (lit "2/3*a - b") = [lit "a"; lit "b"] /\
  exists st',
    mutate_from_expr_list column_eval 0%nat
      (FDict [(lit "contrast", lit "2/3*a - b")]) false one_column_state
    = (Raise (ValueError not_present
                (missing_contrasts (columns (heap one_column_state 0%nat))
                   (normalise (FDict [(lit "contrast", lit "2/3*a - b")])))),
       st') /\
    heap st' = heap one_column_state /\
    forall e,
      In e (contrast_elements (normalise (FDict [(lit "contrast", lit "2/3*a - b")]))) ->
      ~ In e (columns (heap one_column_state 0%nat)) ->
      In e (missing_contrasts (columns (heap one_column_state 0%nat))
              (normalise (FDict [(lit "contrast", lit "2/3*a - b")]))).
Proof.
  split; [vm_compute; reflexivity|].
  apply (strict_mode_names_every_missing_identifier column_eval 0%nat
           (FDict [(lit "contrast", lit "2/3*a - b")]) one_column_state).
  vm_compute. discriminate.
Defined.

(** ** The cells of a column *)

Lemma index_of_lt (name : str) (cols : list str) (n : nat) :
  index_of name cols = Some n -> (n < length cols)%nat.
Proof.
  revert n. induction cols as [|c cols IH]; intros n; simpl; [discriminate|].
  destruct (str_eqb name c).
  - intro H. injection H as <-. lia.
  - destruct (index_of name cols) as [m|]; [|discriminate].
    intro H. injection H as <-. specialize (IH m eq_refl). lia.
Qed.

Lemma index_of_nth (name : str) (cols : list str) (n : nat) :
  index_of name cols = Some n -> nth n cols [] = name.
Proof.
  revert n. induction cols as [|c cols IH]; intros n; simpl; [discriminate|].
  destruct (str_eqb name c) eqn:E.
  - intro H. injection H as <-. symmetry. apply str_eqb_eq. exact E.
  - destruct (index_of name cols) as [m|]; [|discriminate].
    intro H. injection H as <-. apply IH. reflexivity.
Qed.

Lemma index_of_missing (name : str) (cols : list str) :
  index_of name cols = None -> mem_str name cols = false.
Proof.
  induction cols as [|c cols IH]; simpl; [reflexivity|].
  destruct (str_eqb name c); [discriminate|].
  destruct (index_of name cols); [discriminate|]. intros _. apply IH. reflexivity.
Qed.

Lemma index_of_present (name : str) (cols : list str) :
  mem_str name cols = true -> exists n, index_of name cols = Some n.
Proof.
  intro H. destruct (index_of name cols) as [n|] eqn:E; [eauto|].
  apply index_of_missing in E. congruence.
Qed.

Lemma index_of_app_new (name : str) (cols : list str) :
  index_of name cols = None -> index_of name (cols ++ [name]) = Some (length cols).
Proof.
  induction cols as [|c cols IH]; simpl.
  - intros _. rewrite str_eqb_refl. reflexivity.
  - destruct (str_eqb name c); [discriminate|].
    destruct (index_of name cols); [discriminate|]. intros _.
    rewrite (IH eq_refl). reflexivity.
Qed.

Lemma index_of_app_other (c name : str) (cols : list str) :
  c <> name -> index_of c (cols ++ [name]) = index_of c cols.
Proof.
  intro H. induction cols as [|d cols IH]; simpl.
  - rewrite (proj2 (str_eqb_neq c name) H). reflexivity.
  - rewrite IH. reflexivity.
Qed.

Lemma replace_nth_length {X : Type} (n : nat) (a : X) (l : list X) :
  length (replace_nth n a l) = length l.
Proof.
  revert n. induction l as [|b l IH]; intros [|n]; simpl; try reflexivity.
  rewrite IH. reflexivity.
Qed.

Lemma replace_nth_same {X : Type} (n : nat) (a d : X) (l : list X) :
  (n < length l)%nat -> nth n (replace_nth n a l) d = a.
Proof.
  revert n. induction l as [|b l IH]; intros [|n]; simpl; try lia; [reflexivity|].
  intro H. apply IH. lia.
Qed.

Lemma replace_nth_other {X : Type} (n m : nat) (a d : X) (l : list X) :
  n <> m -> nth m (replace_nth n a l) d = nth m l d.
Proof.
  revert n m. induction l as [|b l IH]; intros [|n] [|m] H; simpl; try reflexivity;
    try contradiction.
  apply IH. lia.
Qed.

Lemma combine_seq_fst {A : Type} (l : list A) (s : nat) :
  map fst (combine l (seq s (length l))) = l.
Proof.
  revert s. induction l as [|a l IH]; intro s; simpl; [reflexivity|].
  rewrite IH. reflexivity.
Qed.

Lemma rectangular_row (f : frame) (row : list cell) :
  rectangular f = true -> In row (rows f) -> length row = length (columns f).
Proof.
  unfold rectangular. rewrite forallb_forall. intros H Hin.
  apply Nat.eqb_eq. apply H. exact Hin.
Qed.

Lemma set_column_rectangular (name : str) (vals : list cell) (f : frame) :
  rectangular f = true -> rectangular (set_column name vals f) = true.
Proof.
  intro Hf. unfold rectangular, set_column.
  destruct (index_of name (columns f)) as [n|]; cbn [rows columns];
    apply forallb_forall; intros row Hrow; apply in_map_iff in Hrow;
    destruct Hrow as [[r i] [<- Hin]]; apply in_combine_l in Hin; cbn [fst snd];
    apply Nat.eqb_eq.
  - rewrite replace_nth_length. apply (rectangular_row f r Hf Hin).
  - rewrite !length_app, (rectangular_row f r Hf Hin). reflexivity.
Qed.

(** After [df[name] = vals] the column [name] holds [vals], one value per
    row, a missing value where [vals] is too short. *)
Lemma column_values_set_same (name : str) (vals : list cell) (f : frame) :
  rectangular f = true ->
  column_values name (set_column name vals f)
  = Ok (map (fun i => nth i vals CNaN) (seq 0 (length (rows f)))).
Proof.
  intro Hf. unfold column_values.
  rewrite (proj2 (mem_str_In _ _) (set_column_has name vals f)).
  f_equal. rewrite <- (combine_seq_snd (rows f) 0).
  unfold set_column. destruct (index_of name (columns f)) as [n|] eqn:E;
    cbn [rows columns]; rewrite !map_map; apply map_ext_in;
    intros [r i] Hin; apply in_combine_l in Hin; cbn [fst snd];
    pose proof (rectangular_row f r Hf Hin) as Hlen; unfold cell_at.
  - rewrite E. apply replace_nth_same. rewrite Hlen. apply (index_of_lt _ _ _ E).
  - rewrite (index_of_app_new _ _ E), <- Hlen, nth_middle. reflexivity.
Qed.

(** And every other column keeps its cells. *)
Lemma column_values_set_other (c name : str) (vals : list cell) (f : frame) :
  rectangular f = true -> c <> name ->
  column_values c (set_column name vals f) = column_values c f.
Proof.
  intros Hf Hne. unfold column_values.
  assert (Hmem : mem_str c (columns (set_column name vals f)) = mem_str c (columns f)).
  { unfold set_column. destruct (index_of name (columns f)); cbn [columns];
      [reflexivity|].
    unfold mem_str. rewrite existsb_app. simpl.
    rewrite (proj2 (str_eqb_neq c name) Hne). rewrite !orb_false_r. reflexivity. }
  rewrite Hmem. destruct (mem_str c (columns f)) eqn:Ec; [|reflexivity].
  f_equal. rewrite <- (combine_seq_fst (rows f) 0).
  destruct (index_of_present c (columns f) Ec) as [j Ej].
  unfold set_column. destruct (index_of name (columns f)) as [n|] eqn:E;
    cbn [rows columns]; rewrite !map_map; apply map_ext_in;
    intros [r i] Hin; apply in_combine_l in Hin; cbn [fst snd];
    pose proof (rectangular_row f r Hf Hin) as Hlen; unfold cell_at.
  - rewrite Ej. apply replace_nth_other. intros ->.
    apply index_of_nth in E. apply index_of_nth in Ej. congruence.
  - rewrite (index_of_app_other c name _ Hne), Ej.
    apply app_nth1. rewrite Hlen. apply (index_of_lt _ _ _ Ej).
Qed.

Lemma nth_seq_all {X : Type} (d : X) (l : list X) :
  map (fun i => nth i l d) (seq 0 (length l)) = l.
Proof.
  induction l as [|a l IH]; simpl; [reflexivity|].
  f_equal. rewrite <- seq_shift, map_map. exact IH.
Qed.

Section EvaluatorValues.
Variable df_eval : frame -> str -> result (list cell).
Variable parameter_names : list str.
Variable ignore_errors : bool.

(** A formula leaves the table rectangular, with the rows it had, and
    leaves the cells of every column but its own. *)
Lemma mutate_with_formula_cells (df : loc) (column_name formula : str)
    (st st' : pystate) (res : result loc) :
  rectangular (heap st df) = true ->
  mutate_with_formula df_eval parameter_names ignore_errors df column_name formula st
  = (res, st') ->
  rectangular (heap st' df) = true /\
  length (rows (heap st' df)) = length (rows (heap st df)) /\
  forall c, c <> column_name ->
            column_values c (heap st' df) = column_values c (heap st df).
Proof.
  intro Hrect. unfold mutate_with_formula.
  destruct (df_eval (heap st df) (escape_column_names formula parameter_names))
    as [vals|e].
  - intro H. injection H as _ <-. cbn [heap heap_set]. rewrite Nat.eqb_refl.
    split; [apply set_column_rectangular; exact Hrect|]. split.
    + unfold set_column. destruct (index_of column_name (columns (heap st df)));
        cbn [rows]; rewrite length_map, length_combine, length_seq; lia.
    + intros c Hc. apply column_values_set_other; assumption.
  - destruct (negb ignore_errors); intro H; injection H as _ <-;
      cbn [heap print]; auto.
Qed.

Lemma mutate_loop_cells (items : list (str * str)) (x : loc) (st st' : pystate)
    (res : result loc) :
  rectangular (heap st x) = true ->
  mutate_loop df_eval parameter_names ignore_errors items x st = (res, st') ->
  rectangular (heap st' x) = true /\
  length (rows (heap st' x)) = length (rows (heap st x)) /\
  forall c, ~ In c (map fst items) ->
            column_values c (heap st' x) = column_values c (heap st x).
Proof.
  revert st. induction items as [|[new_col formula] items IH]; intros st Hrect H.
  - simpl in H. unfold ret in H. injection H as _ <-. auto.
  - simpl in H. unfold bindM in H.
    destruct (mutate_with_formula df_eval parameter_names ignore_errors x
                new_col formula st) as [r1 st1] eqn:E1.
    destruct (mutate_with_formula_cells _ _ _ _ _ _ Hrect E1) as [Hr1 [Hl1 Hc1]].
    destruct (mutate_with_formula_frame _ _ _ _ _ _ _ _ _ E1) as [Hx _].
    destruct r1 as [x1|e].
    + rewrite (Hx x1 eq_refl) in H.
      destruct (IH st1 Hr1 H) as [Hr2 [Hl2 Hc2]].
      split; [exact Hr2|]. split; [congruence|].
      intros c Hc. simpl in Hc. rewrite Hc2, Hc1; [reflexivity | |];
        intuition congruence.
    + injection H as _ <-. split; [exact Hr1|]. split; [exact Hl1|].
      intros c Hc. simpl in Hc. apply Hc1. intuition congruence.
Qed.

(** A formula that evaluates successfully writes its values into its
    column. *)
Lemma mutate_with_formula_values (df : loc) (column_name formula : str)
    (st : pystate) (vals : list cell) :
  rectangular (heap st df) = true ->
  df_eval (heap st df) (escape_column_names formula parameter_names) = Ok vals ->
  length vals = length (rows (heap st df)) ->
  exists st',
    mutate_with_formula df_eval parameter_names ignore_errors df column_name formula st
    = (Ok df, st') /\
    column_values column_name (heap st' df) = Ok vals.
Proof.
  intros Hrect H Hlen. unfold mutate_with_formula. rewrite H.
  eexists. split; [reflexivity|]. cbn [heap heap_set]. rewrite Nat.eqb_refl.
  rewrite (column_values_set_same _ _ _ Hrect), <- Hlen, nth_seq_all. reflexivity.
Qed.
End EvaluatorValues.

(** C10. When the call gets past the validation and a formula evaluates
    successfully on the table as it stands when its turn comes, with one
    value per row, the Contrast Evaluator assigns the derived column into
    the caller's table object: after the call the column of that name in the
    object the argument refers to holds the values the formula evaluated to
    (no later formula having the same name), the reference returned is the
    argument itself, and no table object was created. *)
Theorem contrast_evaluator_assigns_into_argument
    (df_eval : frame -> str -> result (list cell)) (x : loc)
    (formula_expr : formulas) (ignore_errors : bool)
    (pre post : list (str * str)) (new_col formula : str)
    (st st1 : pystate) (vals : list cell) :
  rectangular (heap st x) = true ->
  normalise formula_expr = pre ++ (new_col, formula) :: post ->
  nonempty (missing_contrasts (columns (heap st x)) (normalise formula_expr))
    && negb ignore_errors = false ->
  mutate_loop df_eval (columns (heap st x)) ignore_errors pre x
    (snd (warn_backquotes (columns (heap st x)) (normalise formula_expr) st))
  = (Ok x, st1) ->
  df_eval (heap st1 x) (escape_column_names formula (columns (heap st x))) = Ok vals ->
  length vals = length (rows (heap st1 x)) ->
  ~ In new_col (map fst post) ->
  exists res st',
    mutate_from_expr_list df_eval x formula_expr ignore_errors st = (res, st') /\
    column_values new_col (heap st' x) = Ok vals /\
    In new_col (columns (heap st' x)) /\
    (forall r, res = Ok r -> r = x) /\
    next st' = next st.
Proof.
  intros Hrect Hitems Hvalid Hpre Heval Hlen Hlast.
  unfold mutate_from_expr_list, bindM.
  pose proof (warn_backquotes_state (columns (heap st x)) (normalise formula_expr) st)
    as [Hr [Hh Hn]].
  destruct (warn_backquotes (columns (heap st x)) (normalise formula_expr) st)
    as [r st0].
  simpl in Hr, Hh, Hn, Hpre. subst r.
  rewrite Hvalid, Hitems.
  assert (Hrect0 : rectangular (heap st0 x) = true) by (rewrite Hh; exact Hrect).
  destruct (mutate_loop_cells _ _ _ _ _ _ _ _ Hrect0 Hpre) as [Hrect1 _].
  destruct (mutate_loop_frame _ _ _ _ _ _ _ _ Hpre) as [_ [Hn1 _]].
  rewrite mutate_loop_app. unfold bindM. rewrite Hpre.
  cbn [mutate_loop]. unfold bindM.
  destruct (mutate_with_formula_values df_eval (columns (heap st x)) ignore_errors
              x new_col formula st1 vals Hrect1 Heval Hlen) as [st2 [E2 Hvals]].
  rewrite E2.
  destruct (mutate_with_formula_cells _ _ _ _ _ _ _ _ _ Hrect1 E2) as [Hrect2 _].
  destruct (mutate_with_formula_frame _ _ _ _ _ _ _ _ _ E2) as [_ [Hn2 _]].
  destruct (mutate_loop df_eval (columns (heap st x)) ignore_errors post x st2)
    as [res st'] eqn:E3.
  destruct (mutate_loop_cells _ _ _ _ _ _ _ _ Hrect2 E3) as [_ [_ Hkeep]].
  destruct (mutate_loop_frame _ _ _ _ _ _ _ _ E3) as [Hres [Hn3 _]].
  exists res, st'. split; [reflexivity|].
  assert (Hcol : column_values new_col (heap st' x) = Ok vals).
  { rewrite (Hkeep new_col Hlast). exact Hvals. }
  split; [exact Hcol|]. split.
  - unfold column_values in Hcol.
    destruct (mem_str new_col (columns (heap st' x))) eqn:Em; [|discriminate].
    apply mem_str_In. exact Em.
  - split; [exact Hres | congruence].
Qed.

Lemma contrast_evaluator_assigns_into_argument_witness :
  (rectangular (heap one_column_state 0%nat) = true /\
   normalise (FDict [(lit "c", lit "a")]) = [] ++ (lit "c", lit "a") :: [] /\
   column_eval (heap one_column_state 0%nat)
     (escape_column_names (lit "a") (columns (heap one_column_state 0%nat)))
   = Ok [CNum (1#1); CNum (2#1)]) /\
  exists res st',
    mutate_from_expr_list column_eval 0%nat (FDict [(lit "c", lit "a")]) true
      one_column_state = (res, st') /\
    column_values (lit "c") (heap st' 0%nat) = Ok [CNum (1#1); CNum (2#1)] /\
    In (lit "c") (columns (heap st' 0%nat)) /\
    (forall r, res = Ok r -> r = 0%nat) /\
    next st' = next one_column_state.
Proof.
  split; [split; [|split]; vm_compute; reflexivity|].
  apply (contrast_evaluator_assigns_into_argument column_eval 0%nat
           (FDict [(lit "c", lit "a")]) true [] [] (lit "c") (lit "a")
           one_column_state one_column_state [CNum (1#1); CNum (2#1)]).
  - reflexivity.
  - reflexivity.
  - reflexivity.
  - reflexivity.
  - reflexivity.
  - reflexivity.
  - intros [].
Defined.

(** ** Summary Reshaper *)

(** A summary without one of the two diagnostic columns makes the Summary
    Reshaper raise at the selection of line 60, so that lines 81 to 84 never
    add a column. *)
Lemma summary_reshaper_requires_diagnostics
    (re : str -> str -> result bool) (f : fit) (par x : str) (y : option str)
    (probs : list Z) :
  ~ In (lit "N_Eff") (columns (summary_data (summary f probs))) \/
  ~ In (lit "R_hat") (columns (summary_data (summary f probs))) ->
  exists e, summary_to_tibble re f par x y probs = Raise e.
Proof.
  intro H. unfold summary_to_tibble.
  destruct (filter_index re par (summary f probs)) as [filtered|e];
    [|exists e; reflexivity].
  cbn [bind]. unfold select_columns. cbn [columns].
  match goal with
  | |- context [filter ?p ?names] => destruct (filter p names) as [|m ms] eqn:E
  end.
  - exfalso.
    assert (Hall : forall n,
               In n ([lit "Mean"] ++ prob_cols probs ++ [lit "N_Eff"; lit "R_hat"]) ->
               In n (columns (summary_data (summary f probs)))).
    { intros n Hn. apply mem_str_In.
      destruct (mem_str n (columns (summary_data (summary f probs)))) eqn:Em;
        [reflexivity|].
      assert (Hin : In n []).
      { rewrite <- E. apply filter_In. split; [exact Hn|]. rewrite Em. reflexivity. }
      contradiction. }
    destruct H as [H|H]; apply H; apply Hall; apply in_or_app; right;
      apply in_or_app; right; simpl; tauto.
  - exists (KeyError (m :: ms)). reflexivity.
Qed.

(** C8 at the failing input: for a summary that omits the effective sample
    size and the r-hat, the Summary Reshaper raises a [KeyError] naming the
    two columns instead of returning a table that holds them as NaN. *)
Theorem summary_reshaper_raises_without_diagnostics :
  mem_str (lit "N_Eff")
    (columns (summary_data (summary fit_without_diagnostics default_probs))) = false /\
  mem_str (lit "R_hat")
    (columns (summary_data (summary fit_without_diagnostics default_probs))) = false /\
  summary_to_tibble plain_search fit_without_diagnostics (lit "beta") col_C (Some col_M)
    default_probs
  = Raise (KeyError [lit "N_Eff"; lit "R_hat"]).
Proof. split; [|split]; vm_compute; reflexivity. Qed.

(** ** Orchestrator *)

(** On fresh labels the Draw Reshaper is its own lines 36 to 41, whatever
    the engine does with other labels. *)
Lemma reshaper_fresh (re : str -> str -> result bool)
    (rl : list draw_record -> str -> str -> str -> result draw_table)
    (f : fit) (par x y : str) :
  fresh_labels x y = true ->
  draws_to_tibble_x_y re rl f par x y
  = bind (extracted_draws re f par x y)
      (fun long =>
         Ok (mkTable x y
               (filter (fun r => variable_eqb (variable r) (Some par))
                  (groupby_apply assign_draw (stable_sort sort_key_leb long))))).
Proof.
  intro Hfresh. unfold draws_to_tibble_x_y.
  destruct (extracted_draws re f par x y); cbn [bind]; [|reflexivity].
  rewrite Hfresh. reflexivity.
Qed.

Lemma reshaper_labels {re : str -> str -> result bool}
    {rl : list draw_record -> str -> str -> str -> result draw_table}
    (f : fit) (par x y : str) (t : draw_table) :
  fresh_labels x y = true ->
  draws_to_tibble_x_y re rl f par x y = Ok t -> x_label t = x /\ y_label t = y.
Proof.
  intros Hfresh H. apply reshaper_records in H; [|exact Hfresh].
  destruct H as [long [_ ->]]. split; reflexivity.
Qed.

(** The draw table has a [value] column and no [.value] column. *)
Lemma groupby_sum_dot_value (recs : list draw_record) :
  groupby_sum [col_C; lit "chain__"; lit "iter__"; lit "draw__"; lit "variable"]
              (lit ".value") (to_frame (mkTable col_C col_M recs))
  = Raise (KeyError [lit ".value"]).
Proof. vm_compute. reflexivity. Qed.

(** And no [.variable] column. *)
Lemma groupby_sum_dot_variable (recs : list draw_record) :
  groupby_sum [col_C; lit "chain__"; lit "iter__"; lit "draw__"; lit ".variable"]
              (lit "value") (to_frame (mkTable col_C col_M recs))
  = Raise (KeyError [lit ".variable"]).
Proof. vm_compute. reflexivity. Qed.

Section Stages.
Variable re : str -> str -> result bool.

(** The error of a random-effect stage, which depends neither on the merge
    primitive nor on what the engine does with other labels. *)
Lemma random_effect_stage_error (f : fit) :
  exists e, forall rl mg labels draws,
    random_effect_stage re rl mg f labels draws = Raise e.
Proof.
  destruct (extracted_draws re f (lit "random_effect") col_C col_M) as [long|e] eqn:E.
  - exists (KeyError [lit ".value"]). intros rl mg labels draws.
    unfold random_effect_stage. rewrite reshaper_fresh by reflexivity.
    rewrite E. cbn [bind]. rewrite groupby_sum_dot_value. reflexivity.
  - exists e. intros rl mg labels draws.
    unfold random_effect_stage. rewrite reshaper_fresh by reflexivity.
    rewrite E. reflexivity.
Qed.

Lemma random_effect_2_stage_error (f : fit) :
  exists e, forall rl mg labels draws,
    random_effect_2_stage re rl mg f labels draws = Raise e.
Proof.
  destruct (extracted_draws re f (lit "random_effect_2") col_C col_M) as [long|e] eqn:E.
  - exists (KeyError [lit ".variable"]). intros rl mg labels draws.
    unfold random_effect_2_stage. rewrite reshaper_fresh by reflexivity.
    rewrite E. cbn [bind]. rewrite groupby_sum_dot_variable. reflexivity.
  - exists e. intros rl mg labels draws.
    unfold random_effect_2_stage. rewrite reshaper_fresh by reflexivity.
    rewrite E. reflexivity.
Qed.

(** With a random-effect group declared, the assembly of the draws
    raises. *)
Lemma assemble_draws_raises
    (rl : list draw_record -> str -> str -> str -> result draw_table)
    (mg : frame -> wide -> result frame) (d : data) :
  0 < get_n_random_eff (data_model_input d) ->
  exists e, assemble_draws re rl mg d = Raise e.
Proof.
  intro Hn. unfold assemble_draws.
  destruct (primary_matrix re rl (data_fit d) (data_model_input d)) as [[f draws]|e];
    [|exists e; reflexivity].
  cbn [bind]. apply Z.ltb_lt in Hn. rewrite Hn.
  destruct (random_effect_stage_error f) as [e He]. rewrite He.
  exists e. reflexivity.
Qed.
End Stages.

(** C6 at the code: whatever the merge primitive does, each of the two
    random-effect stages raises on every input, with an error that does not
    depend on the merge primitive: the left-merges of lines 186 and 202 are
    never reached, and no merged table is produced. *)
Theorem random_effect_stages_raise_before_merging
    (re : str -> str -> result bool) (f : fit) :
  (exists e, forall rl mg labels draws,
      random_effect_stage re rl mg f labels draws = Raise e) /\
  (exists e, forall rl mg labels draws,
      random_effect_2_stage re rl mg f labels draws = Raise e).
Proof.
  split; [apply random_effect_stage_error | apply random_effect_2_stage_error].
Qed.

(** C1 at the failing input: for the example model with one random-effect
    group, whatever the engines, the module namespace and the contrasts, the
    orchestrator raises [KeyError] on the column [.value] at line 178; no
    synthetic level is derived. *)
Theorem random_effect_level_is_never_derived
    (rl : list draw_record -> str -> str -> str -> result draw_table)
    (df_eval : frame -> str -> result (list cell))
    (mg : frame -> wide -> result frame) (g : globals)
    (contrasts : option formulas) (st : pystate) :
  get_abundance_contrast_draws plain_search rl df_eval mg g (example_data 1) contrasts st
  = (Raise (KeyError [lit ".value"]), st).
Proof.
  unfold get_abundance_contrast_draws, bindM, lift.
  replace (assemble_draws plain_search rl mg (example_data 1))
    with (@Raise (fit * frame) (KeyError [lit ".value"])); [reflexivity|].
  unfold assemble_draws.
  destruct (primary_matrix plain_search rl (data_fit (example_data 1))
              (data_model_input (example_data 1))) as [[f draws]|e] eqn:E.
  - cbn [bind]. change (0 <? get_n_random_eff (data_model_input (example_data 1)))
      with true. cbv iota.
    assert (Hf : f = example_fit).
    { revert E. unfold primary_matrix. cbn [example_data data_fit data_model_input
        get_attr bind X].
      destruct (draws_to_tibble_x_y plain_search rl example_fit (lit "beta") col_C col_M);
        cbn [bind]; [|discriminate].
      destruct (pivot _ _ _ _); cbn [bind]; [|discriminate].
      destruct (set_labels _ _); cbn [bind]; [|discriminate].
      destruct (reset_wide_index _); cbn [bind]; [|discriminate].
      intro H. injection H as <- _. reflexivity. }
    subst f. unfold random_effect_stage.
    replace (draws_to_tibble_x_y plain_search rl example_fit (lit "random_effect") col_C col_M)
      with (Ok (mkTable col_C col_M [])) by (vm_compute; reflexivity).
    cbn [bind]. rewrite groupby_sum_dot_value. reflexivity.
  - exfalso. revert E. vm_compute. discriminate.
Qed.

(** C9 at the code: under the module's own namespace, which binds neither
    [y] nor [TRUE], every invocation of the orchestrator raises, whatever
    the engines, the model and the contrasts; it returns neither the pairs
    nor the diagnostics. *)
Theorem orchestrator_always_raises
    (re : str -> str -> result bool)
    (rl : list draw_record -> str -> str -> str -> result draw_table)
    (df_eval : frame -> str -> result (list cell))
    (mg : frame -> wide -> result frame)
    (d : data) (contrasts : option formulas) (st : pystate) :
  exists e,
    fst (get_abundance_contrast_draws re rl df_eval mg utilities_globals d contrasts st)
    = Raise e.
Proof.
  unfold get_abundance_contrast_draws, bindM, lift.
  destruct (assemble_draws re rl mg d) as [[f draws]|e]; [|exists e; reflexivity].
  cbn [snd fst]. unfold apply_contrasts.
  destruct contrasts as [fe|].
  - destruct (truthy_formulas (Some fe)).
    + exists (NameError (lit "TRUE")). reflexivity.
    + exists (NameError (lit "y")). reflexivity.
  - exists (NameError (lit "y")). reflexivity.
Qed.

(** The spec's end-to-end example: two chains of three draws, [beta] of
    shape 2 x 2, no random effect, no contrasts. *)
Lemma orchestrator_example_raises
    (rl : list draw_record -> str -> str -> str -> result draw_table)
    (st : pystate) :
  get_abundance_contrast_draws plain_search rl column_eval no_merge utilities_globals
    (example_data 0) None st
  = (Raise (NameError (lit "y")), st).
Proof.
  unfold get_abundance_contrast_draws, bindM, lift.
  destruct (assemble_draws plain_search rl no_merge (example_data 0))
    as [[f draws]|e] eqn:E.
  - reflexivity.
  - exfalso. revert E. vm_compute. discriminate.
Qed.

(** Were [y] bound, the branch of the diagnostics would still return
    nothing: a table the orchestrator returns is the table of the pairs,
    with its two columns. *)
Lemma orchestrator_returns_pairs_only
    (re : str -> str -> result bool) (g : globals) (d : data) (f : fit)
    (draws t : frame) :
  attach_and_finish re g d f draws = Ok (Some t) -> length (columns t) = 2%nat.
Proof.
  unfold attach_and_finish.
  destruct (lookup_name "y" (g_y g)) as [y|e]; cbn [bind]; [|discriminate].
  destruct (match y with
            | Some y_columns => attach_cell_names (cell_group d) y_columns draws
            | None => Ok draws
            end) as [draws'|e]; cbn [bind]; [|discriminate].
  destruct (length (columns draws') <=? 5)%nat.
  - destruct (cell_group d) as [name|]; cbn [bind]; [|discriminate].
    unfold select_columns.
    destruct (filter _ [name; col_M]); cbn [bind]; [|discriminate].
    intro H. injection H as <-. reflexivity.
  - destruct (summary_to_tibble re f (lit "beta") col_C (Some col_M) default_probs);
      cbn [bind]; discriminate.
Qed.

Lemma orchestrator_example_with_y_bound :
  fst (get_abundance_contrast_draws plain_search refuse_overwritten column_eval
         no_merge bound_globals (example_data 0) None empty_state)
  = Ok None.
Proof. vm_compute. reflexivity. Qed.

(** * Further properties *)

(** ** Index Extractor: the chain prefix *)

Lemma index_pattern_with_chain_prefix (whole : nat) (d v : str) (r c : Z) :
  d <> [] -> forallb cls_digit19 d = true ->
  v <> [] -> forallb cls_name v = true ->
  0 <= r -> 0 <= c ->
  match_at whole index_pattern (d ++ lit "." ++ param_name v r c)
  = Some (lit "]",
          [(4%nat, py_str c); (3%nat, py_str r); (2%nat, v); (1%nat, d)]).
Proof.
  intros Hd Hd19 Hv Hname Hr Hc. unfold match_at, index_pattern.
  rewrite rmatch_cat, rmatch_opt.
  rewrite (group_plus_greedy whole 1 cls_digit19 d (lit "." ++ param_name v r c) []
             _ (lit "]", [(4%nat, py_str c); (3%nat, py_str r); (2%nat, v); (1%nat, d)])
             Hd Hd19); [reflexivity | reflexivity |].
  unfold param_name.
  change (lit "." ++ v ++ index_suffix r c) with (("."%char :: v) ++ index_suffix r c).
  rewrite (match_separator whole r c Hr Hc "." v).
  - destruct v; [contradiction | reflexivity].
  - simpl. exact Hname.
Qed.

(** A parameter name with a chain prefix, [d.v[r,c]] with [d] a run of
    digits from 1 to 9 and indices within the 64-bit integers of
    [astype(int)]: the four groups are the prefix, the variable and the two
    numerals, and the Index Extractor returns (v, r, c). *)
Theorem index_extractor_reads_chain_prefix (d v : str) (r c : Z) :
  d <> [] -> forallb cls_digit19 d = true ->
  v <> [] -> forallb cls_name v = true ->
  0 <= r < 2 ^ 63 -> 0 <= c < 2 ^ 63 ->
  str_extract (d ++ lit "." ++ param_name v r c)
  = mkExtracted (Some d) (Some v) (Some (py_str r)) (Some (py_str c)) /\
  index_extract (d ++ lit "." ++ param_name v r c) = Ok (Some v, r, c).
Proof.
  intros Hd Hd19 Hv Hname [Hr Hr63] [Hc Hc63].
  assert (E : str_extract (d ++ lit "." ++ param_name v r c)
              = mkExtracted (Some d) (Some v) (Some (py_str r)) (Some (py_str c))).
  { unfold str_extract, re_search.
    rewrite (search_from_hit _ _ _ _
               (index_pattern_with_chain_prefix _ d v r c Hd Hd19 Hv Hname Hr Hc)).
    reflexivity. }
  split; [exact E|]. unfold index_extract. rewrite E. cbn [e_x e_y e_variable].
  rewrite (astype_int_py_str r), (astype_int_py_str c);
    [reflexivity | |]; unfold int64_max; lia.
Qed.

Lemma index_extractor_reads_chain_prefix_witness :
  (forallb cls_digit19 (lit "12") = true /\ forallb cls_name (lit "beta") = true) /\
  str_extract (lit "12" ++ lit "." ++ param_name (lit "beta") 3 7)
  = mkExtracted (Some (lit "12")) (Some (lit "beta")) (Some (py_str 3)) (Some (py_str 7)) /\
  index_extract (lit "12" ++ lit "." ++ param_name (lit "beta") 3 7)
  = Ok (Some (lit "beta"), 3, 7).
Proof.
  split; [split; reflexivity|].
  apply (index_extractor_reads_chain_prefix (lit "12") (lit "beta") 3 7);
    try discriminate; try reflexivity; split; (lia || reflexivity).
Defined.

(** ** Index Extractor: matched and unmatched names *)

Lemma digit_val_nonneg (c : ascii) (d : Z) : digit_val c = Some d -> 0 <= d.
Proof.
  unfold digit_val, cls_digit, in_range. intro H.
  destruct ((nat_of_ascii "0" <=? nat_of_ascii c)%nat) eqn:E; [|discriminate].
  simpl in H. destruct ((nat_of_ascii c <=? nat_of_ascii "9")%nat); [|discriminate].
  injection H as <-. apply Nat.leb_le in E. change (nat_of_ascii "0") with 48%nat in E.
  lia.
Qed.

Lemma int_acc_nonneg (u : str) (acc z : Z) :
  0 <= acc -> int_acc acc u = Some z -> 0 <= z.
Proof.
  revert acc. induction u as [|a u IH]; intros acc Hacc; cbn [int_acc].
  - intro H. injection H as <-. exact Hacc.
  - destruct (digit_val a) as [d|] eqn:E; [|discriminate].
    apply IH. pose proof (digit_val_nonneg a d E). lia.
Qed.

Lemma py_int_nonneg (u : str) (z : Z) : py_int u = Some z -> 0 <= z.
Proof.
  unfold py_int. destruct u; [discriminate|]. apply int_acc_nonneg. lia.
Qed.

Lemma digit_val_small (c : ascii) (d : Z) : digit_val c = Some d -> d <= 9.
Proof.
  unfold digit_val, cls_digit, in_range. intro H.
  destruct ((nat_of_ascii "0" <=? nat_of_ascii c)%nat); [|discriminate].
  simpl in H. destruct ((nat_of_ascii c <=? nat_of_ascii "9")%nat) eqn:E; [|discriminate].
  injection H as <-. apply Nat.leb_le in E. change (nat_of_ascii "9") with 57%nat in E.
  lia.
Qed.

Lemma int_acc_bound (u : str) (acc z : Z) :
  0 <= acc -> int_acc acc u = Some z -> z < (acc + 1) * 10 ^ Z.of_nat (length u).
Proof.
  revert acc. induction u as [|a u IH]; intros acc Hacc; cbn [int_acc length].
  - intro H. injection H as <-. simpl. lia.
  - destruct (digit_val a) as [d|] eqn:E; [|discriminate]. intro H.
    pose proof (digit_val_nonneg a d E) as Hd0.
    pose proof (digit_val_small a d E) as Hd9.
    apply IH in H; [|lia].
    rewrite Nat2Z.inj_succ, Z.pow_succ_r by lia.
    assert (Hp : 0 < 10 ^ Z.of_nat (length u)) by (apply Z.pow_pos_nonneg; lia).
    nia.
Qed.

(** A numeral of at most 18 digits is below 10^18, within the 64-bit range
    of [astype(int)]. *)
Lemma py_int_bound (u : str) (z : Z) :
  (length u <= 18)%nat -> py_int u = Some z -> 0 <= z < 10 ^ 18.
Proof.
  intros Hlen H. split; [exact (py_int_nonneg u z H)|].
  unfold py_int in H. destruct u as [|a u]; [discriminate|].
  apply int_acc_bound in H; [|lia].
  apply (Z.lt_le_trans _ _ _ H). rewrite Z.add_0_l, Z.mul_1_l.
  apply Z.pow_le_mono_r; lia.
Qed.

(** The Index Extractor on any name of at most 18 characters, so that the
    numerals fit the 64-bit integers of [astype(int)]: when the pattern
    matches somewhere in the name it returns a variable and two
    non-negative integers (the conversion cannot fail on what the pattern
    captured); when the pattern matches nowhere it raises the conversion
    error of a missing value. *)
Theorem index_extractor_fails_only_on_unmatched_names (name : str) :
  (length name <= 18)%nat ->
  match re_search index_pattern name with
  | Some _ =>
      exists v x y,
        index_extract name = Ok (Some v, x, y) /\
        0 <= x < 10 ^ 18 /\ 0 <= y < 10 ^ 18
  | None => index_extract name = Raise nan_to_int
  end.
Proof.
  intro Hlen.
  destruct (re_search index_pattern name) as [m|] eqn:E.
  - destruct (str_extract_parsed name) as [ch [v [u3 [u4 [x [y H]]]]]];
      [congruence|].
    destruct H as [Hex [Hx [Hy [H3 H4]]]].
    assert (Bx : 0 <= x < 10 ^ 18) by (apply (py_int_bound u3); [lia | exact Hx]).
    assert (By : 0 <= y < 10 ^ 18) by (apply (py_int_bound u4); [lia | exact Hy]).
    exists v, x, y. split; [|split; assumption].
    unfold index_extract. rewrite Hex. cbn [e_x e_y e_variable]. unfold astype_int.
    rewrite Hx, Hy.
    rewrite (proj2 (Z.leb_le x int64_max)) by (unfold int64_max; lia).
    rewrite (proj2 (Z.leb_le y int64_max)) by (unfold int64_max; lia).
    reflexivity.
  - unfold index_extract. rewrite (str_extract_unparsed name E). reflexivity.
Qed.

Lemma index_extractor_fails_only_on_unmatched_names_witness :
  (re_search index_pattern (lit "beta[2,13]") <> None /\
   exists v x y,
     index_extract (lit "beta[2,13]") = Ok (Some v, x, y) /\
     0 <= x < 10 ^ 18 /\ 0 <= y < 10 ^ 18) /\
  (re_search index_pattern (lit "lp__") = None /\
   index_extract (lit "lp__") = Raise nan_to_int).
Proof.
  split.
  - pose proof (index_extractor_fails_only_on_unmatched_names (lit "beta[2,13]")) as H.
    destruct (re_search index_pattern (lit "beta[2,13]")) as [m|] eqn:E;
      [|vm_compute in E; discriminate].
    split; [discriminate|]. apply H. simpl. lia.
  - pose proof (index_extractor_fails_only_on_unmatched_names (lit "lp__")) as H.
    destruct (re_search index_pattern (lit "lp__")) as [m|] eqn:E;
      [vm_compute in E; discriminate|].
    split; [reflexivity|]. apply H. simpl. lia.
Defined.

(** ** Draw Reshaper: what it keeps *)

Lemma filter_disjoint_perm {A : Type} (P Q : A -> bool) (l : list A) :
  (forall a, In a l -> P a = true -> Q a = false) ->
  Permutation (filter (fun a => P a || Q a) l) (filter P l ++ filter Q l).
Proof.
  induction l as [|a l IH]; intro H; simpl; [constructor|].
  assert (IH' := IH (fun b Hb => H b (or_intror Hb))).
  destruct (P a) eqn:Pa; simpl.
  - rewrite (H a (or_introl eq_refl) Pa). constructor. exact IH'.
  - destruct (Q a); [|exact IH'].
    apply Permutation_cons_app. exact IH'.
Qed.

Lemma existsb_key_In (k : group_key) (ks : list group_key) :
  existsb (key_eqb k) ks = true <-> In k ks.
Proof.
  rewrite existsb_exists. split.
  - intros [k' [Hin E]]. apply key_eqb_eq in E. subst. exact Hin.
  - intro Hin. exists k. split; [exact Hin | apply key_eqb_refl].
Qed.

(** The groups of distinct keys, one after the other, hold the rows whose
    key is one of the keys, each once. *)
Lemma groups_partition (ks : list group_key) (l : list draw_record) :
  NoDup ks ->
  Permutation (flat_map (fun k => filter (in_group k) l) ks)
              (filter (fun r => existsb (key_eqb (key_of r)) ks) l).
Proof.
  induction 1 as [|k ks Hnot Hnd IH]; simpl.
  - rewrite (filter_nothing (fun _ => false)); [constructor | reflexivity].
  - eapply perm_trans; [apply Permutation_app_head, IH|].
    apply Permutation_sym.
    apply (filter_disjoint_perm (in_group k)
             (fun r => existsb (key_eqb (key_of r)) ks)).
    intros r _ Hk. apply in_group_iff in Hk. subst k.
    destruct (existsb (key_eqb (key_of r)) ks) eqn:E; [|reflexivity].
    apply existsb_key_In in E. contradiction.
Qed.

Lemma filter_perm {A : Type} (P : A -> bool) (l l' : list A) :
  Permutation l l' -> Permutation (filter P l) (filter P l').
Proof.
  induction 1; simpl.
  - constructor.
  - destruct (P x); [constructor|]; assumption.
  - destruct (P x), (P y); try apply perm_swap; apply Permutation_refl.
  - eapply perm_trans; eassumption.
Qed.

Lemma map_flat_map {A B C' : Type} (g : B -> C') (F : A -> list B) (l : list A) :
  map g (flat_map F l) = flat_map (fun a => map g (F a)) l.
Proof.
  induction l as [|a l IH]; simpl; [reflexivity|]. rewrite map_app, IH. reflexivity.
Qed.

(** After the grouping of line 37 the table holds the rows that have a
    variable, each once, with new draw numbers. *)
Lemma groupby_apply_perm (l : list draw_record) :
  Permutation (map erase_draw (groupby_apply assign_draw l))
              (map erase_draw
                 (filter (fun r => match variable r with Some _ => true | None => false end)
                         l)).
Proof.
  unfold groupby_apply. rewrite map_flat_map.
  rewrite (flat_map_ext _ (fun k => map erase_draw (filter (in_group k) l)))
    by (intro k; apply assign_draw_erase).
  rewrite <- map_flat_map. apply Permutation_map.
  eapply perm_trans; [apply groups_partition, group_keys_NoDup|].
  rewrite (filter_ext_in _
             (fun r => match variable r with Some _ => true | None => false end));
    [apply Permutation_refl|].
  intros r Hr.
  destruct (existsb (key_eqb (key_of r)) (group_keys l)) eqn:E.
  - apply existsb_key_In in E. apply group_keys_In in E. destruct E as [_ Hv].
    simpl in Hv. destruct (variable r); [reflexivity | contradiction].
  - destruct (variable r) as [v|] eqn:Ev; [|reflexivity].
    assert (Hin : In (key_of r) (group_keys l)).
    { apply group_keys_In. split; [exists r; auto|]. simpl. rewrite Ev. discriminate. }
    apply existsb_key_In in Hin. congruence.
Qed.

(** For labels that name two new columns of the long table, the Draw
    Reshaper keeps every record of the variable [par] and nothing else:
    apart from the draw numbers, its result is a rearrangement of the
    long-table records whose variable is exactly [par], under the labels it
    was given. *)
Theorem draw_reshaper_keeps_the_records_of_par
    (re : str -> str -> result bool)
    (rl : list draw_record -> str -> str -> str -> result draw_table)
    (f : fit) (par x y : str) (t : draw_table) :
  fresh_labels x y = true ->
  draws_to_tibble_x_y re rl f par x y = Ok t ->
  x_label t = x /\ y_label t = y /\
  (forall r, In r (records t) -> variable r = Some par) /\
  exists long,
    extracted_draws re f par x y = Ok long /\
    Permutation (map erase_draw (records t))
                (map erase_draw (filter (of_variable par) long)).
Proof.
  intros Hfresh H. apply reshaper_records in H; [|exact Hfresh].
  destruct H as [long [Hlong ->]].
  cbn [x_label y_label records]. repeat split.
  - intros r Hr. apply filter_In in Hr. destruct Hr as [_ Hr].
    apply variable_eqb_eq in Hr. exact Hr.
  - exists long. split; [exact Hlong|].
    change (fun r : draw_record => variable_eqb (variable r) (Some par))
      with (of_variable par).
    rewrite <- (filter_map_comm (of_variable par) (of_variable par) erase_draw)
      by reflexivity.
    rewrite <- (filter_map_comm (of_variable par) (of_variable par) erase_draw long)
      by reflexivity.
    eapply perm_trans; [apply filter_perm, groupby_apply_perm|].
    rewrite (filter_map_comm (of_variable par) (of_variable par) erase_draw)
      by reflexivity.
    rewrite (filter_map_comm (of_variable par) (of_variable par) erase_draw long)
      by reflexivity.
    apply Permutation_map. rewrite filter_comm.
    rewrite (filter_everything _ (filter (of_variable par) _)).
    + apply filter_perm, stable_sort_perm.
    + intros r Hr. apply filter_In in Hr. destruct Hr as [_ Hr].
      unfold of_variable in Hr. apply variable_eqb_eq in Hr. rewrite Hr. reflexivity.
Qed.

Lemma draw_reshaper_keeps_the_records_of_par_witness :
  (fresh_labels col_C col_M = true /\
   draws_to_tibble_x_y plain_search refuse_overwritten unordered_fit (lit "beta")
     col_C col_M
   = Ok unordered_result) /\
  x_label unordered_result = col_C /\ y_label unordered_result = col_M /\
  (forall r, In r (records unordered_result) -> variable r = Some (lit "beta")) /\
  exists long,
    extracted_draws plain_search unordered_fit (lit "beta") col_C col_M = Ok long /\
    Permutation (map erase_draw (records unordered_result))
                (map erase_draw (filter (of_variable (lit "beta")) long)).
Proof.
  split; [split; vm_compute; reflexivity|].
  apply (draw_reshaper_keeps_the_records_of_par plain_search refuse_overwritten
           unordered_fit (lit "beta") col_C col_M unordered_result).
  - reflexivity.
  - vm_compute. reflexivity.
Defined.

(** ** Draw Reshaper: the order of the result *)

Lemma key_leb_total (a b : group_key) : key_leb a b = false -> key_leb b a = true.
Proof.
  destruct a as [[va xa] ya], b as [[vb xb] yb]. unfold key_leb.
  destruct (variable_eqb va vb) eqn:E; simpl.
  - apply variable_eqb_eq in E. subst vb.
    rewrite (proj2 (variable_eqb_eq va va) eq_refl). simpl.
    rewrite (Z.eqb_sym xb xa).
    destruct (Z.eqb_spec xa xb); simpl.
    + intro H. apply Z.leb_le. apply Z.leb_gt in H. lia.
    + intro H. apply Z.ltb_lt. apply Z.ltb_ge in H. lia.
  - destruct (variable_eqb vb va) eqn:E'.
    + apply variable_eqb_eq in E'. subst vb.
      rewrite (proj2 (variable_eqb_eq va va) eq_refl) in E. discriminate.
    + simpl. apply variable_leb_total.
Qed.

Lemma key_leb_trans (a b c : group_key) :
  key_leb a b = true -> key_leb b c = true -> key_leb a c = true.
Proof.
  pose (ly := fun a b : group_key => snd a <=? snd b).
  pose (lx := fun a b : group_key =>
          if negb (snd (fst a) =? snd (fst b)) then snd (fst a) <? snd (fst b)
          else ly a b).
  assert (Hx : forall a b c, lx a b = true -> lx b c = true -> lx a c = true).
  { intros x y z.
    apply (lex_trans (fun k : group_key => snd (fst k)) Z.eqb Z.ltb ly
             Z.eqb_eq Z_ltb_trans Z_ltb_antisym).
    intros u v w. apply Z_leb_trans. }
  pose proof (lex_trans (fun k : group_key => fst (fst k)) variable_eqb variable_leb lx
                variable_eqb_eq variable_leb_trans variable_leb_antisym Hx a b c) as H.
  destruct a as [[va xa] ya], b as [[vb xb] yb], c as [[vc xc] yc]. exact H.
Qed.

Lemma ascending_app {A : Type} (leb : A -> A -> bool) (l1 l2 : list A) :
  ascending leb l1 -> ascending leb l2 ->
  (forall a b, In a l1 -> In b l2 -> leb a b = true) ->
  ascending leb (l1 ++ l2).
Proof.
  unfold ascending. induction 1 as [|a l1 Hs IH Ha]; intros H2 Hc; simpl; [exact H2|].
  constructor.
  - apply IH; [exact H2|]. intros x y Hx Hy. apply Hc; [right; exact Hx | exact Hy].
  - apply Forall_app. split; [exact Ha|].
    apply Forall_forall. intros y Hy. apply Hc; [left; reflexivity | exact Hy].
Qed.

Lemma ascending_filter {A : Type} (leb : A -> A -> bool) (P : A -> bool) (l : list A) :
  ascending leb l -> ascending leb (filter P l).
Proof.
  unfold ascending. induction 1 as [|a l Hs IH Ha]; simpl; [constructor|].
  destruct (P a); [|exact IH]. constructor; [exact IH|].
  rewrite Forall_forall in Ha |- *. intros x Hx. apply Ha.
  apply filter_In in Hx. tauto.
Qed.

Lemma ascending_map {A B : Type} (leb : A -> A -> bool) (leb' : B -> B -> bool)
    (f : A -> B) (l : list A) :
  (forall a b, leb' (f a) (f b) = leb a b) ->
  ascending leb l <-> ascending leb' (map f l).
Proof.
  intro H. unfold ascending. induction l as [|a l IH]; simpl.
  - split; constructor.
  - split; intro Hs; apply StronglySorted_inv in Hs; destruct Hs as [Hs Ha];
      constructor; try (apply IH; exact Hs).
    + rewrite Forall_map. rewrite Forall_forall in Ha |- *.
      intros x Hx. rewrite H. apply Ha. exact Hx.
    + rewrite Forall_map in Ha. rewrite Forall_forall in Ha |- *.
      intros x Hx. rewrite <- H. apply Ha. exact Hx.
Qed.

Lemma ascending_flat_map {K A : Type} (R : K -> K -> Prop) (leb : A -> A -> bool)
    (F : K -> list A) (ks : list K) :
  StronglySorted R ks ->
  (forall k, In k ks -> ascending leb (F k)) ->
  (forall k k' a b, R k k' -> In a (F k) -> In b (F k') -> leb a b = true) ->
  ascending leb (flat_map F ks).
Proof.
  intros Hs Hin Hc. induction Hs as [|k ks Hs IH Hk]; simpl; [constructor|].
  apply ascending_app.
  - apply Hin. left. reflexivity.
  - apply IH. intros k' Hk'. apply Hin. right. exact Hk'.
  - intros a b Ha Hb. apply in_flat_map in Hb. destruct Hb as [k' [Hk' Hb]].
    rewrite Forall_forall in Hk. exact (Hc k k' a b (Hk k' Hk') Ha Hb).
Qed.

Lemma sorted_distinct {K : Type} (R : K -> K -> Prop) (ks : list K) :
  StronglySorted R ks -> NoDup ks ->
  StronglySorted (fun a b => R a b /\ a <> b) ks.
Proof.
  induction 1 as [|k ks Hs IH Hk]; intro Hnd; constructor.
  - apply IH. apply NoDup_cons_iff in Hnd. tauto.
  - apply NoDup_cons_iff in Hnd. destruct Hnd as [Hnot _].
    rewrite Forall_forall in Hk |- *. intros x Hx. split; [apply Hk; exact Hx|].
    intros ->. contradiction.
Qed.

(** Rows of a smaller group come before the rows of a larger one in the
    order of line 36. *)
Lemma sort_key_leb_across_groups (a b : draw_record) :
  key_leb (key_of a) (key_of b) = true -> key_of a <> key_of b ->
  sort_key_leb a b = true.
Proof.
  unfold key_leb, key_of, sort_key_leb. intros H Hne.
  destruct (variable_eqb (variable a) (variable b)) eqn:Ev; simpl in *; [|exact H].
  destruct (Z.eqb_spec (row_x a) (row_x b)) as [Ex|Ex]; simpl in *; [|exact H].
  destruct (Z.eqb_spec (row_y a) (row_y b)) as [Ey|Ey]; simpl.
  - exfalso. apply Hne. apply variable_eqb_eq in Ev. congruence.
  - apply Z.ltb_lt. apply Z.leb_le in H. lia.
Qed.

Lemma groupby_apply_keeps_order (l : list draw_record) :
  ascending sort_key_leb l ->
  ascending sort_key_leb (groupby_apply assign_draw l).
Proof.
  intro Hl. unfold groupby_apply.
  apply (ascending_flat_map (fun k k' => key_leb k k' = true /\ k <> k')).
  - apply sorted_distinct; [|apply group_keys_NoDup].
    apply (stable_sort_ascending key_leb key_leb_total key_leb_trans).
  - intros k _.
    apply (proj2 (ascending_map sort_key_leb sort_key_leb erase_draw _
                    (fun a b => eq_refl))).
    rewrite assign_draw_erase.
    apply (proj1 (ascending_map sort_key_leb sort_key_leb erase_draw _
                    (fun a b => eq_refl))).
    apply ascending_filter. exact Hl.
  - intros k k' a b [Hk Hne] Ha Hb.
    apply assign_draw_group_keys in Ha. apply assign_draw_group_keys in Hb.
    apply sort_key_leb_across_groups; congruence.
Qed.

(** For labels that name two new columns of the long table, the result of
    the Draw Reshaper is in the order of line 36: ascending row index, then
    ascending column index, then ascending chain.  The regrouping of line
    37 and the selection of line 41 keep that order. *)
Theorem draw_reshaper_result_is_sorted
    (re : str -> str -> result bool)
    (rl : list draw_record -> str -> str -> str -> result draw_table)
    (f : fit) (par x y : str) (t : draw_table) :
  fresh_labels x y = true ->
  draws_to_tibble_x_y re rl f par x y = Ok t ->
  ascending sort_key_leb (records t) /\
  StronglySorted
    (fun a b =>
       row_x a < row_x b \/
       (row_x a = row_x b /\
        (row_y a < row_y b \/ (row_y a = row_y b /\ chain__ a <= chain__ b))))
    (records t).
Proof.
  intros Hfresh H. apply reshaper_records in H; [|exact Hfresh].
  destruct H as [long [_ ->]].
  cbn [records].
  assert (Hs : ascending sort_key_leb
                 (filter (fun r => variable_eqb (variable r) (Some par))
                    (groupby_apply assign_draw (stable_sort sort_key_leb long)))).
  { apply ascending_filter, groupby_apply_keeps_order.
    apply (stable_sort_ascending sort_key_leb sort_key_leb_total sort_key_leb_trans). }
  split; [exact Hs|].
  assert (Hv : forall r,
             In r (filter (fun r => variable_eqb (variable r) (Some par))
                     (groupby_apply assign_draw (stable_sort sort_key_leb long))) ->
             variable r = Some par).
  { intros r Hr. apply filter_In in Hr. apply variable_eqb_eq. tauto. }
  revert Hs Hv. unfold ascending.
  generalize (filter (fun r => variable_eqb (variable r) (Some par))
                (groupby_apply assign_draw (stable_sort sort_key_leb long))).
  intros l Hs. induction Hs as [|a l Hs IH Ha]; intro Hv; constructor.
  - apply IH. intros r Hr. apply Hv. right. exact Hr.
  - rewrite Forall_forall in Ha |- *. intros b Hb.
    pose proof (Ha b Hb) as Hab. unfold sort_key_leb in Hab.
    rewrite (Hv a (or_introl eq_refl)), (Hv b (or_intror Hb)) in Hab.
    rewrite (proj2 (variable_eqb_eq (Some par) (Some par)) eq_refl) in Hab.
    cbn [negb] in Hab.
    destruct (Z.eqb_spec (row_x a) (row_x b)) as [Ex|Ex]; cbn [negb] in Hab.
    + right. split; [exact Ex|].
      destruct (Z.eqb_spec (row_y a) (row_y b)) as [Ey|Ey]; cbn [negb] in Hab.
      * right. split; [exact Ey|]. apply Z.leb_le. exact Hab.
      * left. apply Z.ltb_lt. exact Hab.
    + left. apply Z.ltb_lt. exact Hab.
Qed.

Lemma draw_reshaper_result_is_sorted_witness :
  (fresh_labels col_C col_M = true /\
   draws_to_tibble_x_y plain_search refuse_overwritten unordered_fit (lit "beta")
     col_C col_M
   = Ok unordered_result) /\
  ascending sort_key_leb (records unordered_result) /\
  StronglySorted
    (fun a b =>
       row_x a < row_x b \/
       (row_x a = row_x b /\
        (row_y a < row_y b \/ (row_y a = row_y b /\ chain__ a <= chain__ b))))
    (records unordered_result).
Proof.
  split; [split; vm_compute; reflexivity|].
  apply (draw_reshaper_result_is_sorted plain_search refuse_overwritten
           unordered_fit (lit "beta") col_C col_M unordered_result).
  - reflexivity.
  - vm_compute. reflexivity.
Defined.

(** ** Draw Reshaper: when it returns *)

Lemma index_extract_unparsed (name : str) :
  re_search index_pattern name = None -> index_extract name = Raise nan_to_int.
Proof.
  intro H. unfold index_extract. rewrite (str_extract_unparsed name H). reflexivity.
Qed.

Lemma mapM_ok_inv {A B : Type} (f : A -> result B) (l : list A) (bs : list B) (a : A) :
  mapM f l = Ok bs -> In a l -> exists b, f a = Ok b.
Proof.
  intros H Hin. destruct (f a) as [b|e] eqn:E; [eauto|].
  destruct (mapM_raises f l a Hin (ex_intro _ e E)) as [e' He']. congruence.
Qed.

Lemma filterM_ok_inv {A : Type} (f : A -> result bool) (l r : list A) (a : A) :
  filterM f l = Ok r -> In a l -> exists b, f a = Ok b.
Proof.
  revert r. induction l as [|x l IH]; intros r H Hin; [contradiction|].
  simpl in H. destruct (f x) as [b|e] eqn:E; [|discriminate].
  destruct (filterM f l) as [r'|e] eqn:F; [|discriminate].
  destruct Hin as [->|Hin]; [eauto | exact (IH r' eq_refl Hin)].
Qed.

Lemma mem_str_filter (P : str -> bool) (name : str) (l : list str) :
  In name l -> mem_str name (filter P l) = P name.
Proof.
  intro Hin. destruct (P name) eqn:E.
  - apply mem_str_In. apply filter_In. auto.
  - destruct (mem_str name (filter P l)) eqn:M; [|reflexivity].
    apply mem_str_In in M. apply filter_In in M. destruct M as [_ M]. congruence.
Qed.

(** For labels that name two new columns of the long table, the Draw
    Reshaper returns a table exactly when the search of line 19 returns on
    every variable of the fit and lines 28 to 33 extract a variable and two
    integers from the name of every selected draw column that holds a draw;
    in every other case it raises.  On such labels the sort, the regrouping
    and the selections of lines 36 to 41 never raise. *)
Theorem draw_reshaper_returns_exactly_when
    (re : str -> str -> result bool)
    (rl : list draw_record -> str -> str -> str -> result draw_table)
    (f : fit) (par x y : str) :
  fresh_labels x y = true ->
  ((exists t, draws_to_tibble_x_y re rl f par x y = Ok t) <->
   (forall v, In v (stan_variables f) -> exists b, re par v = Ok b) /\
   (forall name vals,
       In (name, vals) (draw_columns (requested_draws f)) ->
       contains (lit "beta") name = true ->
       draw_ids (requested_draws f) <> [] ->
       vals <> [] ->
       exists v r c, index_extract name = Ok (v, r, c))).
Proof.
  intro Hfresh. split.
  - intros [t H]. apply reshaper_records in H; [|exact Hfresh].
    destruct H as [long [H _]].
    unfold extracted_draws in H.
    destruct (filterM (re par) (stan_variables f)) as [names|e] eqn:F; [|discriminate].
    cbn [bind] in H. rewrite (fresh_labels_distinct x y Hfresh) in H. split.
    + intros v Hv. exact (filterM_ok_inv _ _ _ v F Hv).
    + intros name vals Hcol Hbeta Hids Hvals.
      destruct (draw_ids (requested_draws f)) as [|id ids] eqn:Ei; [congruence|].
      destruct vals as [|q vals]; [congruence|].
      revert H.
      set (long' := melt (requested_draws f) _).
      set (groups := map _ long').
      assert (Hin : In (str_extract name) groups).
      { apply (in_map (fun r : Z * Z * Z * str * Q => str_extract (snd (fst r)))
                 long' (id, name, q)).
        apply (melt_In _ _ name (q :: vals) id q Hcol).
        - rewrite mem_str_filter; [exact Hbeta|].
          apply in_map_iff. exists (name, q :: vals). auto.
        - rewrite Ei. left. reflexivity. }
      destruct (mapM (fun e => astype_int (e_x e)) groups) as [xs|e] eqn:Ex;
        [|discriminate].
      cbn [bind].
      destruct (mapM (fun e => astype_int (e_y e)) groups) as [ys|e] eqn:Ey;
        [|discriminate].
      intros _.
      destruct (mapM_ok_inv _ _ _ _ Ex Hin) as [r Hr].
      destruct (mapM_ok_inv _ _ _ _ Ey Hin) as [c Hc].
      exists (e_variable (str_extract name)), r, c.
      unfold index_extract. rewrite Hr, Hc. reflexivity.
  - intros [Hre Hparse].
    exact (draw_reshaper_returns_when_names_parse re rl f par x y Hfresh Hre Hparse).
Qed.

Lemma draw_reshaper_returns_exactly_when_witness :
  fresh_labels col_C col_M = true /\
  (exists t,
      draws_to_tibble_x_y plain_search refuse_overwritten example_fit (lit "beta")
        col_C col_M = Ok t) /\
  (forall v, In v (stan_variables example_fit) ->
             exists b, plain_search (lit "beta") v = Ok b) /\
  (forall name vals,
      In (name, vals) (draw_columns (requested_draws example_fit)) ->
      contains (lit "beta") name = true ->
      draw_ids (requested_draws example_fit) <> [] ->
      vals <> [] ->
      exists v r c, index_extract name = Ok (v, r, c)).
Proof.
  split; [reflexivity|].
  assert (Hret : exists t,
             draws_to_tibble_x_y plain_search refuse_overwritten example_fit
               (lit "beta") col_C col_M = Ok t).
  { destruct (draws_to_tibble_x_y plain_search refuse_overwritten example_fit
                (lit "beta") col_C col_M) as [t|e] eqn:E;
      [eauto | vm_compute in E; discriminate]. }
  split; [exact Hret|].
  exact (proj1 (draw_reshaper_returns_exactly_when plain_search refuse_overwritten
                  example_fit (lit "beta") col_C col_M eq_refl) Hret).
Defined.

(** ** Draw Reshaper: the pattern argument *)

(** The long table the Draw Reshaper builds does not depend on the variable
    it is asked for: for any two requests on which the search of line 19
    returns, the request to the engine and the long table are the same; the
    variable only selects rows at line 41. *)
Theorem long_table_is_the_same_for_every_par
    (re : str -> str -> result bool) (f : fit) (par par' x y : str)
    (long long' : list draw_record) :
  extracted_draws re f par x y = Ok long ->
  extracted_draws re f par' x y = Ok long' ->
  long = long'.
Proof.
  unfold extracted_draws. intros H H'.
  destruct (filterM (re par) (stan_variables f)); [|discriminate].
  destruct (filterM (re par') (stan_variables f)); [|discriminate].
  cbn [bind] in H, H'. congruence.
Qed.

Lemma long_table_is_the_same_for_every_par_witness :
  exists long,
    extracted_draws plain_search example_fit (lit "random_effect") col_C col_M
    = Ok long /\
    extracted_draws plain_search example_fit (lit "beta") col_C col_M = Ok long /\
    long <> [].
Proof.
  destruct (extracted_draws plain_search example_fit (lit "random_effect") col_C col_M)
    as [long|e] eqn:E; [|vm_compute in E; discriminate].
  destruct (extracted_draws plain_search example_fit (lit "beta") col_C col_M)
    as [long'|e] eqn:E'; [|vm_compute in E'; discriminate].
  exists long. split; [reflexivity|].
  rewrite (long_table_is_the_same_for_every_par plain_search example_fit
             (lit "random_effect") (lit "beta") col_C col_M long long' E E').
  split; [reflexivity|].
  intros ->. vm_compute in E'. discriminate.
Defined.

(** ** Summary Reshaper: the selection of line 60 *)

Lemma select_columns_ok (names : list str) (f k : frame) :
  select_columns names f = Ok k ->
  k = mkFrame names
        (map (fun row => map (fun n => cell_at n (columns f) row) names) (rows f)) /\
  forall n, In n names -> In n (columns f).
Proof.
  unfold select_columns.
  destruct (filter (fun n => negb (mem_str n (columns f))) names) as [|m ms] eqn:E;
    [|discriminate].
  intro H. injection H as <-. split; [reflexivity|].
  intros n Hn. apply mem_str_In.
  destruct (mem_str n (columns f)) eqn:Em; [reflexivity|].
  assert (Hin : In n []).
  { rewrite <- E. apply filter_In. split; [exact Hn|]. rewrite Em. reflexivity. }
  contradiction.
Qed.

Lemma select_columns_missing (names : list str) (f : frame) :
  (exists n, In n names /\ ~ In n (columns f)) ->
  exists missing,
    select_columns names f = Raise (KeyError missing) /\
    forall n, In n missing <-> In n names /\ ~ In n (columns f).
Proof.
  intros [n [Hn Hout]]. unfold select_columns.
  assert (Hspec : forall m,
             In m (filter (fun n => negb (mem_str n (columns f))) names) <->
             In m names /\ ~ In m (columns f)).
  { intro m. rewrite filter_In, negb_true_iff.
    split; intros [H1 H2]; (split; [exact H1|]).
    - intro Hin. apply mem_str_In in Hin. congruence.
    - destruct (mem_str m (columns f)) eqn:E; [|reflexivity].
      apply mem_str_In in E. contradiction. }
  destruct (filter (fun n => negb (mem_str n (columns f))) names) as [|m ms] eqn:E.
  - exfalso. apply (proj2 (Hspec n)). split; assumption.
  - exists (m :: ms). split; [reflexivity | exact Hspec].
Qed.

(** When the search of line 54 returns and the summary lacks one of the
    columns line 58 lists (the mean, the requested percentiles, the
    effective sample size, the r-hat), the Summary Reshaper raises a
    [KeyError] that names the listed columns the summary lacks and no
    other, whether or not any row was selected. *)
Theorem summary_reshaper_names_the_missing_columns
    (re : str -> str -> result bool) (f : fit) (par x : str) (y : option str)
    (probs : list Z) (filtered : list (str * list cell)) (c : str) :
  filter_index re par (summary f probs) = Ok filtered ->
  In c (kept_columns probs) ->
  ~ In c (columns (summary_data (summary f probs))) ->
  exists missing,
    summary_to_tibble re f par x y probs = Raise (KeyError missing) /\
    forall n, In n missing <->
              In n (kept_columns probs) /\
              ~ In n (columns (summary_data (summary f probs))).
Proof.
  intros Hf Hc Hout. unfold summary_to_tibble. rewrite Hf. cbn [bind].
  destruct (select_columns_missing (kept_columns probs)
              (mkFrame (columns (summary_data (summary f probs))) (map snd filtered)))
    as [missing [Hs Hspec]].
  { exists c. split; [exact Hc | exact Hout]. }
  exists missing. unfold kept_columns in Hs. rewrite Hs. split; [reflexivity|].
  exact Hspec.
Qed.

Lemma summary_reshaper_names_the_missing_columns_witness :
  exists missing,
    summary_to_tibble plain_search fit_without_diagnostics (lit "no such name") col_C
      (Some col_M) default_probs
    = Raise (KeyError missing) /\
    forall n, In n missing <->
              In n (kept_columns default_probs) /\
              ~ In n (columns (summary_data
                                 (summary fit_without_diagnostics default_probs))).
Proof.
  apply (summary_reshaper_names_the_missing_columns plain_search
           fit_without_diagnostics (lit "no such name") col_C (Some col_M)
           default_probs [] (lit "N_Eff")).
  - reflexivity.
  - vm_compute. tauto.
  - vm_compute. intuition discriminate.
Defined.

(** ** Summary Reshaper: the table it returns *)

Lemma percent_label_neq (p : Z) (s : string) (a : ascii) (body : str) :
  lit s = body ++ [a] -> a <> "%"%char -> py_str p ++ lit "%" <> lit s.
Proof.
  intros Hs Ha H. rewrite Hs in H. change (lit "%") with ["%"%char] in H.
  apply app_inj_tail in H. destruct H as [_ H]. congruence.
Qed.

Lemma kept_columns_spec (probs : list Z) (n : str) :
  In n (kept_columns probs) ->
  n = lit "Mean" \/ (exists p, n = py_str p ++ lit "%") \/
  n = lit "N_Eff" \/ n = lit "R_hat".
Proof.
  unfold kept_columns, prob_cols. rewrite !in_app_iff, in_map_iff. simpl.
  intros [[H|[]]|[[p [H _]]|[H|[H|[]]]]]; subst; eauto.
Qed.

Lemma kept_columns_not_index (probs : list Z) :
  ~ In (lit "index") (kept_columns probs).
Proof.
  intro H. apply kept_columns_spec in H.
  destruct H as [H|[[p H]|[H|H]]]; try discriminate.
  symmetry in H. revert H.
  apply (percent_label_neq p "index" "x" (lit "inde")); [reflexivity | discriminate].
Qed.

Lemma kept_columns_not_variable (probs : list Z) :
  ~ In (lit "variable") (kept_columns probs).
Proof.
  intro H. apply kept_columns_spec in H.
  destruct H as [H|[[p H]|[H|H]]]; try discriminate.
  symmetry in H. revert H.
  apply (percent_label_neq p "variable" "e" (lit "variabl")); [reflexivity | discriminate].
Qed.

Lemma map_id_when {X : Type} (g : X -> X) (l : list X) :
  (forall a, In a l -> g a = a) -> map g l = l.
Proof.
  induction l as [|a l IH]; intro H; simpl; [reflexivity|].
  rewrite (H a) by (left; reflexivity). f_equal. apply IH.
  intros b Hb. apply H. right. exact Hb.
Qed.

Lemma drop_positions_all {X : Type} (g : X -> bool) (l : list X) :
  (forall a, In a l -> g a = true) -> drop_positions (map g l) l = l.
Proof.
  induction l as [|a l IH]; intro H; simpl; [reflexivity|].
  rewrite (H a) by (left; reflexivity). f_equal. apply IH.
  intros b Hb. apply H. right. exact Hb.
Qed.

Lemma frame_of_lists_ok (lists : list (list str)) (cols : list str) (fr : frame) :
  frame_of_lists lists cols = Ok fr ->
  columns fr = cols /\ length (rows fr) = length lists.
Proof.
  unfold frame_of_lists. destruct lists as [|l lists].
  - intro H. injection H as <-. split; reflexivity.
  - destruct (_ =? _)%nat; [|discriminate].
    intro H. injection H as <-. cbn [columns rows]. split; [reflexivity|].
    simpl. rewrite length_map. reflexivity.
Qed.

(** The label the old index has after lines 63: [variable] for an unnamed
    index and for an index named [index] or [variable]. *)
Lemma reset_and_rename (name : option str) (probs : list Z)
    (named_rows : list (str * list cell)) (fr : frame) :
  reset_index name (kept_columns probs) named_rows = Ok fr ->
  exists label,
    columns (rename_column (lit "index") (lit "variable") fr)
    = label :: kept_columns probs /\
    length (rows (rename_column (lit "index") (lit "variable") fr))
    = length named_rows /\
    ((label = lit "variable" /\ (name = None \/ name = Some (lit "index"))) \/
     (name = Some label /\ label <> lit "index")).
Proof.
  unfold reset_index.
  destruct (mem_str (reset_index_label name (kept_columns probs)) (kept_columns probs));
    [discriminate|].
  intro H. injection H as <-. unfold rename_column. cbn [columns rows map].
  rewrite (map_id_when _ (kept_columns probs)).
  - eexists. split; [reflexivity|]. split; [apply length_map|].
    unfold reset_index_label. destruct name as [n|].
    + destruct (str_eqb n (lit "index")) eqn:E.
      * apply str_eqb_eq in E. subst n. left. split; [reflexivity | right; reflexivity].
      * right. split; [reflexivity|]. apply str_eqb_neq. exact E.
    + pose proof (kept_columns_not_index probs) as Hni.
      destruct (mem_str (lit "index") (kept_columns probs)) eqn:E.
      * apply mem_str_In in E. contradiction.
      * left. split; [reflexivity | left; reflexivity].
  - intros a Ha. destruct (str_eqb a (lit "index")) eqn:E; [|reflexivity].
    apply str_eqb_eq in E. subst a. apply kept_columns_not_index in Ha. contradiction.
Qed.

(** A table returned by the Summary Reshaper has the columns [variable],
    [x], [y] when a second label is given, then the columns of line 58 in
    that order, and one row for each row of the summary whose name the
    search of line 54 selects.  The two diagnostic columns are those of the
    summary: lines 81 to 84 add nothing. *)
Theorem summary_reshaper_table_shape
    (re : str -> str -> result bool) (f : fit) (par x : str) (y : option str)
    (probs : list Z) (t : frame) :
  summary_to_tibble re f par x y probs = Ok t ->
  columns t
  = [lit "variable"; x]
    ++ match y with Some (c :: l) => [c :: l] | _ => [] end
    ++ kept_columns probs /\
  (forall n, In n (kept_columns probs) ->
             In n (columns (summary_data (summary f probs)))) /\
  exists filtered,
    filter_index re par (summary f probs) = Ok filtered /\
    length (rows t) = length filtered.
Proof.
  unfold summary_to_tibble. fold (kept_columns probs).
  destruct (filter_index re par (summary f probs)) as [filtered|e]; [|discriminate].
  cbn [bind].
  destruct (select_columns _ _) as [kept|e] eqn:Ek; [|discriminate].
  apply select_columns_ok in Ek. destruct Ek as [-> Hall]. cbn [bind columns rows].
  destruct (reset_index _ _ _) as [fr|e] eqn:Er; [|discriminate].
  apply reset_and_rename in Er. destruct Er as [label [Hc [Hr Hl]]].
  cbn [bind].
  set (fs := rename_column (lit "index") (lit "variable") fr) in *.
  unfold column_values. rewrite Hc.
  destruct (mem_str (lit "variable") (label :: kept_columns probs)) eqn:Ev;
    [|discriminate].
  cbn [bind].
  destruct (frame_of_lists _ _) as [split_df|e] eqn:Es; [|discriminate].
  apply frame_of_lists_ok in Es. destruct Es as [Hsc Hsr]. cbn [bind].
  assert (Hlabel : label = lit "variable").
  { apply mem_str_In in Ev. destruct Ev as [Ev|Ev]; [exact Ev|].
    apply kept_columns_not_variable in Ev. contradiction. }
  subst label.
  assert (Hdrop : columns (drop_columns [lit "variable"] fs) = kept_columns probs).
  { unfold drop_columns. cbn [columns]. rewrite Hc. cbn [map drop_positions].
    rewrite (proj2 (mem_str_In (lit "variable") [lit "variable"]) (or_introl eq_refl)).
    cbn [negb]. apply drop_positions_all.
    intros a Ha. apply negb_true_iff.
    destruct (mem_str a [lit "variable"]) eqn:E; [|reflexivity].
    apply mem_str_In in E. destruct E as [<-|[]].
    apply kept_columns_not_variable in Ha. contradiction. }
  assert (Hcols : columns (concat_columns split_df (drop_columns [lit "variable"] fs))
                  = [lit "variable"; x]
                    ++ match y with Some (c :: l) => [c :: l] | _ => [] end
                    ++ kept_columns probs).
  { unfold concat_columns. cbn [columns]. rewrite Hsc, Hdrop.
    rewrite <- app_assoc. do 2 f_equal.
    destruct y as [[|c l]|]; reflexivity. }
  assert (Hn : mem_str (lit "N_Eff")
                 (columns (concat_columns split_df (drop_columns [lit "variable"] fs)))
               = true).
  { rewrite Hcols. apply mem_str_In. apply in_or_app. right. apply in_or_app. right.
    unfold kept_columns. apply in_or_app. right. apply in_or_app. right. simpl. tauto. }
  rewrite Hn. cbn [negb].
  assert (Hh : mem_str (lit "R_hat")
                 (columns (concat_columns split_df (drop_columns [lit "variable"] fs)))
               = true).
  { rewrite Hcols. apply mem_str_In. apply in_or_app. right. apply in_or_app. right.
    unfold kept_columns. apply in_or_app. right. apply in_or_app. right. simpl. tauto. }
  rewrite Hh. cbn [negb].
  intro H. injection H as <-. split; [exact Hcols|]. split; [exact Hall|].
  exists filtered. split; [reflexivity|].
  unfold concat_columns, drop_columns. cbn [rows].
  rewrite length_map, length_combine, Hsr, !length_map, Hr.
  rewrite length_combine, !length_map. lia.
Qed.

Lemma summary_reshaper_table_shape_witness :
  exists t,
    summary_to_tibble plain_search example_fit (lit "beta") col_C (Some col_M)
      default_probs = Ok t /\
    columns t = [lit "variable"; col_C] ++ [col_M] ++ kept_columns default_probs /\
    (forall n, In n (kept_columns default_probs) ->
               In n (columns (summary_data (summary example_fit default_probs)))) /\
    exists filtered,
      filter_index plain_search (lit "beta") (summary example_fit default_probs)
      = Ok filtered /\
      length (rows t) = length filtered.
Proof.
  destruct (summary_to_tibble plain_search example_fit (lit "beta") col_C (Some col_M)
              default_probs) as [t|e] eqn:E; [|vm_compute in E; discriminate].
  exists t. split; [reflexivity|].
  exact (summary_reshaper_table_shape plain_search example_fit (lit "beta") col_C
           (Some col_M) default_probs t E).
Defined.

(** ** Summary Reshaper: a named index *)

(** The Summary Reshaper relies on the index of the summary being unnamed:
    when the engine names the index anything but [index] or [variable],
    line 63 renames nothing, and the Summary Reshaper raises for every
    request. *)
Theorem summary_reshaper_raises_on_named_index
    (re : str -> str -> result bool) (f : fit) (par x : str) (y : option str)
    (probs : list Z) (n : str) :
  index_name (summary f probs) = Some n ->
  n <> lit "index" -> n <> lit "variable" ->
  exists e, summary_to_tibble re f par x y probs = Raise e.
Proof.
  intros Hname Hi Hv.
  destruct (summary_to_tibble re f par x y probs) as [t|e] eqn:E; [|eauto].
  exfalso. revert E. unfold summary_to_tibble. fold (kept_columns probs).
  destruct (filter_index re par (summary f probs)) as [filtered|e]; [|discriminate].
  cbn [bind].
  destruct (select_columns _ _) as [kept|e] eqn:Ek; [|discriminate].
  apply select_columns_ok in Ek. destruct Ek as [-> _]. cbn [bind columns rows].
  destruct (reset_index _ _ _) as [fr|e] eqn:Er; [|discriminate].
  apply reset_and_rename in Er. destruct Er as [label [Hc [_ Hl]]].
  cbn [bind]. unfold column_values. rewrite Hc.
  destruct (mem_str (lit "variable") (label :: kept_columns probs)) eqn:Ev;
    [|discriminate].
  apply mem_str_In in Ev. destruct Ev as [Ev|Ev].
  - subst label. destruct Hl as [[_ [Hl|Hl]]|[Hl _]]; congruence.
  - apply kept_columns_not_variable in Ev. contradiction.
Qed.

Lemma summary_reshaper_raises_on_named_index_witness :
  index_name (summary named_index_fit default_probs) = Some (lit "name") /\
  exists e,
    summary_to_tibble plain_search named_index_fit (lit "beta") col_C (Some col_M)
      default_probs = Raise e.
Proof.
  split; [reflexivity|].
  apply (summary_reshaper_raises_on_named_index plain_search named_index_fit
           (lit "beta") col_C (Some col_M) default_probs (lit "name")).
  - reflexivity.
  - discriminate.
  - discriminate.
Defined.

(** ** Splitting a parameter name (lines 66 to 72) *)

Lemma split_name_match_len (whole : nat) (c : ascii) (s : str) :
  match_len whole split_name_pattern (c :: s)
  = if is_name_separator c then Some 1%nat else None.
Proof.
  unfold match_len, match_at, split_name_pattern, is_name_separator.
  cbn [rmatch].
  destruct (is_char "[" c); [cbn [orb accept length]; f_equal; lia|].
  destruct (is_char "]" c); [cbn [orb accept length]; f_equal; lia|].
  destruct (is_char "," c); [cbn [orb accept length]; f_equal; lia|].
  destruct (cls_space c); [cbn [orb accept length]; f_equal; lia|].
  reflexivity.
Qed.

Section Splitting.
Variable whole : nat.
Variable r : regex.
Variable sep : ascii -> bool.
Hypothesis r_one_char :
  forall c s, match_len whole r (c :: s) = if sep c then Some 1%nat else None.

Lemma split_scan_word (w cur rest : str) :
  forallb (fun c => negb (sep c)) w = true ->
  split_scan whole r O cur (w ++ rest) = split_scan whole r O (rev w ++ cur) rest.
Proof.
  revert cur. induction w as [|a w IH]; intros cur Hw; [reflexivity|].
  simpl in Hw. apply andb_true_iff in Hw. destruct Hw as [Ha Hw].
  apply negb_true_iff in Ha.
  change ((a :: w) ++ rest) with (a :: (w ++ rest)). cbn [split_scan].
  rewrite r_one_char, Ha, (IH (a :: cur) Hw).
  cbn [rev]. rewrite <- app_assoc. reflexivity.
Qed.

Lemma split_scan_separator (c : ascii) (cur rest : str) :
  sep c = true ->
  split_scan whole r O cur (c :: rest) = rev cur :: split_scan whole r O [] rest.
Proof. intro Hc. cbn [split_scan]. rewrite r_one_char, Hc. reflexivity. Qed.

(** A piece without separator, followed by a separator, is the next
    element of the split. *)
Lemma split_scan_piece (w : str) (c : ascii) (rest : str) :
  forallb (fun c => negb (sep c)) w = true -> sep c = true ->
  split_scan whole r O [] (w ++ c :: rest) = w :: split_scan whole r O [] rest.
Proof.
  intros Hw Hc. rewrite (split_scan_word w [] (c :: rest) Hw).
  rewrite (split_scan_separator c _ rest Hc).
  rewrite app_nil_r, rev_involutive. reflexivity.
Qed.
End Splitting.

Lemma digit_not_name_separator (c : ascii) :
  cls_digit c = true -> is_name_separator c = false.
Proof.
  unfold cls_digit, in_range, is_name_separator, is_char, ascii_eqb, cls_space.
  intro H. apply andb_true_iff in H. destruct H as [H1 H2].
  apply Nat.leb_le in H1. apply Nat.leb_le in H2.
  change (nat_of_ascii "0") with 48%nat in H1.
  change (nat_of_ascii "9") with 57%nat in H2.
  destruct (Ascii.eqb_spec "[" c) as [E|_];
    [subst c; vm_compute in H2; lia|].
  destruct (Ascii.eqb_spec "]" c) as [E|_];
    [subst c; vm_compute in H2; lia|].
  destruct (Ascii.eqb_spec "," c) as [E|_];
    [subst c; vm_compute in H1; lia|].
  cbn [orb]. cbv zeta.
  destruct (Nat.leb_spec 9 (nat_of_ascii c)), (Nat.leb_spec (nat_of_ascii c) 13),
           (Nat.leb_spec 28 (nat_of_ascii c)), (Nat.leb_spec (nat_of_ascii c) 32);
    simpl; try reflexivity; lia.
Qed.

Lemma digits_not_name_separators (s : str) :
  forallb cls_digit s = true ->
  forallb (fun c => negb (is_name_separator c)) s = true.
Proof.
  induction s as [|a s IH]; simpl; [reflexivity|].
  intro H. apply andb_true_iff in H. destruct H as [Ha Hs].
  rewrite (digit_not_name_separator a Ha), (IH Hs). reflexivity.
Qed.

(** The splitting function of the Summary Reshaper on an engine name
    [v[r,c]]: for a non-empty variable without bracket, comma or white
    space, it gives the variable and the two indices as they are written,
    as strings; without a second label it gives the variable and the first
    index and drops the second. *)
Theorem split_variable_name_on_param_name (y : option str) (v : str) (r c : Z) :
  v <> [] ->
  forallb (fun a => negb (is_name_separator a)) v = true ->
  0 <= r -> 0 <= c ->
  split_variable_name y (param_name v r c)
  = if truthy y then [v; py_str r; py_str c] else [v; py_str r].
Proof.
  intros Hv Hsep Hr Hc.
  assert (Hsplit : re_split split_name_pattern (param_name v r c)
                   = [v; py_str r; py_str c; []]).
  { unfold re_split, param_name, index_suffix.
    generalize (length (v ++ lit "[" ++ py_str r ++ lit "," ++ py_str c ++ lit "]")).
    intro whole.
    pose proof (split_name_match_len whole) as Hm.
    change (lit "[" ++ py_str r ++ lit "," ++ py_str c ++ lit "]")
      with ("["%char :: py_str r ++ ","%char :: py_str c ++ ["]"%char]).
    rewrite (split_scan_piece whole _ is_name_separator Hm v "[" _ Hsep eq_refl).
    rewrite (split_scan_piece whole _ is_name_separator Hm (py_str r) "," _
               (digits_not_name_separators _ (py_str_all_digits r Hr)) eq_refl).
    rewrite (split_scan_piece whole _ is_name_separator Hm (py_str c) "]" _
               (digits_not_name_separators _ (py_str_all_digits c Hc)) eq_refl).
    reflexivity. }
  unfold split_variable_name. rewrite Hsplit. cbn [filter].
  pose proof (py_str_nonempty r Hr) as Hnr. pose proof (py_str_nonempty c Hc) as Hnc.
  rewrite (proj2 (str_eqb_neq v []) Hv).
  rewrite (proj2 (str_eqb_neq (py_str r) []) Hnr).
  rewrite (proj2 (str_eqb_neq (py_str c) []) Hnc).
  cbn [negb str_eqb]. destruct (truthy y); reflexivity.
Qed.

Lemma split_variable_name_on_param_name_witness :
  split_variable_name (Some col_M) (param_name (lit "beta") 2 13)
  = [lit "beta"; lit "2"; lit "13"] /\
  split_variable_name None (param_name (lit "beta") 2 13) = [lit "beta"; lit "2"].
Proof.
  split.
  - apply (split_variable_name_on_param_name (Some col_M) (lit "beta") 2 13);
      [discriminate | reflexivity | lia | lia].
  - apply (split_variable_name_on_param_name None (lit "beta") 2 13);
      [discriminate | reflexivity | lia | lia].
Defined.

(** ** Contrast Evaluator: lenient mode *)

Lemma set_column_rows (name : str) (vals : list cell) (f : frame) :
  length (rows (set_column name vals f)) = length (rows f).
Proof.
  unfold set_column. destruct (index_of name (columns f)); cbn [rows];
    rewrite length_map, length_combine, length_seq; lia.
Qed.

Lemma set_column_width (name : str) (vals : list cell) (f : frame) :
  (length (columns f) <= length (columns (set_column name vals f)))%nat.
Proof.
  unfold set_column. destruct (index_of name (columns f)); cbn [columns].
  - lia.
  - rewrite length_app. lia.
Qed.

Section EvaluatorRuns.
Variable df_eval : frame -> str -> result (list cell).
Variable parameter_names : list str.

(** Neither the number of rows nor the number of objects changes, and the
    number of columns never decreases. *)
Lemma mutate_loop_size (ignore_errors : bool) (items : list (str * str)) (x : loc)
    (st st' : pystate) (res : result loc) :
  mutate_loop df_eval parameter_names ignore_errors items x st = (res, st') ->
  length (rows (heap st' x)) = length (rows (heap st x)) /\
  (length (columns (heap st x)) <= length (columns (heap st' x)))%nat.
Proof.
  revert st. induction items as [|[new_col formula] items IH]; intros st H.
  - simpl in H. unfold ret in H. injection H as _ <-. split; [reflexivity | lia].
  - simpl in H. unfold bindM in H.
    destruct (mutate_with_formula df_eval parameter_names ignore_errors x
                new_col formula st) as [r1 st1] eqn:E1.
    assert (H1 : length (rows (heap st1 x)) = length (rows (heap st x)) /\
                 (length (columns (heap st x)) <= length (columns (heap st1 x)))%nat).
    { revert E1. unfold mutate_with_formula.
      destruct (df_eval (heap st x) (escape_column_names formula parameter_names)).
      - intro E. injection E as _ <-. simpl. rewrite Nat.eqb_refl.
        split; [apply set_column_rows | apply set_column_width].
      - destruct (negb ignore_errors); intro E; injection E as _ <-;
          split; simpl; try reflexivity; lia. }
    destruct (mutate_with_formula_frame _ _ _ _ _ _ _ _ _ E1) as [Hr _].
    destruct r1 as [x1|e].
    + rewrite (Hr x1 eq_refl) in H. apply IH in H. destruct H1, H. split; [congruence | lia].
    + injection H as _ <-. exact H1.
Qed.

Lemma mutate_loop_lenient (items : list (str * str)) (x : loc) (st : pystate) :
  fst (mutate_loop df_eval parameter_names true items x st) = Ok x.
Proof.
  revert st. induction items as [|[new_col formula] items IH]; intro st;
    [reflexivity|].
  simpl. unfold bindM.
  assert (H : exists st1,
             mutate_with_formula df_eval parameter_names true x new_col formula st
             = (Ok x, st1)).
  { unfold mutate_with_formula.
    destruct (df_eval (heap st x) (escape_column_names formula parameter_names));
      simpl; eauto. }
  destruct H as [st1 ->]. apply IH.
Qed.

(** In strict mode a loop that completes has assigned every column. *)
Lemma mutate_loop_strict (items : list (str * str)) (x r : loc) (st st' : pystate) :
  mutate_loop df_eval parameter_names false items x st = (Ok r, st') ->
  forall c f, In (c, f) items -> In c (columns (heap st' x)).
Proof.
  revert st. induction items as [|[new_col formula] items IH]; intros st H c f Hin;
    [contradiction|].
  simpl in H. unfold bindM in H.
  destruct (mutate_with_formula df_eval parameter_names false x new_col formula st)
    as [r1 st1] eqn:E1.
  destruct (mutate_with_formula_frame _ _ _ _ _ _ _ _ _ E1) as [Hr _].
  destruct r1 as [x1|e]; [|discriminate].
  rewrite (Hr x1 eq_refl) in H.
  destruct Hin as [Heq|Hin]; [|exact (IH st1 H c f Hin)].
  injection Heq as -> ->.
  destruct (mutate_loop_frame _ _ _ _ _ _ _ _ H) as [_ [_ [_ Hc]]]. apply Hc.
  revert E1. unfold mutate_with_formula.
  destruct (df_eval (heap st x) (escape_column_names f parameter_names));
    [|discriminate].
  intro E. injection E as _ <-. simpl. rewrite Nat.eqb_refl. apply set_column_has.
Qed.
End EvaluatorRuns.

(** In lenient mode the Contrast Evaluator never raises: whatever the
    formulas and whatever the evaluation engine does with them, it returns
    the reference it was given; the table keeps its rows and every column
    it had, and no other object is created or written. *)
Theorem lenient_mode_never_raises
    (df_eval : frame -> str -> result (list cell)) (x : loc)
    (formula_expr : formulas) (st : pystate) :
  exists st',
    mutate_from_expr_list df_eval x formula_expr true st = (Ok x, st') /\
    next st' = next st /\
    (forall l, l <> x -> heap st' l = heap st l) /\
    (forall c, In c (columns (heap st x)) -> In c (columns (heap st' x))) /\
    length (rows (heap st' x)) = length (rows (heap st x)).
Proof.
  unfold mutate_from_expr_list, bindM.
  pose proof (warn_backquotes_state (columns (heap st x)) (normalise formula_expr) st)
    as [Hr [Hh Hn]].
  destruct (warn_backquotes (columns (heap st x)) (normalise formula_expr) st)
    as [r st0].
  simpl in Hr, Hh, Hn. subst r. rewrite andb_false_r.
  pose proof (mutate_loop_lenient df_eval (columns (heap st x))
                (normalise formula_expr) x st0) as Hok.
  destruct (mutate_loop df_eval (columns (heap st x)) true (normalise formula_expr)
              x st0) as [res st'] eqn:E.
  simpl in Hok. subst res. exists st'. split; [reflexivity|].
  destruct (mutate_loop_frame _ _ _ _ _ _ _ _ E) as [_ [Hn' [Hh' Hc']]].
  destruct (mutate_loop_size _ _ _ _ _ _ _ _ E) as [Hrows _].
  rewrite Hh in *. repeat split.
  - congruence.
  - exact Hh'.
  - exact Hc'.
  - exact Hrows.
Qed.

(** ** Contrast Evaluator: strict mode *)

(** A table returned in strict mode holds every column the formulas name,
    and every identifier of the formulas was a column of the table before
    the call. *)
Theorem strict_mode_result_holds_every_column
    (df_eval : frame -> str -> result (list cell)) (x r : loc)
    (formula_expr : formulas) (st st' : pystate) :
  mutate_from_expr_list df_eval x formula_expr false st = (Ok r, st') ->
  r = x /\
  (forall c f, In (c, f) (normalise formula_expr) -> In c (columns (heap st' x))) /\
  (forall e, In e (contrast_elements (normalise formula_expr)) ->
             In e (columns (heap st x))).
Proof.
  unfold mutate_from_expr_list, bindM.
  pose proof (warn_backquotes_state (columns (heap st x)) (normalise formula_expr) st)
    as [Hr [Hh Hn]].
  destruct (warn_backquotes (columns (heap st x)) (normalise formula_expr) st)
    as [r0 st0].
  simpl in Hr, Hh, Hn. subst r0. rewrite andb_true_r.
  destruct (nonempty (missing_contrasts (columns (heap st x)) (normalise formula_expr)))
    eqn:Em; [discriminate|].
  apply nonempty_false in Em. intro H.
  destruct (mutate_loop_frame _ _ _ _ _ _ _ _ H) as [Hres _].
  split; [apply Hres; reflexivity|]. split.
  - exact (mutate_loop_strict _ _ _ _ _ _ _ H).
  - intros e He. apply mem_str_In.
    destruct (mem_str e (columns (heap st x))) eqn:E; [reflexivity|].
    assert (Hin : In e (missing_contrasts (columns (heap st x))
                          (normalise formula_expr))).
    { apply filter_In. split; [exact He|]. rewrite E. reflexivity. }
    rewrite Em in Hin. contradiction.
Qed.

Lemma strict_mode_result_holds_every_column_witness :
  exists st',
    mutate_from_expr_list column_eval 0%nat (FList [lit "a"]) false one_column_state
    = (Ok 0%nat, st') /\
    (forall c f, In (c, f) (normalise (FList [lit "a"])) ->
                 In c (columns (heap st' 0%nat))) /\
    (forall e, In e (contrast_elements (normalise (FList [lit "a"]))) ->
               In e (columns (heap one_column_state 0%nat))).
Proof.
  destruct (mutate_from_expr_list column_eval 0%nat (FList [lit "a"]) false
              one_column_state) as [res st'] eqn:E.
  assert (Hres : res = Ok 0%nat).
  { change res with (fst (res, st')). rewrite <- E. vm_compute. reflexivity. }
  subst res. exists st'. split; [reflexivity|].
  exact (proj2 (strict_mode_result_holds_every_column column_eval 0%nat 0%nat
                  (FList [lit "a"]) one_column_state st' E)).
Defined.

(** In strict mode, when the validation passes and a formula fails in the
    evaluation engine, the Contrast Evaluator raises the engine's exception
    itself; the later formulas are not evaluated, nothing is printed for
    the failure, and the table keeps the columns the earlier formulas
    assigned: the call is not undone. *)
Theorem strict_mode_raises_the_engine_error
    (df_eval : frame -> str -> result (list cell)) (x : loc)
    (formula_expr : formulas) (pre post : list (str * str)) (new_col formula : str)
    (st st1 : pystate) (e : exn) :
  normalise formula_expr = pre ++ (new_col, formula) :: post ->
  missing_contrasts (columns (heap st x)) (normalise formula_expr) = [] ->
  mutate_loop df_eval (columns (heap st x)) false pre x
    (snd (warn_backquotes (columns (heap st x)) (normalise formula_expr) st))
  = (Ok x, st1) ->
  df_eval (heap st1 x) (escape_column_names formula (columns (heap st x))) = Raise e ->
  mutate_from_expr_list df_eval x formula_expr false st = (Raise e, st1) /\
  (forall c f, In (c, f) pre -> In c (columns (heap st1 x))).
Proof.
  intros Hitems Hvalid Hpre Heval. split.
  - unfold mutate_from_expr_list, bindM.
    pose proof (warn_backquotes_state (columns (heap st x)) (normalise formula_expr) st)
      as [Hr _].
    destruct (warn_backquotes (columns (heap st x)) (normalise formula_expr) st)
      as [r st0].
    simpl in Hr, Hpre. subst r. rewrite Hvalid. cbn [nonempty andb].
    rewrite Hitems, mutate_loop_app. unfold bindM. rewrite Hpre.
    cbn [mutate_loop]. unfold bindM, mutate_with_formula. rewrite Heval.
    reflexivity.
  - exact (mutate_loop_strict _ _ _ _ _ _ _ Hpre).
Qed.

Lemma strict_mode_raises_the_engine_error_witness :
  mutate_from_expr_list column_eval 0%nat
    (FDict [(lit "c", lit "a"); (lit "d", lit "a+a"); (lit "e", lit "a")]) false
    one_column_state
  = (Raise (EvalError (lit "a+a")),
     heap_set 0%nat
       (mkFrame [lit "a"; lit "c"] [[CNum (1#1); CNum (1#1)]; [CNum (2#1); CNum (2#1)]])
       one_column_state) /\
  (forall c f, In (c, f) [(lit "c", lit "a")] ->
               In c (columns (heap (heap_set 0%nat
                 (mkFrame [lit "a"; lit "c"]
                    [[CNum (1#1); CNum (1#1)]; [CNum (2#1); CNum (2#1)]])
                 one_column_state) 0%nat))).
Proof.
  apply (strict_mode_raises_the_engine_error column_eval 0%nat
           (FDict [(lit "c", lit "a"); (lit "d", lit "a+a"); (lit "e", lit "a")])
           [(lit "c", lit "a")] [(lit "e", lit "a")] (lit "d") (lit "a+a")
           one_column_state).
  - reflexivity.
  - vm_compute. reflexivity.
  - vm_compute. reflexivity.
  - vm_compute. reflexivity.
Defined.

(** ** Contrast Evaluator: the identifiers of a formula *)

Lemma chr_match_len (whole : nat) (p : ascii -> bool) (c : ascii) (s : str) :
  match_len whole (Chr p) (c :: s) = if p c then Some 1%nat else None.
Proof.
  unfold match_len, match_at. cbn [rmatch].
  destruct (p c); [|reflexivity]. cbn [accept length]. f_equal. lia.
Qed.

(** Deleting the matches of a one-character class keeps the other
    characters. *)
Lemma sub_delete_class (p : ascii -> bool) (s : str) :
  re_sub_delete (Chr p) s = filter (fun c => negb (p c)) s.
Proof.
  unfold re_sub_delete. generalize (length s). intro whole.
  induction s as [|c s IH]; [reflexivity|].
  cbn [sub_scan filter]. rewrite chr_match_len.
  destruct (p c); cbn [negb]; rewrite IH; reflexivity.
Qed.

(** No piece of a split on a one-character class holds a character of the
    class. *)
Lemma split_scan_pieces (whole : nat) (p : ascii -> bool) (cur s : str) :
  forallb (fun c => negb (p c)) cur = true ->
  Forall (fun e => forallb (fun c => negb (p c)) e = true)
         (split_scan whole (Chr p) O cur s).
Proof.
  revert cur. induction s as [|c s IH]; intros cur Hcur.
  - cbn [split_scan]. constructor; [|constructor].
    rewrite forallb_forall in Hcur |- *. intros a Ha. apply Hcur.
    apply in_rev. exact Ha.
  - cbn [split_scan]. rewrite chr_match_len. destruct (p c) eqn:E.
    + constructor; [|apply IH; reflexivity].
      rewrite forallb_forall in Hcur |- *. intros a Ha. apply Hcur.
      apply in_rev. exact Ha.
    + apply IH. simpl. rewrite E, Hcur. reflexivity.
Qed.

Lemma clean_contrast_elements_plain (expr e : str) :
  In e (clean_contrast_elements expr) ->
  forallb (fun c => negb (is_formula_punctuation c)) e = true.
Proof.
  unfold clean_contrast_elements, operator_pattern, paren_space_pattern, re_split.
  intro H. apply in_map_iff in H. destruct H as [piece [<- Hin]].
  rewrite sub_delete_class.
  pose proof (split_scan_pieces
                (length (re_sub_delete decimal_pattern
                           (re_sub_delete fraction_pattern expr)))
                cls_operator []
                (re_sub_delete decimal_pattern (re_sub_delete fraction_pattern expr))
                eq_refl) as Hp.
  rewrite Forall_forall in Hp. specialize (Hp piece Hin).
  rewrite forallb_forall in Hp |- *. intros c Hc. apply filter_In in Hc.
  destruct Hc as [Hc Hps]. specialize (Hp c Hc).
  unfold is_formula_punctuation. apply negb_true_iff in Hp, Hps.
  rewrite Hp, Hps. reflexivity.
Qed.

(** The identifiers the Contrast Evaluator extracts from the formulas hold
    no operator character, parenthesis or white space.  A column whose name
    holds one of these, such as [(Intercept)], is therefore never one of
    them: a formula that mentions such a column fails the validation of
    strict mode, which looks for the name without them. *)
Theorem extracted_identifiers_hold_no_punctuation
    (formula_expr : formulas) (e : str) :
  In e (contrast_elements (normalise formula_expr)) ->
  forallb (fun c => negb (is_formula_punctuation c)) e = true /\
  forall col, existsb is_formula_punctuation col = true -> e <> col.
Proof.
  unfold contrast_elements. intro H. apply in_flat_map in H.
  destruct H as [[k f] [_ H]]. cbn [snd] in H.
  apply clean_contrast_elements_plain in H. split; [exact H|].
  intros col Hcol ->. apply existsb_exists in Hcol. destruct Hcol as [c [Hin Hc]].
  rewrite forallb_forall in H. specialize (H c Hin). rewrite Hc in H. discriminate.
Qed.

Lemma extracted_identifiers_hold_no_punctuation_witness :
  contrast_elements (normalise (FList [lit "(Intercept) - typeB"]))
  = [lit "Intercept"; lit "typeB"] /\
  forallb (fun c => negb (is_formula_punctuation c)) (lit "Intercept") = true /\
  forall col, existsb is_formula_punctuation col = true -> lit "Intercept" <> col.
Proof.
  split; [vm_compute; reflexivity|].
  apply (extracted_identifiers_hold_no_punctuation
           (FList [lit "(Intercept) - typeB"]) (lit "Intercept")).
  vm_compute. tauto.
Defined.

(** ** Contrast Evaluator: escaping *)

Lemma identifier_needs_no_escape (col : str) :
  is_identifier col = true -> re_match identifier_pattern col <> None.
Proof.
  destruct col as [|a w]; [discriminate|]. cbn [is_identifier].
  intro H. apply andb_true_iff in H. destruct H as [Ha Hw].
  unfold re_match, match_at, identifier_pattern.
  rewrite rmatch_cat. cbn [rmatch]. rewrite Nat.eqb_refl.
  rewrite Ha.
  match goal with
  | |- star cls_word w ?k <> None =>
      pose proof (star_greedy cls_word w [] k ([], []) Hw I eq_refl) as Hs
  end.
  rewrite app_nil_r in Hs. rewrite Hs. discriminate.
Qed.

(** When every column of the table is named by an identifier (a letter or
    an underscore, then letters, digits and underscores), the escaping of
    lines 123 to 128 leaves every formula as it is written. *)
Theorem escaping_keeps_formulas_of_plain_tables (formula : str) (cols : list str) :
  forallb is_identifier cols = true ->
  escape_column_names formula cols = formula.
Proof.
  unfold escape_column_names. revert formula.
  induction cols as [|col cols IH]; intros formula H; [reflexivity|].
  simpl in H. apply andb_true_iff in H. destruct H as [Hc Hcols].
  cbn [fold_left]. pose proof (identifier_needs_no_escape col Hc) as Hm.
  destruct (re_match identifier_pattern col); [|contradiction].
  apply IH. exact Hcols.
Qed.

Lemma escaping_keeps_formulas_of_plain_tables_witness :
  escape_column_names (lit "typeB - typeA") [lit "chain__"; lit "typeA"; lit "typeB"]
  = lit "typeB - typeA".
Proof.
  apply (escaping_keeps_formulas_of_plain_tables (lit "typeB - typeA")
           [lit "chain__"; lit "typeA"; lit "typeB"]).
  reflexivity.
Defined.

(** ** Orchestrator: the primary matrix *)

Lemma drop_positions_filter {X : Type} (g : X -> bool) (l : list X) :
  drop_positions (map g l) l = filter g l.
Proof.
  induction l as [|a l IH]; simpl; [reflexivity|].
  rewrite IH. reflexivity.
Qed.

Lemma pivot_index_names (idx : list str) (col val : str) (f : frame) (p : pivoted) :
  pivot idx col val f = Ok p ->
  p_index_names p = idx /\
  p_columns p
  = stable_sort cell_leb
      (dedup cell_same (map (fun row => cell_at col (columns f) row) (rows f))).
Proof.
  unfold pivot. destruct (missing_labels (idx ++ [col; val]) f); [|discriminate].
  destruct (has_duplicates _ _); [discriminate|].
  intro H. injection H as <-. cbn [p_index_names p_columns]. split; [reflexivity|].
  rewrite map_map. reflexivity.
Qed.

Lemma set_labels_ok (labels : list str) (p : pivoted) (w : wide) :
  set_labels labels p = Ok w ->
  w_index_names w = p_index_names p /\ columns (w_frame w) = labels /\
  length labels = length (p_columns p).
Proof.
  unfold set_labels. destruct (Nat.eqb_spec (length labels) (length (p_columns p)));
    [|discriminate].
  intro H. injection H as <-. repeat split. assumption.
Qed.

Lemma reset_wide_index_ok (w : wide) (fr : frame) :
  reset_wide_index w = Ok fr ->
  columns fr = w_index_names w ++ columns (w_frame w) /\
  forall n, In n (w_index_names w) -> ~ In n (columns (w_frame w)).
Proof.
  unfold reset_wide_index.
  destruct (filter (fun n => mem_str n (columns (w_frame w))) (w_index_names w))
    as [|c cl] eqn:E; [|discriminate].
  intro H. injection H as <-. split; [reflexivity|].
  intros n Hn Hin.
  assert (Hc : In n []).
  { rewrite <- E. apply filter_In. split; [exact Hn|]. apply mem_str_In. exact Hin. }
  contradiction.
Qed.

(** The columns of the primary matrix, and what lines 161 to 165 require of
    the design labels. *)
Lemma primary_matrix_columns (re : str -> str -> result bool)
    (rl : list draw_record -> str -> str -> str -> result draw_table)
    (fo : option fit) (mio : option model_input) (f : fit) (fr : frame) :
  primary_matrix re rl fo mio = Ok (f, fr) ->
  exists mi labels t,
    mio = Some mi /\ X mi = Some labels /\ fo = Some f /\
    draws_to_tibble_x_y re rl f (lit "beta") col_C col_M = Ok t /\
    columns fr = draw_index ++ [col_M] ++ labels /\
    length labels
    = length (dedup cell_same (map (fun r => CInt (row_x r)) (records t))) /\
    forall n, In n (draw_index ++ [lit "variable"; col_M]) -> ~ In n labels.
Proof.
  unfold primary_matrix.
  destruct mio as [mi|]; cbn [get_attr bind]; [|discriminate].
  destruct (X mi) as [labels|] eqn:EX; cbn [get_attr bind]; [|discriminate].
  destruct fo as [f0|]; cbn [get_attr bind]; [|discriminate].
  destruct (draws_to_tibble_x_y re rl f0 (lit "beta") col_C col_M) as [t|e] eqn:Et;
    cbn [bind]; [|discriminate].
  destruct (pivot _ _ _ _) as [p|e] eqn:Ep; cbn [bind]; [|discriminate].
  destruct (set_labels labels p) as [w|e] eqn:Ew; cbn [bind]; [|discriminate].
  destruct (reset_wide_index w) as [beta|e] eqn:Er; cbn [bind]; [|discriminate].
  intro H. injection H as <- <-.
  apply pivot_index_names in Ep. destruct Ep as [Hidx Hcols].
  apply set_labels_ok in Ew. destruct Ew as [Hwn [Hwc Hlen]].
  apply reset_wide_index_ok in Er. destruct Er as [Hbc Hdisj].
  rewrite Hwn, Hidx in Hbc, Hdisj. rewrite Hwc in Hbc, Hdisj.
  exists mi, labels, t. repeat split; try reflexivity; try assumption.
  - unfold drop_columns. cbn [columns].
    rewrite drop_positions_filter, Hbc.
    rewrite filter_app, (filter_everything _ labels); [reflexivity|].
    intros c Hc. apply negb_true_iff.
    destruct (mem_str c [lit "variable"]) eqn:E; [|exact E].
    apply mem_str_In in E. destruct E as [<-|[]].
    exfalso. apply (Hdisj (lit "variable")); [|exact Hc].
    simpl. tauto.
  - rewrite Hlen, Hcols.
    rewrite (Permutation_length (stable_sort_perm cell_leb _)).
    destruct (reshaper_labels f0 (lit "beta") col_C col_M t eq_refl Et) as [Hx Hy].
    destruct t as [xl yl recs]. simpl in Hx, Hy. subst xl yl.
    unfold to_frame. cbn [rows columns records x_label y_label].
    rewrite map_map. reflexivity.
Qed.

(** When lines 161 to 168 complete, the primary matrix has the columns
    [chain__], [iter__], [draw__] and [M], then one column per label of the
    design matrix, in that order; the design matrix has as many columns as
    the [beta] draws have distinct first indices, and none of its labels is
    one of the five index labels of line 163. *)
Theorem primary_matrix_has_one_column_per_design_label
    (re : str -> str -> result bool)
    (rl : list draw_record -> str -> str -> str -> result draw_table)
    (fo : option fit) (mio : option model_input) (f : fit) (fr : frame) :
  primary_matrix re rl fo mio = Ok (f, fr) ->
  exists mi labels t,
    mio = Some mi /\ X mi = Some labels /\ fo = Some f /\
    draws_to_tibble_x_y re rl f (lit "beta") col_C col_M = Ok t /\
    columns fr
    = [lit "chain__"; lit "iter__"; lit "draw__"; lit "M"] ++ labels /\
    length labels
    = length (dedup cell_same (map (fun r => CInt (row_x r)) (records t))) /\
    forall n,
      In n [lit "chain__"; lit "iter__"; lit "draw__"; lit "variable"; lit "M"] ->
      ~ In n labels.
Proof. apply primary_matrix_columns. Qed.

Lemma primary_matrix_has_one_column_per_design_label_witness :
  exists f fr,
    primary_matrix plain_search refuse_overwritten (Some example_fit)
      (data_model_input (example_data 0))
    = Ok (f, fr) /\
    exists mi labels t,
      data_model_input (example_data 0) = Some mi /\ X mi = Some labels /\
      Some example_fit = Some f /\
      draws_to_tibble_x_y plain_search refuse_overwritten f (lit "beta") col_C col_M = Ok t /\
      columns fr
      = [lit "chain__"; lit "iter__"; lit "draw__"; lit "M"] ++ labels /\
      length labels
      = length (dedup cell_same (map (fun r => CInt (row_x r)) (records t))) /\
      forall n,
        In n [lit "chain__"; lit "iter__"; lit "draw__"; lit "variable"; lit "M"] ->
        ~ In n labels.
Proof.
  destruct (primary_matrix plain_search refuse_overwritten (Some example_fit)
              (data_model_input (example_data 0))) as [[f fr]|e] eqn:E;
    [|vm_compute in E; discriminate].
  exists f, fr. split; [reflexivity|].
  exact (primary_matrix_has_one_column_per_design_label plain_search
           refuse_overwritten (Some example_fit) (data_model_input (example_data 0)) f fr E).
Defined.

(** ** Orchestrator: random effects *)

(** Whenever the model declares a random-effect group, the orchestrator
    raises, whatever the engines, the module namespace and the contrasts;
    it raises before the contrasts are read, so that nothing is printed and
    no table object is created. *)
Theorem orchestrator_raises_with_random_effects
    (re : str -> str -> result bool)
    (rl : list draw_record -> str -> str -> str -> result draw_table)
    (df_eval : frame -> str -> result (list cell))
    (mg : frame -> wide -> result frame) (g : globals)
    (d : data) (contrasts : option formulas) (st : pystate) :
  0 < get_n_random_eff (data_model_input d) ->
  exists e,
    get_abundance_contrast_draws re rl df_eval mg g d contrasts st = (Raise e, st).
Proof.
  intro Hn. destruct (assemble_draws_raises re rl mg d Hn) as [e He].
  exists e. unfold get_abundance_contrast_draws, bindM, lift. rewrite He.
  reflexivity.
Qed.

Lemma orchestrator_raises_with_random_effects_witness :
  0 < get_n_random_eff (data_model_input (example_data 2)) /\
  exists e,
    get_abundance_contrast_draws plain_search refuse_overwritten column_eval no_merge
      bound_globals
      (example_data 2) None empty_state = (Raise e, empty_state).
Proof.
  split; [reflexivity|].
  apply (orchestrator_raises_with_random_effects plain_search refuse_overwritten
           column_eval no_merge
           bound_globals (example_data 2) None empty_state).
  reflexivity.
Defined.

(** ** Orchestrator: what it can return *)

Lemma app_cons_neq {X : Type} (l t : list X) (a : X) : l <> l ++ a :: t.
Proof.
  intro H. apply (f_equal (@length X)) in H. rewrite length_app in H. simpl in H. lia.
Qed.

(** Attaching the names adds one column. *)
Lemma attach_cell_names_width (cg : option str) (y_columns : list str)
    (draws fr : frame) :
  attach_cell_names cg y_columns draws = Ok fr ->
  length (columns fr) = S (length (columns draws)).
Proof.
  unfold attach_cell_names. destruct cg as [name|]; [|discriminate].
  destruct (negb (mem_str col_M (columns draws))); [discriminate|].
  intro H. apply select_columns_ok in H. destruct H as [-> Hall].
  cbn [columns] in *.
  destruct (mem_str name (columns draws)) eqn:Ec.
  - exfalso. specialize (Hall name (or_introl eq_refl)).
    apply in_app_or in Hall. destruct Hall as [Hin|[Hin|[]]].
    + apply in_map_iff in Hin. destruct Hin as [c [Hc _]].
      cbn [andb] in Hc. destruct (str_eqb c name) eqn:E.
      * apply str_eqb_eq in E. subst c. symmetry in Hc.
        exact (app_cons_neq _ _ _ Hc).
      * subst c. rewrite str_eqb_refl in E. discriminate.
    + symmetry in Hin. exact (app_cons_neq _ _ _ Hin).
  - cbn [andb]. rewrite map_id. cbn [length]. f_equal.
    rewrite filter_app. cbn [filter]. rewrite str_eqb_refl. cbn [negb].
    rewrite app_nil_r. rewrite filter_everything; [reflexivity|].
    intros c Hc. apply negb_true_iff. apply str_eqb_neq. intros ->.
    apply mem_str_In in Hc. congruence.
Qed.

Lemma mutate_from_expr_list_width
    (df_eval : frame -> str -> result (list cell)) (x : loc) (fe : formulas)
    (ie : bool) (st st' : pystate) (r : loc) :
  mutate_from_expr_list df_eval x fe ie st = (Ok r, st') ->
  r = x /\ (length (columns (heap st x)) <= length (columns (heap st' x)))%nat.
Proof.
  unfold mutate_from_expr_list, bindM.
  pose proof (warn_backquotes_state (columns (heap st x)) (normalise fe) st)
    as [Hr [Hh _]].
  destruct (warn_backquotes (columns (heap st x)) (normalise fe) st) as [r0 st0].
  simpl in Hr, Hh. subst r0.
  destruct (nonempty _ && negb ie); [discriminate|].
  intro H.
  destruct (mutate_loop_frame _ _ _ _ _ _ _ _ H) as [Hres _].
  destruct (mutate_loop_size _ _ _ _ _ _ _ _ H) as [_ Hw].
  rewrite Hh in Hw. split; [apply Hres; reflexivity | exact Hw].
Qed.

(** Applying the contrasts removes no column. *)
Lemma apply_contrasts_width
    (df_eval : frame -> str -> result (list cell)) (g : globals)
    (contrasts : option formulas) (draws fr : frame) (st st' : pystate) :
  apply_contrasts df_eval g contrasts draws st = (Ok fr, st') ->
  (length (columns draws) <= length (columns fr))%nat.
Proof.
  unfold apply_contrasts.
  assert (Hret : ret draws st = (Ok fr, st') ->
                 (length (columns draws) <= length (columns fr))%nat).
  { unfold ret. intro H. injection H as <- _. lia. }
  destruct contrasts as [fe|]; [|exact Hret].
  destruct (truthy_formulas (Some fe)); [|exact Hret].
  unfold bindM, lift. destruct (lookup_name "TRUE" (g_TRUE g)) as [ie|e];
    [|discriminate].
  unfold alloc.
  destruct (mutate_from_expr_list df_eval (next st) fe ie _) as [[x'|e] st2] eqn:E;
    [|discriminate].
  apply mutate_from_expr_list_width in E. destruct E as [-> Hw].
  cbn [heap] in Hw. rewrite Nat.eqb_refl in Hw.
  intro H. injection H as <- _. exact Hw.
Qed.

(** Whatever the module namespace binds, a table the orchestrator returns
    is the table of line 218: its two columns are the [cell_group] entry
    and [M].  It is returned only for a model without random-effect group
    whose design matrix has at most one column, and, when [y] is bound to a
    table of counts, no column at all; in every other case the orchestrator
    raises or returns nothing. *)
Theorem orchestrator_returns_the_pairs_of_a_trivial_design
    (re : str -> str -> result bool)
    (rl : list draw_record -> str -> str -> str -> result draw_table)
    (df_eval : frame -> str -> result (list cell))
    (mg : frame -> wide -> result frame) (g : globals)
    (d : data) (contrasts : option formulas) (st : pystate) (t : frame) :
  fst (get_abundance_contrast_draws re rl df_eval mg g d contrasts st) = Ok (Some t) ->
  exists name mi labels,
    cell_group d = Some name /\ data_model_input d = Some mi /\
    X mi = Some labels /\
    columns t = [name; col_M] /\
    (length labels <= 1)%nat /\
    get_n_random_eff (data_model_input d) <= 0 /\
    g_y g <> None /\
    (forall y_columns, g_y g = Some (Some y_columns) -> labels = []).
Proof.
  unfold get_abundance_contrast_draws, bindM, lift.
  destruct (assemble_draws re rl mg d) as [[f draws0]|e] eqn:Ea; [|discriminate].
  cbn [fst snd].
  destruct (apply_contrasts df_eval g contrasts draws0 st) as [[draws|e] st1] eqn:Ec;
    [|discriminate].
  apply apply_contrasts_width in Ec. cbn [fst].
  (* the random-effect stages were not entered *)
  assert (Hn : get_n_random_eff (data_model_input d) <= 0).
  { destruct (Z.ltb_spec 0 (get_n_random_eff (data_model_input d))) as [Hpos|Hle];
      [|lia].
    destruct (assemble_draws_raises re rl mg d Hpos) as [e He]. congruence. }
  assert (Hpm : primary_matrix re rl (data_fit d) (data_model_input d) = Ok (f, draws0)).
  { revert Ea. unfold assemble_draws.
    destruct (primary_matrix re rl (data_fit d) (data_model_input d)) as [[f' pm]|e];
      cbn [bind]; [|discriminate].
    destruct (Z.ltb_spec 0 (get_n_random_eff (data_model_input d))) as [Hlt|_];
      [lia|].
    destruct (Z.ltb_spec 1 (get_n_random_eff (data_model_input d))) as [Hlt|_];
      [lia|].
    cbn [bind]. intro Heq. injection Heq as -> ->. reflexivity. }
  apply primary_matrix_columns in Hpm.
  destruct Hpm as [mi [labels [tb [Hmi [HX [_ [_ [Hcols _]]]]]]]].
  assert (Hw0 : length (columns draws0) = (4 + length labels)%nat).
  { rewrite Hcols. reflexivity. }
  unfold attach_and_finish.
  destruct (g_y g) as [y|] eqn:Ey; cbn [lookup_name bind]; [|discriminate].
  destruct (match y with
            | Some y_columns => attach_cell_names (cell_group d) y_columns draws
            | None => Ok draws
            end) as [draws'|e] eqn:Ey'; cbn [bind]; [|discriminate].
  destruct (Nat.leb_spec (length (columns draws')) 5) as [Hle|Hgt].
  - destruct (cell_group d) as [name|]; cbn [bind]; [|discriminate].
    destruct (select_columns [name; col_M] draws') as [pairs|e] eqn:Es;
      cbn [bind]; [|discriminate].
    apply select_columns_ok in Es. destruct Es as [-> _].
    intro H. injection H as <-.
    exists name, mi, labels. repeat split; try assumption; try discriminate.
    + destruct y as [yc|].
      * apply attach_cell_names_width in Ey'. lia.
      * injection Ey' as <-. lia.
    + intros y_columns Hy. injection Hy as ->.
      apply attach_cell_names_width in Ey'.
      destruct labels; [reflexivity|]. simpl in Hw0. lia.
  - destruct (summary_to_tibble re f (lit "beta") col_C (Some col_M) default_probs);
      cbn [bind]; discriminate.
Qed.

Lemma orchestrator_returns_the_pairs_of_a_trivial_design_witness :
  exists t,
    fst (get_abundance_contrast_draws plain_search refuse_overwritten column_eval
           no_merge
           globals_without_counts intercept_data None empty_state) = Ok (Some t) /\
    exists name mi labels,
      cell_group intercept_data = Some name /\
      data_model_input intercept_data = Some mi /\
      X mi = Some labels /\
      columns t = [name; col_M] /\
      (length labels <= 1)%nat /\
      get_n_random_eff (data_model_input intercept_data) <= 0 /\
      g_y globals_without_counts <> None /\
      (forall y_columns,
          g_y globals_without_counts = Some (Some y_columns) -> labels = []).
Proof.
  destruct (fst (get_abundance_contrast_draws plain_search refuse_overwritten
                   column_eval no_merge
                   globals_without_counts intercept_data None empty_state))
    as [[t|]|e] eqn:E; try (vm_compute in E; discriminate).
  exists t. split; [reflexivity|].
  exact (orchestrator_returns_the_pairs_of_a_trivial_design plain_search
           refuse_overwritten column_eval
           no_merge globals_without_counts intercept_data None empty_state t E).
Defined.

(** ** Orchestrator: the pivot of line 163 *)

(** A list whose elements have distinct keys holds no two elements that
    agree on what the keys distinguish. *)
Lemma has_duplicates_keys {X K : Type} (same : X -> X -> bool) (key : X -> K)
    (l : list X) :
  (forall a b, same a b = true -> key a = key b) ->
  NoDup (map key l) -> has_duplicates same l = false.
Proof.
  intro Hk. induction l as [|a l IH]; intro Hnd; [reflexivity|].
  simpl in Hnd. apply NoDup_cons_iff in Hnd. destruct Hnd as [Hnot Hnd].
  cbn [has_duplicates]. rewrite (IH Hnd), orb_false_r.
  destruct (existsb (same a) l) eqn:E; [|reflexivity].
  apply existsb_exists in E. destruct E as [b [Hb Hs]].
  exfalso. apply Hnot. rewrite (Hk a b Hs). apply in_map. exact Hb.
Qed.

Lemma NoDup_map_app {X K : Type} (h : X -> K) (l1 l2 : list X) :
  NoDup (map h l1) -> NoDup (map h l2) ->
  (forall a b, In a l1 -> In b l2 -> h a <> h b) ->
  NoDup (map h (l1 ++ l2)).
Proof.
  intros H1 H2 Hd. induction l1 as [|a l1 IH]; [exact H2|].
  simpl in H1 |- *. apply NoDup_cons_iff in H1. destruct H1 as [Hnot H1].
  constructor.
  - rewrite map_app, in_app_iff. intros [Hin|Hin]; [contradiction|].
    apply in_map_iff in Hin. destruct Hin as [b [Hb Hin]].
    apply (Hd a b); [left; reflexivity | exact Hin | congruence].
  - apply IH; [exact H1|]. intros x y Hx Hy. apply Hd; [right; exact Hx | exact Hy].
Qed.

Lemma NoDup_map_filter {X K : Type} (h : X -> K) (P : X -> bool) (l : list X) :
  NoDup (map h l) -> NoDup (map h (filter P l)).
Proof.
  induction l as [|a l IH]; intro H; [constructor|].
  simpl in H. apply NoDup_cons_iff in H. destruct H as [Hnot H].
  simpl. destruct (P a); [|exact (IH H)].
  simpl. constructor; [|exact (IH H)].
  intro Hin. apply Hnot. apply in_map_iff in Hin. destruct Hin as [b [Hb Hin]].
  apply in_map_iff. exists b. split; [exact Hb|]. apply filter_In in Hin. tauto.
Qed.

Lemma NoDup_map_inj {X Y : Type} (g : X -> Y) (l : list X) :
  (forall a b, g a = g b -> a = b) -> NoDup l -> NoDup (map g l).
Proof.
  intros Hg H. induction H as [|a l Hnot H IH]; simpl; constructor; [|exact IH].
  intro Hin. apply in_map_iff in Hin. destruct Hin as [b [Hb Hin]].
  apply Hg in Hb. subst b. contradiction.
Qed.

(** The group and the draw number of a record. *)
Lemma assign_draw_slots (k : group_key) (l : list draw_record) :
  NoDup (map (fun r => (key_of r, draw__ r)) (assign_draw (filter (in_group k) l))).
Proof.
  apply (NoDup_map_inv snd). rewrite map_map. cbn [snd].
  rewrite assign_draw_draws.
  apply NoDup_map_inj; [intros a b; lia | apply seq_NoDup].
Qed.

(** After the renumbering of line 37, no two records of the Draw Reshaper
    have the same variable, indices and draw number. *)
Lemma groupby_apply_slots (l : list draw_record) :
  NoDup (map (fun r => (key_of r, draw__ r)) (groupby_apply assign_draw l)).
Proof.
  unfold groupby_apply. pose proof (group_keys_NoDup l) as Hnd.
  induction Hnd as [|k ks Hnot Hnd IH]; [constructor|].
  cbn [flat_map]. apply NoDup_map_app; [apply assign_draw_slots | exact IH|].
  intros a b Ha Hb Heq. apply assign_draw_group_keys in Ha.
  apply in_flat_map in Hb. destruct Hb as [k' [Hk' Hb]].
  apply assign_draw_group_keys in Hb.
  injection Heq as Hv Hx Hy _. apply Hnot.
  assert (Hkk : k = k') by (rewrite <- Ha, <- Hb; unfold key_of; congruence).
  rewrite Hkk. exact Hk'.
Qed.

Lemma NoDup_map_finer {X K K' : Type} (h : X -> K) (h' : X -> K') (l : list X) :
  (forall a b, h' a = h' b -> h a = h b) -> NoDup (map h l) -> NoDup (map h' l).
Proof.
  intro Hf. induction l as [|a l IH]; intro H; [constructor|].
  simpl in H |- *. apply NoDup_cons_iff in H. destruct H as [Hnot H].
  constructor; [|exact (IH H)].
  intro Hin. apply Hnot. apply in_map_iff in Hin. destruct Hin as [b [Hb Hin]].
  apply in_map_iff. exists b. split; [apply Hf; exact Hb | exact Hin].
Qed.

Lemma cell_same_eq (a b : cell) : cell_same a b = true -> a = b.
Proof.
  destruct a as [x|p|s|], b as [y|q|u|]; simpl; try discriminate; try reflexivity.
  - intro H. apply Z.eqb_eq in H. congruence.
  - unfold Q_eqb. intro H. apply andb_true_iff in H. destruct H as [Hn Hd].
    apply Z.eqb_eq in Hn. apply Pos.eqb_eq in Hd.
    destruct p, q. simpl in Hn, Hd. congruence.
  - intro H. apply str_eqb_eq in H. congruence.
Qed.

Lemma cells_same_eq (a b : list cell) : cells_same a b = true -> a = b.
Proof.
  revert b. induction a as [|x a IH]; intros [|y b]; simpl; try discriminate;
    [reflexivity|].
  intro H. apply andb_true_iff in H. destruct H as [Hxy H].
  apply cell_same_eq in Hxy. apply IH in H. congruence.
Qed.

(** The pivot of line 163 never fails on a table of the Draw Reshaper: its
    columns are there, and the renumbering of line 37 makes the entries
    distinct. *)
Lemma pivot_of_draw_table (re : str -> str -> result bool)
    (rl : list draw_record -> str -> str -> str -> result draw_table)
    (f : fit) (par : str) (t : draw_table) :
  draws_to_tibble_x_y re rl f par col_C col_M = Ok t ->
  exists p,
    pivot (draw_index ++ [lit "variable"; col_M]) col_C (lit "value") (to_frame t)
    = Ok p.
Proof.
  intro H. apply reshaper_records in H; [|reflexivity].
  destruct H as [long [_ ->]].
  unfold pivot, to_frame. cbn [x_label y_label records columns rows].
  change (missing_labels _ _) with (@nil str). cbv iota.
  rewrite map_map.
  rewrite (has_duplicates_keys _ (fun e : list cell * cell * cell => fst e)).
  - eexists. reflexivity.
  - intros [[ia ca] va] [[ib cb] vb]. cbn [fst snd]. intro Hs.
    apply andb_true_iff in Hs. destruct Hs as [Hi Hc].
    apply cells_same_eq in Hi. apply cell_same_eq in Hc. congruence.
  - rewrite map_map.
    apply (NoDup_map_finer (fun r => (key_of r, draw__ r))).
    + intros a b Heq. cbv in Heq. unfold key_of.
      destruct a as [ca ia da va xa ya qa], b as [cb ib db vb xb yb qb].
      cbn [variable row_x row_y draw__] in *.
      destruct va, vb; congruence.
    + apply NoDup_map_filter, groupby_apply_slots.
Qed.

(** For a model with a design matrix and a fit, lines 161 to 168 complete
    exactly when the Draw Reshaper returns the [beta] draws, the design
    matrix has as many columns as these draws have distinct first indices,
    and none of its labels is one of the five index labels of line 163.
    The pivot itself never fails: the renumbering of line 37 keeps its
    entries distinct. *)
Theorem primary_matrix_returns_exactly_when
    (re : str -> str -> result bool)
    (rl : list draw_record -> str -> str -> str -> result draw_table)
    (f : fit) (mi : model_input)
    (labels : list str) :
  X mi = Some labels ->
  (exists fr, primary_matrix re rl (Some f) (Some mi) = Ok (f, fr)) <->
  (exists t,
      draws_to_tibble_x_y re rl f (lit "beta") col_C col_M = Ok t /\
      length labels
      = length (dedup cell_same (map (fun r => CInt (row_x r)) (records t))) /\
      forall n,
        In n [lit "chain__"; lit "iter__"; lit "draw__"; lit "variable"; lit "M"] ->
        ~ In n labels).
Proof.
  intro HX. split.
  - intros [fr H]. apply primary_matrix_columns in H.
    destruct H as [mi' [labels' [t [Hmi [HX' [_ [Ht [_ [Hlen Hdisj]]]]]]]]].
    injection Hmi as <-. rewrite HX in HX'. injection HX' as <-.
    exists t. auto.
  - intros [t [Ht [Hlen Hdisj]]].
    unfold primary_matrix. cbn [get_attr bind]. rewrite HX. cbn [get_attr bind].
    rewrite Ht. cbn [bind].
    destruct (pivot_of_draw_table re rl f (lit "beta") t Ht) as [p Hp].
    rewrite Hp. cbn [bind].
    apply pivot_index_names in Hp. destruct Hp as [Hidx Hcols].
    assert (Hpl : length (p_columns p) = length labels).
    { rewrite Hlen, Hcols.
      rewrite (Permutation_length (stable_sort_perm cell_leb _)).
      destruct (reshaper_labels f (lit "beta") col_C col_M t eq_refl Ht) as [Hx Hy].
      destruct t as [xl yl recs]. simpl in Hx, Hy. subst xl yl.
      unfold to_frame. cbn [rows columns records x_label y_label].
      rewrite map_map. reflexivity. }
    unfold set_labels. rewrite Hpl, Nat.eqb_refl. cbn [bind].
    unfold reset_wide_index. cbn [w_index_names w_frame columns].
    rewrite (filter_nothing _ (p_index_names p)).
    + cbn [bind]. eexists. reflexivity.
    + intros n Hn. rewrite Hidx in Hn.
      destruct (mem_str n labels) eqn:E; [|reflexivity].
      apply mem_str_In in E. exfalso. exact (Hdisj n Hn E).
Qed.

Lemma primary_matrix_returns_exactly_when_witness :
  X (mkModelInput (Some [lit "(Intercept)"; lit "typeB"]) None None None)
  = Some [lit "(Intercept)"; lit "typeB"] /\
  (exists fr,
      primary_matrix plain_search refuse_overwritten (Some example_fit)
        (Some (mkModelInput (Some [lit "(Intercept)"; lit "typeB"]) None None None))
      = Ok (example_fit, fr)).
Proof.
  split; [reflexivity|].
  apply (proj2 (primary_matrix_returns_exactly_when plain_search refuse_overwritten
                  example_fit
                  (mkModelInput (Some [lit "(Intercept)"; lit "typeB"]) None None None)
                  [lit "(Intercept)"; lit "typeB"] eq_refl)).
  destruct (draws_to_tibble_x_y plain_search refuse_overwritten example_fit
              (lit "beta") col_C col_M)
    as [t|e] eqn:E; [|vm_compute in E; discriminate].
  exists t. split; [reflexivity|]. split.
  - assert (Ht : Ok t = draws_to_tibble_x_y plain_search refuse_overwritten example_fit
                          (lit "beta")
                          col_C col_M) by (symmetry; exact E).
    vm_compute in Ht. injection Ht as ->. vm_compute. reflexivity.
  - intros n Hn Hin. simpl in Hn, Hin.
    destruct Hin as [<-|[<-|[]]];
      repeat (destruct Hn as [Hn|Hn]; [discriminate Hn|]); exact Hn.
Defined.
